(** * Product Finder: the response extractor, the price sort and the
      analysis pipeline of [src/services/geminiService.ts]

    The development is a shallow embedding of the TypeScript source.

    - JavaScript strings are lists of UTF-16 code units, each one given by
      its number.
    - JavaScript numbers are IEEE 754 binary64 values, taken from the
      standard library's [spec_float] with precision 53 and maximal exponent
      1024.  Decimal text is converted with one correctly rounded division.
    - [JSON.parse] and the regular expression of the extractor are
      modelled in full: a scanner and a pushdown automaton for JSON, a
      backtracking matcher for the pattern.
    - A [null] result of a typed gateway function is [None]; the [null]
      result of the extractor is the JSON value [JNull].
    - Calls that leave the program (the model gateway, the geolocation
      provider, [fetch]) are nodes of a program tree; a run of the tree
      records every call that was issued together with its answer. *)

From Stdlib Require Import ZArith List String Ascii Bool Lia Permutation.
From Stdlib Require Import Floats.SpecFloat.
From Stdlib Require Import Sorted.
From Stdlib Require DecimalString.
Import ListNotations.

Local Open Scope Z_scope.
Local Open Scope list_scope.

(* ================================================================== *)
(** ** JavaScript strings *)

Module JSString.

(** A UTF-16 code unit, as its number. *)
Definition code_unit : Type := N.

Definition jsstring : Type := list code_unit.

Definition cu (c : ascii) : code_unit := N_of_ascii c.

(** String literals are written as Rocq strings of ASCII characters. *)
Definition lit (s : string) : jsstring := map cu (list_ascii_of_string s).

Definition is_char (x : code_unit) (c : ascii) : bool := N.eqb x (cu c).

Definition is_digit (x : code_unit) : bool := ((48 <=? x) && (x <=? 57))%N.

(** The regular expression class [\s], which is also the white space that
    [parseFloat] skips: TAB, LF, VT, FF, CR, SPACE, NBSP, and the Unicode
    space separators, line and paragraph separators and the byte order
    mark. *)
Definition is_space (x : code_unit) : bool :=
  (((9 <=? x) && (x <=? 13)) || (x =? 32) || (x =? 160) || (x =? 5760)
   || ((8192 <=? x) && (x <=? 8202)) || (x =? 8232) || (x =? 8233)
   || (x =? 8239) || (x =? 8287) || (x =? 12288) || (x =? 65279))%N.

(** JavaScript truthiness of a string: only the empty string is falsy. *)
Definition truthy (s : jsstring) : bool :=
  match s with [] => false | _ :: _ => true end.

Fixpoint starts_with (p s : jsstring) : bool :=
  match p, s with
  | [], _ => true
  | a :: p', b :: s' => N.eqb a b && starts_with p' s'
  | _ :: _, [] => false
  end.

(** [span p s] splits [s] after its longest prefix of characters in [p]. *)
Fixpoint span (p : code_unit -> bool) (s : jsstring) : jsstring * jsstring :=
  match s with
  | c :: s' =>
      if p c then let '(a, b) := span p s' in (c :: a, b) else ([], s)
  | [] => ([], [])
  end.

Fixpoint drop_while (p : code_unit -> bool) (s : jsstring) : jsstring :=
  match s with
  | c :: s' => if p c then drop_while p s' else s
  | [] => []
  end.

(** [String.prototype.indexOf] for a one-character needle: the least index,
    or [-1]. *)
Fixpoint indexOf_from (c : ascii) (s : jsstring) (i : Z) : Z :=
  match s with
  | [] => -1
  | x :: s' => if is_char x c then i else indexOf_from c s' (i + 1)
  end.

Definition indexOf (s : jsstring) (c : ascii) : Z := indexOf_from c s 0.

(** [String.prototype.lastIndexOf] for a one-character needle: the greatest
    index, or [-1]. *)
Fixpoint lastIndexOf_from (c : ascii) (s : jsstring) (i : Z) : Z :=
  match s with
  | [] => -1
  | x :: s' =>
      let r := lastIndexOf_from c s' (i + 1) in
      if r =? -1 then (if is_char x c then i else -1) else r
  end.

Definition lastIndexOf (s : jsstring) (c : ascii) : Z :=
  lastIndexOf_from c s 0.

(** [String.prototype.substring]: both arguments are clamped to
    [0 .. length], and swapped when the first exceeds the second. *)
Definition clamp (len x : Z) : Z := Z.min (Z.max x 0) len.

Definition substring (s : jsstring) (startIdx endIdx : Z) : jsstring :=
  let len := Z.of_nat (List.length s) in
  let a := clamp len startIdx in
  let b := clamp len endIdx in
  let from := Z.min a b in
  let to := Z.max a b in
  firstn (Z.to_nat (to - from)) (skipn (Z.to_nat from) s).

End JSString.
Import JSString.

(* ================================================================== *)
(** ** JavaScript numbers *)

Module JSNumber.

Definition number : Type := spec_float.

Definition prec : Z := 53.
Definition emax : Z := 1024.

Definition Infinity : number := S754_infinity false.
Definition NaN : number := S754_nan.
Definition zero : number := S754_zero false.

Definition isNaN (x : number) : bool :=
  match x with S754_nan => true | _ => false end.

Definition is_infinite (x : number) : bool :=
  match x with S754_infinity _ => true | _ => false end.

(** The binary operator [-] on numbers. *)
Definition sub (x y : number) : number := SFsub prec emax x y.

(** [x > 0] on numbers; false when [x] is [NaN]. *)
Definition gt_zero (x : number) : bool := SFltb zero x.

(** The number nearest to [m * 10^e] (ties to even), with the given sign. *)
Definition of_decimal (neg : bool) (m : N) (e : Z) : number :=
  match m with
  | N0 => S754_zero neg
  | Npos p =>
      if 0 <=? e
      then binary_round prec emax neg (p * Z.to_pos (10 ^ e)) 0
      else SFdiv prec emax (S754_finite neg p 0)
                           (S754_finite false (Z.to_pos (10 ^ (- e))) 0)
  end.

(** The integer written by a sequence of decimal digits. *)
Definition digits_value (ds : jsstring) : N :=
  fold_left (fun acc c => (10 * acc + (c - 48))%N) ds 0%N.

(** The exponent part of a decimal literal: [e] or [E], an optional sign
    and at least one digit.  The result is the exponent and the text after
    it; [None] when the text does not start with an exponent part. *)
Definition exponent_part (s : jsstring) : option (Z * jsstring) :=
  match s with
  | c :: s1 =>
      if is_char c "e"%char || is_char c "E"%char then
        let '(neg, s2) :=
          match s1 with
          | d :: s2 =>
              if is_char d "-"%char then (true, s2)
              else if is_char d "+"%char then (false, s2) else (false, s1)
          | [] => (false, s1)
          end in
        match span is_digit s2 with
        | ([], _) => None
        | (ds, rest) =>
            let v := Z.of_N (digits_value ds) in
            Some (if neg then - v else v, rest)
        end
      else None
  | [] => None
  end.

(** The global function [parseFloat]: leading white space is skipped and
    the longest prefix that is a decimal literal is converted; [NaN] when
    no prefix is one. *)
Definition parseFloat (s : jsstring) : number :=
  let s0 := drop_while is_space s in
  let '(neg, s1) :=
    match s0 with
    | c :: r =>
        if is_char c "-"%char then (true, r)
        else if is_char c "+"%char then (false, r) else (false, s0)
    | [] => (false, s0)
    end in
  if starts_with (lit "Infinity") s1 then S754_infinity neg
  else
    let '(int_digits, s2) := span is_digit s1 in
    let '(frac_digits, s3) :=
      match s2 with
      | c :: r => if is_char c "."%char then span is_digit r else ([], s2)
      | [] => ([], s2)
      end in
    match int_digits ++ frac_digits with
    | [] => NaN
    | ds =>
        let e := match exponent_part s3 with Some (e, _) => e | None => 0 end in
        of_decimal neg (digits_value ds) (e - Z.of_nat (List.length frac_digits))
    end.

End JSNumber.
Import JSNumber.

(* ================================================================== *)
(** ** Abrupt completion *)

(** The outcome of evaluating an expression: a value, or a thrown
    exception of type [E]. *)
Inductive completion (E A : Type) : Type :=
| Normal (a : A)
| Throw (e : E).

Arguments Normal {E A} a.
Arguments Throw {E A} e.

(** [try { body } catch (error) { handler }]. *)
Definition try_catch {E A : Type} (body : completion E A)
    (handler : E -> completion E A) : completion E A :=
  match body with
  | Normal a => Normal a
  | Throw e => handler e
  end.

(** The exception of [JSON.parse]. *)
Inductive SyntaxError : Type :=
| mkSyntaxError.

(** [new Error(message)]. *)
Record Error : Type := mkError { message : jsstring }.

(* ================================================================== *)
(** ** [JSON.parse] *)

Module JSON.

#[local] Set Warnings "-register-all".

(** A parsed JSON text.  An object is kept as the sequence of its members
    in the order of the text. *)
Inductive value : Type :=
| JNull
| JBool (b : bool)
| JNumber (n : number)
| JString (s : jsstring)
| JArray (elements : list value)
| JObject (members : list (jsstring * value)).

Inductive token : Type :=
| TLBrace | TRBrace | TLBracket | TRBracket | TColon | TComma
| TString (s : jsstring)
| TScalar (v : value).

(** The JSON white space: TAB, LF, CR and SPACE. *)
Definition is_json_space (x : code_unit) : bool :=
  ((x =? 9) || (x =? 10) || (x =? 13) || (x =? 32))%N.

(** The characters of numbers and of the literal names. *)
Definition is_word_char (x : code_unit) : bool :=
  (is_digit x || ((65 <=? x) && (x <=? 90)) || ((97 <=? x) && (x <=? 122))
   || (x =? 43) || (x =? 45) || (x =? 46))%N.

Definition is_quote (x : code_unit) : bool := (x =? 34)%N.
Definition is_backslash (x : code_unit) : bool := (x =? 92)%N.

Definition hex_digit (x : code_unit) : option N :=
  (if is_digit x then Some (x - 48)
   else if (65 <=? x) && (x <=? 70) then Some (x - 55)
   else if (97 <=? x) && (x <=? 102) then Some (x - 87)
   else None)%N.

(** A JSON number: an optional minus sign; an integer part, which is a
    single zero or starts with a non-zero digit; an optional fraction, a dot
    and at least one digit; an optional exponent part. *)
Definition number_literal (w : jsstring) : option number :=
  let '(neg, w1) :=
    match w with
    | c :: r => if is_char c "-"%char then (true, r) else (false, w)
    | [] => (false, w)
    end in
  let '(int_digits, w2) := span is_digit w1 in
  match int_digits with
  | [] => None
  | d :: ds =>
      if is_char d "0"%char && truthy ds then None
      else
        let frac :=
          match w2 with
          | c :: r =>
              if is_char c "."%char then
                match span is_digit r with
                | ([], _) => None
                | (fd, w3) => Some (fd, w3)
                end
              else Some ([], w2)
          | [] => Some ([], w2)
          end in
        match frac with
        | None => None
        | Some (frac_digits, w3) =>
            let mantissa := digits_value (int_digits ++ frac_digits) in
            let shift := Z.of_nat (List.length frac_digits) in
            match w3 with
            | [] => Some (of_decimal neg mantissa (- shift))
            | _ :: _ =>
                match exponent_part w3 with
                | Some (e, []) => Some (of_decimal neg mantissa (e - shift))
                | _ => None
                end
            end
        end
  end.

(** A maximal run of word characters is [true], [false], [null] or a
    number. *)
Definition scalar_of_word (w : jsstring) : option value :=
  if list_eq_dec N.eq_dec w (lit "true") then Some (JBool true)
  else if list_eq_dec N.eq_dec w (lit "false") then Some (JBool false)
  else if list_eq_dec N.eq_dec w (lit "null") then Some JNull
  else option_map JNumber (number_literal w).

(** The scanner reads one code unit at a time. *)
Inductive lex_state : Type :=
| LDefault
| LWord (acc : jsstring)                       (* reversed *)
| LString (acc : jsstring)                     (* reversed *)
| LEscape (acc : jsstring)
| LUnicode (acc : jsstring) (hex : list N).    (* hex digits read so far *)

Definition lex_default (toks : list token) (x : code_unit)
  : option (lex_state * list token) :=
  if is_json_space x then Some (LDefault, toks)
  else if is_char x "{"%char then Some (LDefault, TLBrace :: toks)
  else if is_char x "}"%char then Some (LDefault, TRBrace :: toks)
  else if is_char x "["%char then Some (LDefault, TLBracket :: toks)
  else if is_char x "]"%char then Some (LDefault, TRBracket :: toks)
  else if is_char x ":"%char then Some (LDefault, TColon :: toks)
  else if is_char x ","%char then Some (LDefault, TComma :: toks)
  else if is_quote x then Some (LString [], toks)
  else if is_word_char x then Some (LWord [x], toks)
  else None.

Definition escape_char (x : code_unit) : option code_unit :=
  if is_quote x || is_backslash x || is_char x "/"%char
  then Some x
  else if is_char x "b"%char then Some 8%N
  else if is_char x "f"%char then Some 12%N
  else if is_char x "n"%char then Some 10%N
  else if is_char x "r"%char then Some 13%N
  else if is_char x "t"%char then Some 9%N
  else None.

Definition lex_step (st : lex_state * list token) (x : code_unit)
  : option (lex_state * list token) :=
  let '(state, toks) := st in
  match state with
  | LDefault => lex_default toks x
  | LWord acc =>
      if is_word_char x then Some (LWord (x :: acc), toks)
      else
        match scalar_of_word (rev acc) with
        | Some v => lex_default (TScalar v :: toks) x
        | None => None
        end
  | LString acc =>
      if is_quote x then Some (LDefault, TString (rev acc) :: toks)
      else if is_backslash x then Some (LEscape acc, toks)
      else if (x <? 32)%N then None
      else Some (LString (x :: acc), toks)
  | LEscape acc =>
      if is_char x "u"%char then Some (LUnicode acc [], toks)
      else
        match escape_char x with
        | Some y => Some (LString (y :: acc), toks)
        | None => None
        end
  | LUnicode acc hex =>
      match hex_digit x with
      | None => None
      | Some h =>
          match hex with
          | [a; b; c] =>
              Some (LString ((((a * 16 + b) * 16 + c) * 16 + h)%N :: acc), toks)
          | _ => Some (LUnicode acc (hex ++ [h]), toks)
          end
      end
  end.

Fixpoint lex_run (st : lex_state * list token) (s : jsstring)
  : option (lex_state * list token) :=
  match s with
  | [] => Some st
  | x :: s' =>
      match lex_step st x with
      | Some st' => lex_run st' s'
      | None => None
      end
  end.

Definition tokenize (s : jsstring) : option (list token) :=
  match lex_run (LDefault, []) s with
  | Some (LDefault, toks) => Some (rev toks)
  | Some (LWord acc, toks) =>
      match scalar_of_word (rev acc) with
      | Some v => Some (rev (TScalar v :: toks))
      | None => None
      end
  | _ => None
  end.

(** The parser is a pushdown automaton over the tokens.  A frame is an
    array or an object under construction. *)
Inductive frame : Type :=
| FArray (elements : list value)                              (* reversed *)
| FObject (members : list (jsstring * value)) (key : option jsstring).

Inductive mode : Type :=
| MValue            (* a value comes next *)
| MValueOrClose     (* after [[]: a value or []] *)
| MKeyOrClose       (* after [{]: a member name or [}] *)
| MKey              (* after [,] in an object: a member name *)
| MColon (key : jsstring)
| MNext             (* after a value in an array or object *)
| MDone (v : value).

Definition deliver (v : value) (stack : list frame) : option (mode * list frame) :=
  match stack with
  | [] => Some (MDone v, [])
  | FArray acc :: st => Some (MNext, FArray (v :: acc) :: st)
  | FObject acc (Some k) :: st => Some (MNext, FObject ((k, v) :: acc) None :: st)
  | FObject _ None :: _ => None
  end.

Definition start_value (t : token) (stack : list frame) : option (mode * list frame) :=
  match t with
  | TScalar v => deliver v stack
  | TString s => deliver (JString s) stack
  | TLBracket => Some (MValueOrClose, FArray [] :: stack)
  | TLBrace => Some (MKeyOrClose, FObject [] None :: stack)
  | _ => None
  end.

Definition close_array (stack : list frame) : option (mode * list frame) :=
  match stack with
  | FArray acc :: st => deliver (JArray (rev acc)) st
  | _ => None
  end.

Definition close_object (stack : list frame) : option (mode * list frame) :=
  match stack with
  | FObject acc None :: st => deliver (JObject (rev acc)) st
  | _ => None
  end.

Definition parse_step (st : mode * list frame) (t : token) : option (mode * list frame) :=
  let '(m, stack) := st in
  match m, t with
  | MValue, _ => start_value t stack
  | MValueOrClose, TRBracket => close_array stack
  | MValueOrClose, _ => start_value t stack
  | MKeyOrClose, TRBrace => close_object stack
  | MKeyOrClose, TString k => Some (MColon k, stack)
  | MKey, TString k => Some (MColon k, stack)
  | MColon k, TColon =>
      match stack with
      | FObject acc _ :: st => Some (MValue, FObject acc (Some k) :: st)
      | _ => None
      end
  | MNext, TComma =>
      match stack with
      | FArray _ :: _ => Some (MValue, stack)
      | FObject _ _ :: _ => Some (MKey, stack)
      | [] => None
      end
  | MNext, TRBracket => close_array stack
  | MNext, TRBrace => close_object stack
  | _, _ => None
  end.

Fixpoint parse_run (st : mode * list frame) (ts : list token) : option (mode * list frame) :=
  match ts with
  | [] => Some st
  | t :: ts' =>
      match parse_step st t with
      | Some st' => parse_run st' ts'
      | None => None
      end
  end.

(** [JSON.parse(text)]: the value of a well-formed text; a [SyntaxError]
    is thrown for every other text. *)
Definition parse (text : jsstring) : completion SyntaxError value :=
  match tokenize text with
  | Some ts =>
      match parse_run (MValue, []) ts with
      | Some (MDone v, _) => Normal v
      | _ => Throw mkSyntaxError
      end
  | None => Throw mkSyntaxError
  end.

End JSON.
Import JSON.

(* ================================================================== *)
(** ** The fence pattern *)

(** The regular expression of [parseJsonResponse],
    three backticks, an optional [json], [\s*], a lazy capture of any
    characters, [\s*] and three backticks, is matched as ECMAScript
    matches it: by backtracking.  A matcher takes the rest of the input;
    its continuation is the rest of the pattern. *)
Module Regex.

Section Matchers.

Context {R : Type}.

Definition cont : Type := jsstring -> option R.

(** A literal. *)
Definition re_lit (p : jsstring) (k : cont) : cont :=
  fun s => if starts_with p s then k (skipn (List.length p) s) else None.

(** A greedy optional item: first with the item, then without. *)
Definition re_opt (item : cont -> cont) (k : cont) : cont :=
  fun s => match item k s with
           | Some r => Some r
           | None => k s
           end.

(** Greedy [\s*]: as many white space characters as possible, giving
    them back one by one when the rest of the pattern fails. *)
Fixpoint re_spaces (k : cont) (s : jsstring) : option R :=
  match s with
  | c :: s' =>
      if is_space c then
        match re_spaces k s' with
        | Some r => Some r
        | None => k s
        end
      else k s
  | [] => k s
  end.

(** The lazy capture group: the shortest run of characters after which
    the rest of the pattern matches.  The result pairs the captured text
    with the result of the rest. *)
Fixpoint re_lazy_capture (k : cont) (s : jsstring) : option (jsstring * R) :=
  match k s with
  | Some r => Some ([], r)
  | None =>
      match s with
      | c :: s' =>
          match re_lazy_capture k s' with
          | Some (captured, r) => Some (c :: captured, r)
          | None => None
          end
      | [] => None
      end
  end.

End Matchers.

(** [String.prototype.match] without the global flag: the match at the
    least start index. *)
Fixpoint re_search {R : Type} (m : jsstring -> option R) (s : jsstring) : option R :=
  match m s with
  | Some r => Some r
  | None =>
      match s with
      | _ :: s' => re_search m s'
      | [] => None
      end
  end.

Definition backticks : jsstring := lit "```".

(** The pattern at one start index; the result is capture group 1. *)
Definition fence_at (s : jsstring) : option jsstring :=
  re_lit backticks
    (re_opt (re_lit (lit "json"))
       (re_spaces
          (fun s1 =>
             match re_lazy_capture
                     (re_spaces (re_lit backticks (fun _ => Some tt))) s1 with
             | Some (captured, _) => Some captured
             | None => None
             end)))
    s.

(** [text.match(...)]: [None] is the [null] result, [Some m] carries
    [m[1]]. *)
Definition fence_match (text : jsstring) : option jsstring :=
  re_search fence_at text.

End Regex.
Import Regex.

(* ================================================================== *)
(** ** Response extractor *)

Module Extractor.

(** Lines 28 to 44: the scan for the outermost brace or bracket. *)
Definition bracket_scan (text : jsstring) : completion SyntaxError JSON.value :=
  let firstBrace := indexOf text "{" in
  let firstBracket := indexOf text "[" in
  let startIdx :=
    if negb (firstBrace =? -1) && negb (firstBracket =? -1)
    then Z.min firstBrace firstBracket
    else if negb (firstBrace =? -1) then firstBrace
    else firstBracket in
  if startIdx =? -1 then Normal JNull
  else
    let lastBrace := lastIndexOf text "}" in
    let lastBracket := lastIndexOf text "]" in
    let endIdx := Z.max lastBrace lastBracket in
    if endIdx =? -1 then Normal JNull
    else
      let jsonString := substring text startIdx (endIdx + 1) in
      JSON.parse jsonString.

(** The body of the [try] block. *)
Definition parseJsonResponse_body (text : jsstring) : completion SyntaxError JSON.value :=
  match fence_match text with
  | Some captured =>
      if truthy captured then JSON.parse captured else bracket_scan text
  | None => bracket_scan text
  end.

(** [parseJsonResponse]; the [null] result is [JNull]. *)
Definition parseJsonResponse (text : jsstring) : completion SyntaxError JSON.value :=
  try_catch (parseJsonResponse_body text) (fun _error => Normal JNull).

(** The statements about the extractor speak of the first opening and the
    last closing brace or bracket, of the code units between two indices,
    and of runs of three backticks. *)
Definition is_open (x : code_unit) : bool :=
  is_char x "{"%char || is_char x "["%char.

Definition is_close (x : code_unit) : bool :=
  is_char x "}"%char || is_char x "]"%char.

(** The index of the first code unit that satisfies [p]. *)
Fixpoint find_first (p : code_unit -> bool) (s : jsstring) : option nat :=
  match s with
  | [] => None
  | x :: s' => if p x then Some O else option_map S (find_first p s')
  end.

(** The index of the last code unit that satisfies [p]. *)
Fixpoint find_last (p : code_unit -> bool) (s : jsstring) : option nat :=
  match s with
  | [] => None
  | x :: s' =>
      match find_last p s' with
      | Some n => Some (S n)
      | None => if p x then Some O else None
      end
  end.

(** The code units of [s] at the indices [i] to [j], both included. *)
Definition slice_inclusive (s : jsstring) (i j : nat) : jsstring :=
  firstn (S j - i) (skipn i s).

(** [has_fence s]: three backticks in a row occur somewhere in [s]. *)
Fixpoint has_fence (s : jsstring) : bool :=
  starts_with backticks s ||
  match s with
  | [] => false
  | _ :: s' => has_fence s'
  end.

End Extractor.
Import Extractor.

(* ================================================================== *)
(** ** The data model of [src/types.ts] *)

Inductive AppStep : Type := UPLOAD | PROCESSING | RESULTS | ERROR.

Inductive ResultView : Type := DETAILS | NEARBY | ONLINE | SIMILAR.

Module ProductInfo.
Record t : Type := mk {
  name : jsstring;
  type : jsstring;
  keyFeatures : list jsstring;
  approximatePrice : jsstring
}.
End ProductInfo.

Module Shop.
Record t : Type := mk {
  name : jsstring;
  address : jsstring;
  distance : jsstring;
  availabilityScore : number;
  rating : number
}.
End Shop.

Module OnlineStore.
Record t : Type := mk {
  platform : jsstring;
  price : jsstring;
  stockStatus : jsstring;
  url : jsstring
}.
End OnlineStore.

Module SimilarProduct.
Record t : Type := mk {
  name : jsstring;
  imageUrl : jsstring
}.
End SimilarProduct.

Module UserLocation.
Record t : Type := mk {
  latitude : number;
  longitude : number
}.
End UserLocation.

(* ================================================================== *)
(** ** Result views: price parsing and the online-store sort *)

(** [Array.prototype.sort] with a comparison function.  [SortCompare]
    reads a [NaN] answer of the comparison function as [+0]; an element
    moves behind another one exactly when the comparison is positive, and
    elements that compare as equal keep their order (the sort is stable).
    The model is the stable insertion sort. *)
Section ArraySort.

Context {A : Type}.
Variable comparefn : A -> A -> number.

Definition SortCompare (x y : A) : number :=
  let v := comparefn x y in
  if isNaN v then zero else v.

Fixpoint sort_insert (x : A) (sorted : list A) : list A :=
  match sorted with
  | [] => [x]
  | y :: rest =>
      if gt_zero (SortCompare x y) then y :: sort_insert x rest
      else x :: sorted
  end.

Fixpoint Array_sort (l : list A) : list A :=
  match l with
  | [] => []
  | x :: rest => sort_insert x (Array_sort rest)
  end.

End ArraySort.

Module Views.

Inductive OnlineStoreSortKey : Type :=
| match_key      (* 'match' *)
| price_asc
| price_desc.

(** The replacement [priceStr.replace(/[^0-9.]/g, '')]. *)
Definition keeps (c : code_unit) : bool := is_digit c || is_char c "."%char.

Definition strip_non_numeric (s : jsstring) : jsstring := filter keeps s.

Definition parsePrice (priceStr : jsstring) : number :=
  if negb (truthy priceStr) then Infinity
  else
    let numericStr := strip_non_numeric priceStr in
    let price := parseFloat numericStr in
    if isNaN price then Infinity else price.

(** [sortedStores] of [OnlineStoresView]; [None] is a [null] store list. *)
Definition sortedStores (onlineStores : option (list OnlineStore.t))
    (sortKey : OnlineStoreSortKey) : list OnlineStore.t :=
  match onlineStores with
  | None => []
  | Some stores =>
      let storesCopy := stores in
      match sortKey with
      | price_asc =>
          Array_sort
            (fun a b => sub (parsePrice (OnlineStore.price a))
                            (parsePrice (OnlineStore.price b)))
            storesCopy
      | price_desc =>
          Array_sort
            (fun a b => sub (parsePrice (OnlineStore.price b))
                            (parsePrice (OnlineStore.price a)))
            storesCopy
      | match_key => stores
      end
  end.

(** A price string is unparsable when [parsePrice] falls back to
    [Infinity]: the string is empty, or what is left of it after the
    replacement has no decimal literal as a prefix. *)
Definition unparsable (priceStr : jsstring) : bool :=
  negb (truthy priceStr) || isNaN (parseFloat (strip_non_numeric priceStr)).

(** [sorts_last p l]: once an entry of [l] satisfies [p], all later entries
    do; the entries that satisfy [p] are at the end of [l]. *)
Fixpoint sorts_last {A : Type} (p : A -> bool) (l : list A) : bool :=
  match l with
  | [] => true
  | x :: rest => if p x then forallb p rest else sorts_last p rest
  end.

(** [sorts_first p l]: the entries that satisfy [p] are at the start. *)
Definition sorts_first {A : Type} (p : A -> bool) (l : list A) : bool :=
  sorts_last (fun x => negb (p x)) l.

Definition store_unparsable (s : OnlineStore.t) : bool :=
  unparsable (OnlineStore.price s).

Definition store_infinite (s : OnlineStore.t) : bool :=
  is_infinite (parsePrice (OnlineStore.price s)).

End Views.
Import Views.

(* ================================================================== *)
(** ** Programs that call the outside world *)

Module Effects.

Record File : Type := mkFile {
  file_name : jsstring;
  file_type : jsstring;
  file_bits : list N
}.

Record Blob : Type := mkBlob {
  blob_type : jsstring;
  blob_bits : list N
}.

(** The answer of [fetch]: [ok], [status], and the outcome of reading the
    body with [response.blob()]. *)
Record Response : Type := mkResponse {
  ok : bool;
  status : N;
  blob : completion Error Blob
}.

(** What [identifyProduct] resolves to, when it is not [null]. *)
Record Identified : Type := mkIdentified {
  identified_name : jsstring;
  identified_type : jsstring
}.

(** [Omit<ProductInfo, 'name' | 'type'>]. *)
Record Details : Type := mkDetails {
  details_keyFeatures : list jsstring;
  details_approximatePrice : jsstring
}.

(** An entry of the list of [findSimilarProducts]; [imageUrl] is
    optional. *)
Record RawSimilar : Type := mkRawSimilar {
  raw_name : jsstring;
  raw_imageUrl : option jsstring
}.

(** What [findSimilarProducts] resolves to when the value is truthy.  The
    function declares an array of entries, but it returns what
    [parseJsonResponse] read from the text of the response under a cast,
    and no schema binds the response: the value need not be an array, and
    an element of the array may be [null].  [SimilarArray] is an array, an
    element being an entry or, for [None], [null]; an element that is not
    [null] is taken at the declared type of an entry.  [NotAnArray] is
    any other truthy value: an object, a number, a string or [true]. *)
Inductive SimilarAnswer : Type :=
| SimilarArray (elements : list (option RawSimilar))
| NotAnArray.

(** The calls.  The gateway functions that answer with parsed JSON are
    taken at their TypeScript signature, [Promise<T | null>], and [None] is
    [null]; the answer of [findSimilarProducts], which the component
    itself takes apart, is a [SimilarAnswer], and its [None] stands for
    [null] and for the other falsy values, [false], [0] and the empty
    string: the component only tests that answer, and the list it stores,
    for truthiness, so it cannot tell them from [null].
    [getCurrentPosition] answers [None] when the error callback runs.
    [generateImages] is the request inside [generateProductImage]; its
    answer lists the bytes of the generated images. *)
Inductive Call : Type -> Type :=
| createObjectURL (file : File) : Call jsstring
| identifyProduct (file : File) : Call (option Identified)
| getCurrentPosition : Call (option UserLocation.t)
| getProductDetails (productName : jsstring) : Call (option Details)
| findNearbyShops (productName productType : jsstring)
    (location : UserLocation.t) : Call (option (list Shop.t))
| findOnlineStores (productName : jsstring) : Call (option (list OnlineStore.t))
| findSimilarProducts (productName : jsstring) : Call (option SimilarAnswer)
| generateImages (productName : jsstring) : Call (completion Error (list jsstring))
| fetch (url : jsstring) : Call (completion Error Response).

(** A program: it returns, or issues a call and goes on with the answer. *)
Inductive Prog (A : Type) : Type :=
| Ret (a : A)
| Vis (X : Type) (c : Call X) (k : X -> Prog A).

Arguments Ret {A} a.
Arguments Vis {A X} c k.

Fixpoint pbind {A B : Type} (p : Prog A) (f : A -> Prog B) : Prog B :=
  match p with
  | Ret a => f a
  | Vis c k => Vis c (fun x => pbind (k x) f)
  end.

Definition call {X : Type} (c : Call X) : Prog X := Vis c Ret.

(** The promises that [Promise.all] waits for: the calls are issued in the
    order of the list, and what the promises settle to is collected in
    that order. *)
Fixpoint Promise_all {A : Type} (ps : list (Prog A)) : Prog (list A) :=
  match ps with
  | [] => Ret []
  | p :: rest =>
      pbind p (fun a => pbind (Promise_all rest) (fun l => Ret (a :: l)))
  end.

(** What [Promise.all] settles to, from what its promises settled to: it
    rejects with the reason of the first promise that rejected, and
    fulfils with the list of the values when there is none. *)
Fixpoint all_fulfilled {E A : Type} (settled : list (completion E A))
  : completion E (list A) :=
  match settled with
  | [] => Normal []
  | Throw e :: _ => Throw e
  | Normal a :: rest =>
      match all_fulfilled rest with
      | Normal l => Normal (a :: l)
      | Throw e => Throw e
      end
  end.

(** A call that was issued, with its answer. *)
Inductive event : Type :=
| Event (X : Type) (c : Call X) (answer : X).

Arguments Event {X} c answer.

(** [runs p t a]: [p] can issue the calls of [t], get the answers of [t],
    and return [a]. *)
Fixpoint runs {A : Type} (p : Prog A) (t : list event) (a : A) : Prop :=
  match p with
  | Ret x => t = [] /\ a = x
  | Vis c k => exists x t', t = Event c x :: t' /\ runs (k x) t' a
  end.

(** Running a program against given answers: the answers that the calls
    get are chosen by [answer], from the number of calls issued so far. *)
Definition oracle : Type := forall X : Type, nat -> Call X -> X.

Fixpoint exec {A : Type} (w : oracle) (n : nat) (p : Prog A) : list event * A :=
  match p with
  | Ret x => ([], x)
  | Vis c k =>
      let x := w _ n c in
      let '(t, a) := exec w (S n) (k x) in
      (Event c x :: t, a)
  end.

End Effects.
Import Effects.

(* ================================================================== *)
(** ** The gateway function that is built from a string *)

Definition generateProductImage (productName : jsstring) : Prog (option jsstring) :=
  pbind (call (generateImages productName)) (fun response =>
    match response with
    | Normal (base64ImageBytes :: _) =>
        Ret (Some (lit "data:image/jpeg;base64," ++ base64ImageBytes))
    | Normal [] => Ret None
    | Throw _error => Ret None
    end).

(* ================================================================== *)
(** ** The orchestrator: the [App] component *)

Module App.

(** The state of the component: one field for each [useState].  [None] in
    [similarProducts] is [null], or another falsy value that
    [findSimilarProducts] answered. *)
Record State : Type := mkState {
  step : AppStep;
  processingMessage : jsstring;
  error : option jsstring;
  imageUrl : option jsstring;
  productInfo : option ProductInfo.t;
  nearbyShops : option (list Shop.t);
  onlineStores : option (list OnlineStore.t);
  similarProducts : option (list SimilarProduct.t);
  userLocation : option UserLocation.t;
  currentView : ResultView
}.

(** The state of the first render. *)
Definition initial : State :=
  mkState UPLOAD [] None None None None None None None DETAILS.

(** A handler is a program over the state that may throw. *)
Definition M (A : Type) : Type := State -> Prog (completion Error A * State).

Definition ret {A : Type} (a : A) : M A := fun s => Ret (Normal a, s).

Definition bind {A B : Type} (m : M A) (f : A -> M B) : M B :=
  fun s => pbind (m s) (fun r =>
    match r with
    | (Normal a, s') => f a s'
    | (Throw e, s') => Ret (Throw e, s')
    end).

Definition throw {A : Type} (e : Error) : M A := fun s => Ret (Throw e, s).

Definition await {A : Type} (p : Prog A) : M A :=
  fun s => pbind p (fun a => Ret (Normal a, s)).

Definition try_catch {A : Type} (body : M A) (handler : Error -> M A) : M A :=
  fun s => pbind (body s) (fun r =>
    match r with
    | (Normal a, s') => Ret (Normal a, s')
    | (Throw e, s') => handler e s'
    end).

Definition modify (f : State -> State) : M unit := fun s => Ret (Normal tt, f s).

Declare Scope handler_scope.
Delimit Scope handler_scope with handler.
Notation "x <- m ;; k" := (bind m (fun x => k))
  (at level 61, m at next level, right associativity) : handler_scope.
Notation "m ;; k" := (bind m (fun _ => k))
  (at level 61, right associativity) : handler_scope.
Local Open Scope handler_scope.

(** The state setters. *)
Definition setStep (v : AppStep) : M unit :=
  modify (fun s => mkState v (processingMessage s) (error s) (imageUrl s)
    (productInfo s) (nearbyShops s) (onlineStores s) (similarProducts s)
    (userLocation s) (currentView s)).

Definition setProcessingMessage (v : jsstring) : M unit :=
  modify (fun s => mkState (step s) v (error s) (imageUrl s)
    (productInfo s) (nearbyShops s) (onlineStores s) (similarProducts s)
    (userLocation s) (currentView s)).

Definition setError (v : option jsstring) : M unit :=
  modify (fun s => mkState (step s) (processingMessage s) v (imageUrl s)
    (productInfo s) (nearbyShops s) (onlineStores s) (similarProducts s)
    (userLocation s) (currentView s)).

Definition setImageUrl (v : option jsstring) : M unit :=
  modify (fun s => mkState (step s) (processingMessage s) (error s) v
    (productInfo s) (nearbyShops s) (onlineStores s) (similarProducts s)
    (userLocation s) (currentView s)).

Definition setProductInfo (v : option ProductInfo.t) : M unit :=
  modify (fun s => mkState (step s) (processingMessage s) (error s) (imageUrl s)
    v (nearbyShops s) (onlineStores s) (similarProducts s)
    (userLocation s) (currentView s)).

Definition setNearbyShops (v : option (list Shop.t)) : M unit :=
  modify (fun s => mkState (step s) (processingMessage s) (error s) (imageUrl s)
    (productInfo s) v (onlineStores s) (similarProducts s)
    (userLocation s) (currentView s)).

Definition setOnlineStores (v : option (list OnlineStore.t)) : M unit :=
  modify (fun s => mkState (step s) (processingMessage s) (error s) (imageUrl s)
    (productInfo s) (nearbyShops s) v (similarProducts s)
    (userLocation s) (currentView s)).

Definition setSimilarProducts (v : option (list SimilarProduct.t)) : M unit :=
  modify (fun s => mkState (step s) (processingMessage s) (error s) (imageUrl s)
    (productInfo s) (nearbyShops s) (onlineStores s) v
    (userLocation s) (currentView s)).

Definition setUserLocation (v : option UserLocation.t) : M unit :=
  modify (fun s => mkState (step s) (processingMessage s) (error s) (imageUrl s)
    (productInfo s) (nearbyShops s) (onlineStores s) (similarProducts s)
    v (currentView s)).

Definition setCurrentView (v : ResultView) : M unit :=
  modify (fun s => mkState (step s) (processingMessage s) (error s) (imageUrl s)
    (productInfo s) (nearbyShops s) (onlineStores s) (similarProducts s)
    (userLocation s) v).

Definition softReset : M unit :=
  setProcessingMessage [] ;;
  setError None ;;
  setImageUrl None ;;
  setProductInfo None ;;
  setNearbyShops None ;;
  setOnlineStores None ;;
  setSimilarProducts None ;;
  setCurrentView DETAILS.

Definition fullReset : M unit :=
  setStep UPLOAD ;;
  softReset ;;
  setUserLocation None.

(** [err.message || 'An unexpected error occurred.'] *)
Definition message_or_default (err : Error) : jsstring :=
  if truthy (message err) then message err
  else lit "An unexpected error occurred.".

(** The [TypeError]s of the engine: calling [rawSimilar.map] when the
    value has no such method, and reading [p.imageUrl] when [p] is [null].
    The messages are V8's; no statement depends on their text. *)
Definition not_a_function : Error :=
  mkError (lit "rawSimilar.map is not a function").

Definition null_property : Error :=
  mkError (lit "Cannot read properties of null (reading 'imageUrl')").

(** The callback of [rawSimilar.map], an [async] function: an entry with a
    truthy [imageUrl] keeps it, any other entry gets the answer of
    [generateProductImage]; on a [null] element the promise rejects. *)
Definition backfill (p : option RawSimilar)
  : Prog (completion Error (jsstring * option jsstring)) :=
  match p with
  | None => Ret (Throw null_property)
  | Some p =>
      match raw_imageUrl p with
      | Some u =>
          if truthy u then Ret (Normal (raw_name p, Some u))
          else pbind (generateProductImage (raw_name p)) (fun generatedImage =>
                 Ret (Normal (raw_name p, generatedImage)))
      | None =>
          pbind (generateProductImage (raw_name p)) (fun generatedImage =>
            Ret (Normal (raw_name p, generatedImage)))
      end
  end.

(** [processedSimilar.filter(p => p.imageUrl) as SimilarProduct[]] *)
Fixpoint with_image (processed : list (jsstring * option jsstring))
  : list SimilarProduct.t :=
  match processed with
  | [] => []
  | (n, Some u) :: rest =>
      if truthy u then SimilarProduct.mk n u :: with_image rest
      else with_image rest
  | (_, None) :: rest => with_image rest
  end.

(** [handleAnalysis].  The first argument is the [userLocation] that the
    callback closes over: [useCallback] rebuilds the callback whenever
    [userLocation] changes.  The callbacks of [rawSimilar.map] all run,
    and issue their requests, before [Promise.all] settles; when one of
    them rejects, the handler goes on to its [catch] while the requests
    of the others are under way, and their answers, which a run lists
    with the calls, are not used. *)
Definition handleAnalysis (userLocation : option UserLocation.t) (file : File)
  : M unit :=
  setStep PROCESSING ;;
  softReset ;;
  objectUrl <- await (call (createObjectURL file)) ;;
  setImageUrl (Some objectUrl) ;;
  try_catch
    (setProcessingMessage (lit "Identifying product...") ;;
     identified <- await (call (identifyProduct file)) ;;
     match identified with
     | None => throw (mkError (lit "Could not identify the product from the image."))
     | Some identified =>
         let productName := identified_name identified in
         let productType := identified_type identified in
         location <-
           match userLocation with
           | Some location => ret location
           | None =>
               setProcessingMessage (lit "Getting your location...") ;;
               position <- await (call getCurrentPosition) ;;
               match position with
               | None =>
                   throw (mkError (lit "Geolocation permission denied or unavailable."))
               | Some location =>
                   setUserLocation (Some location) ;;
                   ret location
               end
           end ;;
         setProcessingMessage (lit "Finding product details...") ;;
         details <- await (call (getProductDetails productName)) ;;
         shops <- await (call (findNearbyShops productName productType location)) ;;
         stores <- await (call (findOnlineStores productName)) ;;
         rawSimilar <- await (call (findSimilarProducts productName)) ;;
         match details with
         | None => throw (mkError (lit "Could not fetch product details."))
         | Some details =>
             setProductInfo
               (Some (ProductInfo.mk productName productType
                        (details_keyFeatures details)
                        (details_approximatePrice details))) ;;
             setNearbyShops shops ;;
             setOnlineStores stores ;;
             match rawSimilar with
             | Some rawSimilar =>
                 setProcessingMessage (lit "Generating product visuals...") ;;
                 match rawSimilar with
                 | SimilarArray elements =>
                     settled <- await (Promise_all (map backfill elements)) ;;
                     match all_fulfilled settled with
                     | Normal processedSimilar =>
                         setSimilarProducts (Some (with_image processedSimilar))
                     | Throw err => throw err
                     end
                 | NotAnArray => throw not_a_function
                 end
             | None => setSimilarProducts None
             end ;;
             setStep RESULTS
         end
     end)
    (fun err =>
       setError (Some (message_or_default err)) ;;
       setStep ERROR).

(** The decimal digits of a natural number, for the template literal. *)
Definition decimal (n : N) : jsstring :=
  lit (DecimalString.NilEmpty.string_of_uint (N.to_uint n)).

(** [name.replace(/\s/g, '_')] *)
Definition replace_spaces (s : jsstring) : jsstring :=
  map (fun c => if is_space c then cu "_"%char else c) s.

(** [handleSimilarProductAnalysis]; it uses the [handleAnalysis] of the
    same render. *)
Definition handleSimilarProductAnalysis (userLocation : option UserLocation.t)
    (product : SimilarProduct.t) : M unit :=
  setStep PROCESSING ;;
  setProcessingMessage
    (lit "Finding " ++ [34%N] ++ SimilarProduct.name product ++ [34%N] ++ lit "...") ;;
  try_catch
    (let proxyUrl :=
       lit "https://cors-anywhere.herokuapp.com/" ++ SimilarProduct.imageUrl product in
     fetched <- await (call (fetch proxyUrl)) ;;
     match fetched with
     | Throw err => throw err
     | Normal response =>
         if negb (ok response)
         then throw (mkError (lit "Failed to fetch image. Status: "
                                ++ decimal (status response)))
         else
           match blob response with
           | Throw err => throw err
           | Normal blob =>
               let fileName :=
                 replace_spaces (SimilarProduct.name product) ++ lit ".jpg" in
               let file := mkFile fileName (blob_type blob) (blob_bits blob) in
               handleAnalysis userLocation file
           end
     end)
    (fun err =>
       setError
         (Some (lit "Could not analyze similar product. The image may be protected or inaccessible. Details: "
                  ++ message err)) ;;
       setStep ERROR).

(** The handlers as the component binds them: the closed-over
    [userLocation] is the one of the current state. *)
Definition onFileSelect (file : File) : M unit :=
  fun s => handleAnalysis (userLocation s) file s.

Definition onFindSimilar (product : SimilarProduct.t) : M unit :=
  fun s => handleSimilarProductAnalysis (userLocation s) product s.

Definition onStartOver : M unit := fullReset.

End App.

(* ================================================================== *)
(** ** Notions used by the statements *)

(** The number [m * 2^e], when that is a binary64 value. *)
Definition dyadic (m e : Z) : number := binary_normalize prec emax m e false.

Definition starts_with_space (s : jsstring) : bool :=
  match s with
  | c :: _ => is_space c
  | [] => false
  end.

Fixpoint ends_with_space (s : jsstring) : bool :=
  match s with
  | [] => false
  | c :: s' =>
      match s' with
      | [] => is_space c
      | _ :: _ => ends_with_space s'
      end
  end.

Definition free_store : OnlineStore.t :=
  OnlineStore.mk (lit "Shop A") (lit "Free") (lit "In Stock") (lit "https://a.example").

Definition ten_store : OnlineStore.t :=
  OnlineStore.mk (lit "Shop B") (lit "10") (lit "In Stock") (lit "https://b.example").

(** A price of 401 digits: it is numeric, and too large for a number. *)
Definition huge_store : OnlineStore.t :=
  OnlineStore.mk (lit "Shop C") (cu "1"%char :: repeat (cu "0"%char) 400)
    (lit "In Stock") (lit "https://c.example").

(** An optional index as [indexOf] answers it. *)
Definition to_index (o : option nat) : Z :=
  match o with
  | Some n => Z.of_nat n
  | None => -1
  end.

(** Two fenced blocks; the second one is tagged [json] and holds [[1]]. *)
Definition two_blocks_text : jsstring :=
  lit "```txt" ++ [10%N] ++ lit "hi" ++ [10%N] ++ lit "```" ++ [10%N]
  ++ lit "```json" ++ [10%N] ++ lit "[1]" ++ [10%N] ++ lit "```".

(** A fenced block with an empty interior, followed by [[1]]. *)
Definition empty_block_text : jsstring :=
  lit "```json" ++ [10%N] ++ lit "```" ++ [10%N] ++ lit "[1]".

(** A fenced block that is not JSON, followed by [[1]]. *)
Definition prose_block_text : jsstring :=
  lit "```oops``` [1]".

(** The text that [parseJsonResponse] hands to [JSON.parse]: the captured
    interior of the first fenced block when it is not empty, else the
    span of the bracket scan; [None] when there is neither. *)
Definition candidate (text : jsstring) : option jsstring :=
  match fence_match text with
  | Some (c :: captured) => Some (c :: captured)
  | _ =>
      match find_first is_open text, find_last is_close text with
      | Some i, Some j => Some (substring text (Z.of_nat i) (Z.of_nat j + 1))
      | _, _ => None
      end
  end.


(* ================================================================== *)
(** ** Reading a trace *)

Module Trace.

Definition identify_of (e : event) : option (option Identified) :=
  match e with
  | Event c x =>
      match c in Call X return X -> option (option Identified) with
      | identifyProduct _ => fun x => Some x
      | _ => fun _ => None
      end x
  end.

Definition details_of (e : event) : option (option Details) :=
  match e with
  | Event c x =>
      match c in Call X return X -> option (option Details) with
      | getProductDetails _ => fun x => Some x
      | _ => fun _ => None
      end x
  end.

Definition shops_of (e : event) : option (option (list Shop.t)) :=
  match e with
  | Event c x =>
      match c in Call X return X -> option (option (list Shop.t)) with
      | findNearbyShops _ _ _ => fun x => Some x
      | _ => fun _ => None
      end x
  end.

Definition stores_of (e : event) : option (option (list OnlineStore.t)) :=
  match e with
  | Event c x =>
      match c in Call X return X -> option (option (list OnlineStore.t)) with
      | findOnlineStores _ => fun x => Some x
      | _ => fun _ => None
      end x
  end.

Definition similar_of (e : event) : option (option SimilarAnswer) :=
  match e with
  | Event c x =>
      match c in Call X return X -> option (option SimilarAnswer) with
      | findSimilarProducts _ => fun x => Some x
      | _ => fun _ => None
      end x
  end.

(** What [generateProductImage] returned, for a [generateImages] call. *)
Definition generated_of (e : event) : option (option jsstring) :=
  match e with
  | Event c x =>
      match c in Call X return X -> option (option jsstring) with
      | generateImages _ => fun x =>
          Some match x with
               | Normal (base64ImageBytes :: _) =>
                   Some (lit "data:image/jpeg;base64," ++ base64ImageBytes)
               | _ => None
               end
      | _ => fun _ => None
      end x
  end.

(** The answer of the first call of a kind. *)
Fixpoint first_answer {A : Type} (f : event -> option A) (t : list event)
  : option A :=
  match t with
  | [] => None
  | e :: t' =>
      match f e with
      | Some a => Some a
      | None => first_answer f t'
      end
  end.

(** The answers of all calls of a kind, in the order of the calls. *)
Fixpoint answers {A : Type} (f : event -> option A) (t : list event) : list A :=
  match t with
  | [] => []
  | e :: t' =>
      match f e with
      | Some a => a :: answers f t'
      | None => answers f t'
      end
  end.

(** The four lookups that follow the identification. *)
Definition is_downstream (e : event) : bool :=
  match e with
  | Event c _ =>
      match c with
      | getProductDetails _ | findNearbyShops _ _ _
      | findOnlineStores _ | findSimilarProducts _ => true
      | _ => false
      end
  end.

Definition is_geolocation (e : event) : bool :=
  match e with
  | Event c _ =>
      match c with
      | getCurrentPosition => true
      | _ => false
      end
  end.

End Trace.
Import Trace.

(** The similar products that the specification expects from the raw list
    and from what [generateProductImage] returned for the entries without
    an image, in order: an entry with an image keeps it, an entry without
    one takes the generated image, and is dropped when there is none. *)
Fixpoint expected_similar (raw : list RawSimilar)
    (generated : list (option jsstring)) : list SimilarProduct.t :=
  match raw with
  | [] => []
  | p :: rest =>
      match raw_imageUrl p with
      | Some (c :: u) =>
          SimilarProduct.mk (raw_name p) (c :: u) :: expected_similar rest generated
      | _ =>
          match generated with
          | Some image :: more =>
              SimilarProduct.mk (raw_name p) image :: expected_similar rest more
          | None :: more => expected_similar rest more
          | [] => expected_similar rest []
          end
      end
  end.

(** *** Sample answers of the outside world *)

Definition photo : File := mkFile (lit "photo.jpg") (lit "image/jpeg") [255%N; 216%N].

Definition here : UserLocation.t := UserLocation.mk (dyadic 19 0) (dyadic 73 0).

Definition headphones : Identified :=
  mkIdentified (lit "Sony WH-1000XM4 Headphones") (lit "Electronics").

Definition sample_raw : list RawSimilar :=
  [ mkRawSimilar (lit "Bose QC45") (Some (lit "https://img.example/bose.jpg"));
    mkRawSimilar (lit "AirPods Max") None;
    mkRawSimilar (lit "Sennheiser Momentum 4") (Some []);
    mkRawSimilar (lit "JBL Tour One") None ].

(** Identification fails. *)
Definition identify_fails : oracle :=
  fun X n c =>
    match c in Call X return X with
    | createObjectURL _ => lit "blob:1"
    | identifyProduct _ => None
    | getCurrentPosition => Some here
    | getProductDetails _ => None
    | findNearbyShops _ _ _ => None
    | findOnlineStores _ => None
    | findSimilarProducts _ => None
    | generateImages _ => Normal []
    | fetch _ => Throw (mkError (lit "Failed to fetch"))
    end.

(** Only the product details fail. *)
Definition details_fail : oracle :=
  fun X n c =>
    match c in Call X return X with
    | createObjectURL _ => lit "blob:1"
    | identifyProduct _ => Some headphones
    | getCurrentPosition => Some here
    | getProductDetails _ => None
    | findNearbyShops _ _ _ => Some []
    | findOnlineStores _ => Some [free_store; ten_store]
    | findSimilarProducts _ => Some (SimilarArray (map Some sample_raw))
    | generateImages _ => Normal [lit "AAAA"]
    | fetch _ => Throw (mkError (lit "Failed to fetch"))
    end.

(** Every lookup succeeds; image generation succeeds for the first entry
    that needs it and fails afterwards. *)
Definition all_succeed : oracle :=
  fun X n c =>
    match c in Call X return X with
    | createObjectURL _ => lit "blob:1"
    | identifyProduct _ => Some headphones
    | getCurrentPosition => Some here
    | getProductDetails _ =>
        Some (mkDetails [lit "Noise cancelling"] (lit "$300 - $350"))
    | findNearbyShops _ _ _ => Some []
    | findOnlineStores _ => Some [free_store; ten_store]
    | findSimilarProducts _ => Some (SimilarArray (map Some sample_raw))
    | generateImages _ =>
        if (n <=? 7)%nat then Normal [lit "AAAA"] else Normal []
    | fetch _ =>
        Normal (mkResponse true 200 (Normal (mkBlob (lit "image/jpeg") [1%N])))
    end.

(** A state in which results are shown and a location is cached. *)
Definition showing_results : App.State :=
  App.mkState RESULTS [] None (Some (lit "blob:0"))
    (Some (ProductInfo.mk (lit "Old") (lit "Toys") [] (lit "$1")))
    (Some []) (Some []) (Some []) (Some here) SIMILAR.

(* ================================================================== *)
(** ** Exact values of numbers *)

(** A number that is a zero or a finite value whose exponent is at least
    the least exponent of the format, [emin = -1074]. *)
Definition finite_number (x : number) : bool :=
  match x with
  | S754_zero _ => true
  | S754_finite _ _ e => SpecFloat.emin prec emax <=? e
  | _ => false
  end.

(** The value of a finite number in units of [2^emin]: an integer. *)
Definition scaled (x : number) : Z :=
  match x with
  | S754_finite s m e =>
      cond_Zopp s (Zpos m * 2 ^ (e - SpecFloat.emin prec emax))
  | _ => 0
  end.

(** [x <= y] on numbers that are not [NaN]: the infinities are the least
    and the greatest number, finite numbers compare by value. *)
Definition number_leb (x y : number) : bool :=
  match x, y with
  | S754_nan, _ | _, S754_nan => false
  | S754_infinity true, _ | _, S754_infinity false => true
  | S754_infinity false, _ | _, S754_infinity true => false
  | _, _ => scaled x <=? scaled y
  end.

(** [x = y] as values: [+0] and [-0] are equal. *)
Definition number_eqb (x y : number) : bool :=
  number_leb x y && number_leb y x.

(** A number that can be compared: not [NaN], and when it is finite its
    exponent is at least [emin].  Every binary64 value other than [NaN]
    is one. *)
Definition ordered_number (x : number) : bool :=
  match x with
  | S754_nan => false
  | S754_finite _ _ e => SpecFloat.emin prec emax <=? e
  | _ => true
  end.

(* ================================================================== *)
(** ** Result views: the nearby-shop sort *)

Module ShopsView.

Inductive ShopSortKey : Type :=
| chances
| distance
| rating
| relevance.

(** [sortedShops] of [NearbyShopsView]; [None] is a [null] shop list. *)
Definition sortedShops (nearbyShops : option (list Shop.t))
    (sortKey : ShopSortKey) : list Shop.t :=
  match nearbyShops with
  | None => []
  | Some shops =>
      let shopsCopy := shops in
      match sortKey with
      | chances =>
          Array_sort
            (fun a b => sub (Shop.availabilityScore b) (Shop.availabilityScore a))
            shopsCopy
      | rating =>
          Array_sort (fun a b => sub (Shop.rating b) (Shop.rating a)) shopsCopy
      | distance =>
          Array_sort
            (fun a b => sub (parseFloat (Shop.distance a))
                            (parseFloat (Shop.distance b)))
            shopsCopy
      | relevance => shops
      end
  end.

End ShopsView.
Import ShopsView.

(** The parsed price of a store. *)
Definition price_of (s : OnlineStore.t) : number :=
  parsePrice (OnlineStore.price s).

(** The parsed distance of a shop. *)
Definition distance_of (s : Shop.t) : number := parseFloat (Shop.distance s).

(** Three shops with the chances 0.2, 0.9 and 0.5, the ratings 4.5, 3 and
    4.5 and the distances 2.5 km, 10 km and 0.8 km. *)
Definition shop_a : Shop.t :=
  Shop.mk (lit "A") (lit "1 Main St") (lit "2.5 km")
    (of_decimal false 2 (-1)) (of_decimal false 45 (-1)).

Definition shop_b : Shop.t :=
  Shop.mk (lit "B") (lit "2 Main St") (lit "10 km")
    (of_decimal false 9 (-1)) (of_decimal false 3 0).

Definition shop_c : Shop.t :=
  Shop.mk (lit "C") (lit "3 Main St") (lit "0.8 km")
    (of_decimal false 5 (-1)) (of_decimal false 45 (-1)).

(** [two_fences s]: three backticks in a row occur in [s] and again
    after them. *)
Fixpoint two_fences (s : jsstring) : bool :=
  (starts_with backticks s && has_fence (skipn 3 s)) ||
  match s with
  | [] => false
  | _ :: s' => two_fences s'
  end.

(** The closing part of the fence pattern, [\s*] and three backticks, and
    the capture group with the closing part after it. *)
Definition closing_part : jsstring -> option unit :=
  re_spaces (re_lit backticks (fun _ => Some tt)).

Definition capture_part (s1 : jsstring) : option jsstring :=
  match re_lazy_capture closing_part s1 with
  | Some (captured, _) => Some captured
  | None => None
  end.

(* ================================================================== *)
(** ** The runs of the analysis, spelled out *)

Module Pipeline.

Import App.

(** How the location of a run is found: it is the one the handler closes
    over, with no request, or the answer of one geolocation request. *)
Definition located (userLocation : option UserLocation.t)
    (geo : list event) (location : UserLocation.t) : Prop :=
  (userLocation = Some location /\ geo = []) \/
  (userLocation = None /\ geo = [Event getCurrentPosition (Some location)]).

(** The cached location after the location was found. *)
Definition cached (userLocation : option UserLocation.t) (s : State)
    (location : UserLocation.t) : option UserLocation.t :=
  match userLocation with
  | Some _ => App.userLocation s
  | None => Some location
  end.

(** The four lookups of a run, with their answers. *)
Definition lookup_events (identified : Identified) (location : UserLocation.t)
    (details : option Details) (shops : option (list Shop.t))
    (stores : option (list OnlineStore.t))
    (similar : option SimilarAnswer) : list event :=
  [ Event (getProductDetails (identified_name identified)) details;
    Event (findNearbyShops (identified_name identified)
             (identified_type identified) location) shops;
    Event (findOnlineStores (identified_name identified)) stores;
    Event (findSimilarProducts (identified_name identified)) similar ].

Definition product_of (identified : Identified) (details : Details)
  : ProductInfo.t :=
  ProductInfo.mk (identified_name identified) (identified_type identified)
    (details_keyFeatures details) (details_approximatePrice details).

(** The state in which a run ends when taking the similar products apart
    throws: the product, the shops and the stores are recorded. *)
Definition similar_failed (objectUrl : jsstring) (product : ProductInfo.t)
    (shops : option (list Shop.t)) (stores : option (list OnlineStore.t))
    (err : Error) (location : option UserLocation.t) : State :=
  mkState ERROR (lit "Generating product visuals...")
    (Some (message_or_default err)) (Some objectUrl) (Some product)
    shops stores None location DETAILS.

(** The seven ways in which [handleAnalysis] runs: the calls with their
    answers, and the state at the end. *)
Inductive analysis_run (userLocation : option UserLocation.t) (file : File)
    (s : State) : list event -> State -> Prop :=
| run_not_identified objectUrl :
    analysis_run userLocation file s
      [ Event (createObjectURL file) objectUrl;
        Event (identifyProduct file) None ]
      (mkState ERROR (lit "Identifying product...")
         (Some (lit "Could not identify the product from the image."))
         (Some objectUrl) None None None None (App.userLocation s) DETAILS)
| run_not_located objectUrl identified :
    userLocation = None ->
    analysis_run userLocation file s
      [ Event (createObjectURL file) objectUrl;
        Event (identifyProduct file) (Some identified);
        Event getCurrentPosition None ]
      (mkState ERROR (lit "Getting your location...")
         (Some (lit "Geolocation permission denied or unavailable."))
         (Some objectUrl) None None None None (App.userLocation s) DETAILS)
| run_no_details objectUrl identified geo location shops stores similar :
    located userLocation geo location ->
    analysis_run userLocation file s
      ([ Event (createObjectURL file) objectUrl;
         Event (identifyProduct file) (Some identified) ]
       ++ geo
       ++ lookup_events identified location None shops stores similar)
      (mkState ERROR (lit "Finding product details...")
         (Some (lit "Could not fetch product details."))
         (Some objectUrl) None None None None
         (cached userLocation s location) DETAILS)
| run_results_without_similar objectUrl identified geo location
    details shops stores :
    located userLocation geo location ->
    analysis_run userLocation file s
      ([ Event (createObjectURL file) objectUrl;
         Event (identifyProduct file) (Some identified) ]
       ++ geo
       ++ lookup_events identified location (Some details) shops stores None)
      (mkState RESULTS (lit "Finding product details...") None
         (Some objectUrl) (Some (product_of identified details)) shops stores
         None (cached userLocation s location) DETAILS)
| run_results_with_similar objectUrl identified geo location
    details shops stores elements second_wave settled processedSimilar :
    located userLocation geo location ->
    runs (Promise_all (map backfill elements)) second_wave settled ->
    all_fulfilled settled = Normal processedSimilar ->
    analysis_run userLocation file s
      ([ Event (createObjectURL file) objectUrl;
         Event (identifyProduct file) (Some identified) ]
       ++ geo
       ++ lookup_events identified location (Some details) shops stores
            (Some (SimilarArray elements))
       ++ second_wave)
      (mkState RESULTS (lit "Generating product visuals...") None
         (Some objectUrl) (Some (product_of identified details)) shops stores
         (Some (with_image processedSimilar))
         (cached userLocation s location) DETAILS)
| run_similar_rejected objectUrl identified geo location
    details shops stores elements second_wave settled err :
    located userLocation geo location ->
    runs (Promise_all (map backfill elements)) second_wave settled ->
    all_fulfilled settled = Throw err ->
    analysis_run userLocation file s
      ([ Event (createObjectURL file) objectUrl;
         Event (identifyProduct file) (Some identified) ]
       ++ geo
       ++ lookup_events identified location (Some details) shops stores
            (Some (SimilarArray elements))
       ++ second_wave)
      (similar_failed objectUrl (product_of identified details) shops stores
         err (cached userLocation s location))
| run_similar_not_array objectUrl identified geo location
    details shops stores :
    located userLocation geo location ->
    analysis_run userLocation file s
      ([ Event (createObjectURL file) objectUrl;
         Event (identifyProduct file) (Some identified) ]
       ++ geo
       ++ lookup_events identified location (Some details) shops stores
            (Some NotAnArray))
      (similar_failed objectUrl (product_of identified details) shops stores
         not_a_function (cached userLocation s location)).

End Pipeline.
Import Pipeline.

(* ================================================================== *)
(** ** The calls of a run *)

Module Protocol.

(** A call without its answer. *)
Inductive issued : Type :=
| Issued (X : Type) (c : Call X).

Arguments Issued {X} c.

Definition call_of (e : event) : issued :=
  match e with
  | Event c _ => Issued c
  end.

Definition calls_of (t : list event) : list issued := map call_of t.

Definition objectUrl_of (e : event) : option jsstring :=
  match e with
  | Event c x =>
      match c in Call X return X -> option jsstring with
      | createObjectURL _ => fun x => Some x
      | _ => fun _ => None
      end x
  end.

Definition position_of (e : event) : option (option UserLocation.t) :=
  match e with
  | Event c x =>
      match c in Call X return X -> option (option UserLocation.t) with
      | getCurrentPosition => fun x => Some x
      | _ => fun _ => None
      end x
  end.

Definition fetch_of (e : event) : option (completion Error Response) :=
  match e with
  | Event c x =>
      match c in Call X return X -> option (completion Error Response) with
      | fetch _ => fun x => Some x
      | _ => fun _ => None
      end x
  end.

(** The productName of an image request. *)
Definition image_request_of (e : event) : option jsstring :=
  match e with
  | Event c _ =>
      match c with
      | generateImages productName => Some productName
      | _ => None
      end
  end.

(** The entries among the elements of an array: those that are not
    [null]. *)
Fixpoint entries (elements : list (option RawSimilar)) : list RawSimilar :=
  match elements with
  | [] => []
  | Some p :: rest => p :: entries rest
  | None :: rest => entries rest
  end.


(** The entries of the raw list for which an image is generated:
    [!p.imageUrl]. *)
Definition lacks_image (p : RawSimilar) : bool :=
  match raw_imageUrl p with
  | Some u => negb (truthy u)
  | None => true
  end.

(** The four lookups for an identified product. *)
Definition lookups (identified : Identified) (location : UserLocation.t)
  : list issued :=
  [ Issued (getProductDetails (identified_name identified));
    Issued (findNearbyShops (identified_name identified)
              (identified_type identified) location);
    Issued (findOnlineStores (identified_name identified));
    Issued (findSimilarProducts (identified_name identified)) ].

(** The image requests that follow the lookups. *)
Definition image_calls (details : option (option Details))
    (similar : option (option SimilarAnswer)) : list issued :=
  match details, similar with
  | Some (Some _), Some (Some (SimilarArray elements)) =>
      map (fun p => Issued (generateImages (raw_name p)))
        (filter lacks_image (entries elements))
  | _, _ => []
  end.

(** The calls of a run of [handleAnalysis], from the answers of the run. *)
Definition expected_calls (userLocation : option UserLocation.t) (file : File)
    (t : list event) : list issued :=
  [ Issued (createObjectURL file); Issued (identifyProduct file) ] ++
  match first_answer identify_of t with
  | Some (Some identified) =>
      match userLocation with
      | Some location =>
          lookups identified location
          ++ image_calls (first_answer details_of t) (first_answer similar_of t)
      | None =>
          Issued getCurrentPosition ::
          match first_answer position_of t with
          | Some (Some location) =>
              lookups identified location
              ++ image_calls (first_answer details_of t)
                   (first_answer similar_of t)
          | _ => []
          end
      end
  | _ => []
  end.

(** The message of the error that [handleSimilarProductAnalysis] catches
    before the analysis starts, if there is one. *)
Definition fetch_failure (fetched : completion Error Response)
  : option jsstring :=
  match fetched with
  | Throw err => Some (message err)
  | Normal response =>
      if negb (ok response)
      then Some (lit "Failed to fetch image. Status: "
                   ++ App.decimal (status response))
      else
        match blob response with
        | Throw err => Some (message err)
        | Normal _ => None
        end
  end.

End Protocol.
Import Protocol.

(* ================================================================== *)
(** ** What [renderContent] offers *)

Module Screen.

Import App.

(** What the user can do: choose a file in [FileUploadCard], press
    [Find This] on a similar product, press a navigation button, press
    [Start Over] or [Try Again]. *)
Inductive action : Type :=
| SelectFile (file : File)
| FindSimilar (product : SimilarProduct.t)
| SetView (view : ResultView)
| StartOver.

(** The handler that [renderContent] binds to an action. *)
Definition handler (a : action) : M unit :=
  match a with
  | SelectFile file => onFileSelect file
  | FindSimilar product => onFindSimilar product
  | SetView view => setCurrentView view
  | StartOver => onStartOver
  end.

(** The actions that the rendered screen offers.  [ProcessingScreen] has
    no control; [Find This] is rendered for the entries of
    [similarProducts], in the [SIMILAR] view. *)
Inductive offers (s : State) : action -> Prop :=
| offers_file file :
    step s = UPLOAD -> offers s (SelectFile file)
| offers_similar product products :
    step s = RESULTS -> currentView s = SIMILAR ->
    similarProducts s = Some products -> In product products ->
    offers s (FindSimilar product)
| offers_view view :
    step s = RESULTS -> offers s (SetView view)
| offers_start_over :
    step s = RESULTS -> offers s StartOver
| offers_try_again :
    step s = ERROR -> offers s StartOver.

(** The states in which the component can be when no handler is running. *)
Inductive reachable : State -> Prop :=
| reachable_initial : reachable initial
| reachable_action s a t out :
    reachable s -> offers s a -> runs (handler a s) t out ->
    reachable (snd out).

(** The similar products all have an image. *)
Definition all_with_image (products : option (list SimilarProduct.t)) : Prop :=
  match products with
  | Some l => Forall (fun p => truthy (SimilarProduct.imageUrl p) = true) l
  | None => True
  end.

End Screen.
Import Screen.

(* ================================================================== *)
(** ** The request and the file of [handleSimilarProductAnalysis] *)

Definition proxyUrl (product : SimilarProduct.t) : jsstring :=
  lit "https://cors-anywhere.herokuapp.com/" ++ SimilarProduct.imageUrl product.

(** [new File([blob], fileName, { type: blob.type })] *)
Definition similar_file (product : SimilarProduct.t) (b : Blob) : File :=
  mkFile (App.replace_spaces (SimilarProduct.name product) ++ lit ".jpg")
    (blob_type b) (blob_bits b).

(** The state in which [handleSimilarProductAnalysis] leaves the component
    when the image cannot be fetched. *)
Definition fetch_failed (product : SimilarProduct.t) (detail : jsstring)
    (s : App.State) : App.State :=
  App.mkState ERROR
    (lit "Finding " ++ [34%N] ++ SimilarProduct.name product ++ [34%N]
       ++ lit "...")
    (Some (lit "Could not analyze similar product. The image may be protected or inaccessible. Details: "
             ++ detail))
    (App.imageUrl s) (App.productInfo s) (App.nearbyShops s)
    (App.onlineStores s) (App.similarProducts s) (App.userLocation s)
    (App.currentView s).

(** What holds of the component whenever no handler is running. *)
Definition at_rest (s : App.State) : Prop :=
  App.step s <> PROCESSING /\
  (App.step s = UPLOAD -> s = App.initial) /\
  (App.step s = RESULTS ->
   App.productInfo s <> None /\ App.imageUrl s <> None /\
   App.error s = None /\ App.userLocation s <> None) /\
  (App.step s = ERROR -> App.error s <> None) /\
  all_with_image (App.similarProducts s).



(** An outside world that identifies the product and refuses the
    geolocation request. *)
Definition geolocation_refused : oracle :=
  fun X n c =>
    match c in Call X return X with
    | createObjectURL _ => lit "blob:1"
    | identifyProduct _ => Some headphones
    | getCurrentPosition => None
    | getProductDetails _ => None
    | findNearbyShops _ _ _ => None
    | findOnlineStores _ => None
    | findSimilarProducts _ => None
    | generateImages _ => Normal []
    | fetch _ => Throw (mkError (lit "Failed to fetch"))
    end.

(* ================================================================== *)
(** ** The image part of a request *)

(** [s.split(',')]: the pieces of [s] between its commas; a string without
    a comma is its own single piece. *)
Fixpoint split_comma (s : jsstring) : list jsstring :=
  match s with
  | [] => [[]]
  | c :: r =>
      if is_char c ","%char then [] :: split_comma r
      else
        match split_comma r with
        | piece :: pieces => (c :: piece) :: pieces
        | [] => [[c]]
        end
  end.

(** What [fileToGenerativePart] resolves the data to, from the result of
    [readAsDataURL]: [result.split(',')[1]]; [None] is [undefined]. *)
Definition base64EncodedData (result : jsstring) : option jsstring :=
  nth_error (split_comma result) 1.

Definition no_comma (s : jsstring) : bool :=
  forallb (fun c => negb (is_char c ","%char)) s.

(* ================================================================== *)
(** * Properties of the result views *)

Section SortClasses.

Context {A : Type}.
Variable comparefn : A -> A -> number.

(** [last_class] singles out the elements that the comparison function
    puts behind all others. *)
Variable last_class : A -> bool.

Hypothesis behind : forall x y,
  last_class x = true -> last_class y = false ->
  gt_zero (SortCompare comparefn x y) = true.

Hypothesis ahead : forall x y,
  last_class x = false -> last_class y = true ->
  gt_zero (SortCompare comparefn x y) = false.

Lemma forallb_sorts_last : forall l,
  forallb last_class l = true -> sorts_last last_class l = true.
Proof.
  induction l as [|x l IH]; simpl; intros H; [reflexivity|].
  apply andb_true_iff in H. destruct H as [Hx Hl].
  rewrite Hx. exact Hl.
Qed.

Lemma sort_insert_last_class : forall x l,
  last_class x = true ->
  forallb last_class l = true ->
  forallb last_class (sort_insert comparefn x l) = true.
Proof.
  intros x l Hx. induction l as [|y l IH]; simpl; intros H.
  - rewrite Hx. reflexivity.
  - apply andb_true_iff in H. destruct H as [Hy Hl].
    destruct (gt_zero (SortCompare comparefn x y)); simpl.
    + rewrite Hy, IH by assumption. reflexivity.
    + rewrite Hx, Hy, Hl. reflexivity.
Qed.

Lemma sort_insert_sorts_last : forall x l,
  sorts_last last_class l = true ->
  sorts_last last_class (sort_insert comparefn x l) = true.
Proof.
  intros x l. induction l as [|y l IH]; simpl; intros H.
  - destruct (last_class x); reflexivity.
  - destruct (last_class y) eqn:Hy.
    + (* every element from [y] on is in the last class *)
      destruct (last_class x) eqn:Hx.
      * destruct (gt_zero (SortCompare comparefn x y)); simpl.
        -- rewrite Hy. apply sort_insert_last_class; assumption.
        -- rewrite Hx. simpl. rewrite Hy. exact H.
      * rewrite (ahead x y Hx Hy). simpl. rewrite Hx, Hy. exact H.
    + destruct (gt_zero (SortCompare comparefn x y)) eqn:Hc; simpl.
      * rewrite Hy. apply IH. exact H.
      * destruct (last_class x) eqn:Hx.
        -- rewrite (behind x y Hx Hy) in Hc. discriminate.
        -- rewrite Hy. exact H.
Qed.

Lemma Array_sort_sorts_last : forall l,
  sorts_last last_class (Array_sort comparefn l) = true.
Proof.
  induction l as [|x l IH]; simpl; [reflexivity|].
  apply sort_insert_sorts_last. exact IH.
Qed.

End SortClasses.

Lemma sort_insert_perm {A : Type} (comparefn : A -> A -> number) x l :
  Permutation (sort_insert comparefn x l) (x :: l).
Proof.
  induction l as [|y l IH]; simpl.
  - apply Permutation_refl.
  - destruct (gt_zero (SortCompare comparefn x y)).
    + eapply perm_trans; [apply perm_skip, IH | apply perm_swap].
    + apply Permutation_refl.
Qed.

Lemma Array_sort_perm {A : Type} (comparefn : A -> A -> number) l :
  Permutation (Array_sort comparefn l) l.
Proof.
  induction l as [|x l IH]; simpl.
  - apply perm_nil.
  - eapply perm_trans; [apply sort_insert_perm | apply perm_skip, IH].
Qed.

(** *** The range of [parsePrice] *)

Lemma binary_round_aux_sign sx m e l :
  match binary_round_aux prec emax sx m e l with
  | S754_infinity s => s = sx
  | _ => True
  end.
Proof.
  unfold binary_round_aux.
  destruct (shr_fexp prec emax m e l) as [mrs e'].
  destruct (shr_fexp prec emax _ e' loc_Exact) as [mrs' e''].
  destruct (shr_m mrs'); try exact I.
  destruct (Z.leb e'' (Z.sub emax prec)); [exact I | reflexivity].
Qed.

Lemma of_decimal_sign neg m e :
  match of_decimal neg m e with
  | S754_infinity s => s = neg
  | _ => True
  end.
Proof.
  unfold of_decimal. destruct m as [|p]; [exact I|].
  destruct (0 <=? e).
  - unfold binary_round. destruct (shl_align _ _ _) as [mz ez].
    apply binary_round_aux_sign.
  - unfold SFdiv. destruct (SFdiv_core_binary _ _ _ _ _ _) as [[mz ez] lz].
    replace (xorb neg false) with neg by (destruct neg; reflexivity).
    apply binary_round_aux_sign.
Qed.

Lemma keeps_spec c :
  keeps c = true -> (48 <= c <= 57 \/ c = 46)%N.
Proof.
  unfold keeps, is_digit, is_char. cbn.
  rewrite orb_true_iff, andb_true_iff, !N.leb_le, N.eqb_eq. tauto.
Qed.

Lemma strip_head c s r :
  strip_non_numeric s = c :: r -> (48 <= c <= 57 \/ c = 46)%N.
Proof.
  intros H. apply keeps_spec.
  assert (In c (strip_non_numeric s)) as Hin by (rewrite H; left; reflexivity).
  unfold strip_non_numeric in Hin. apply filter_In in Hin. tauto.
Qed.

Lemma starts_with_head_neq a p c r :
  a <> c -> starts_with (a :: p) (c :: r) = false.
Proof.
  intros H. simpl. apply N.eqb_neq in H. rewrite H. reflexivity.
Qed.

Lemma parseFloat_strip_sign s :
  parseFloat (strip_non_numeric s) <> S754_infinity true.
Proof.
  unfold parseFloat.
  destruct (strip_non_numeric s) as [|c r] eqn:Hs.
  - cbn. discriminate.
  - pose proof (strip_head _ _ _ Hs) as Hc.
    assert (is_space c = false) as Hsp.
    { unfold is_space.
      repeat match goal with
             | |- context [(?a <=? ?b)%N] => destruct (N.leb_spec a b)
             | |- context [(?a =? ?b)%N] => destruct (N.eqb_spec a b)
             end; simpl; try reflexivity; lia. }
    assert (is_char c "-"%char = false) as Hm
      by (unfold is_char; cbn; apply N.eqb_neq; lia).
    assert (is_char c "+"%char = false) as Hp
      by (unfold is_char; cbn; apply N.eqb_neq; lia).
    assert (starts_with (lit "Infinity") (c :: r) = false) as Hi.
    { change (lit "Infinity") with (73%N :: lit "nfinity").
      apply starts_with_head_neq. lia. }
    cbn [drop_while]. rewrite Hsp, Hm, Hp, Hi.
    destruct (span is_digit (c :: r)) as [int_digits s2].
    destruct (match s2 with
              | [] => ([], s2)
              | c0 :: r0 => if is_char c0 "."%char then span is_digit r0 else ([], s2)
              end) as [frac_digits s3].
    destruct (int_digits ++ frac_digits) as [|d ds]; [discriminate|].
    match goal with
    | |- of_decimal ?n ?m ?e <> _ =>
        pose proof (of_decimal_sign n m e) as Hsign;
        destruct (of_decimal n m e); try discriminate
    end.
    subst. discriminate.
Qed.

(** [parsePrice] answers [Infinity], or a number that is neither infinite
    nor [NaN]. *)
Lemma parsePrice_range s :
  parsePrice s = Infinity \/
  (is_infinite (parsePrice s) = false /\ isNaN (parsePrice s) = false).
Proof.
  unfold parsePrice.
  destruct (truthy s); simpl; [|left; reflexivity].
  pose proof (parseFloat_strip_sign s) as Hs.
  destruct (parseFloat (strip_non_numeric s)) as [b|b| |b m e]; simpl.
  - right. split; reflexivity.
  - left. destruct b; [contradiction Hs; reflexivity | reflexivity].
  - left. reflexivity.
  - right. split; reflexivity.
Qed.

Lemma unparsable_infinite s :
  unparsable s = true -> parsePrice s = Infinity.
Proof.
  unfold unparsable, parsePrice. intros H.
  destruct (truthy s); simpl in *; [|reflexivity].
  rewrite H. reflexivity.
Qed.

Lemma sub_infinity_finite x :
  is_infinite x = false -> isNaN x = false ->
  sub Infinity x = Infinity /\ sub x Infinity = S754_infinity true.
Proof.
  destruct x; simpl; intros; try discriminate; split; reflexivity.
Qed.

(** The three cases of the ascending comparison. *)
Lemma price_asc_cases a b :
  let cmp := fun a b => sub (parsePrice (OnlineStore.price a))
                            (parsePrice (OnlineStore.price b)) in
  (store_infinite a = true -> store_infinite b = false ->
   gt_zero (SortCompare cmp a b) = true) /\
  (store_infinite a = false -> store_infinite b = true ->
   gt_zero (SortCompare cmp a b) = false).
Proof.
  unfold store_infinite, SortCompare. cbv zeta.
  destruct (parsePrice_range (OnlineStore.price a)) as [Ha|[Ha Ha']];
  destruct (parsePrice_range (OnlineStore.price b)) as [Hb|[Hb Hb']];
  repeat split; intros H1 H2;
  try (rewrite Ha in *); try (rewrite Hb in *);
  try discriminate; try congruence.
  - destruct (sub_infinity_finite _ Hb Hb') as [-> _]. reflexivity.
  - destruct (sub_infinity_finite _ Ha Ha') as [_ ->]. reflexivity.
Qed.

(** The three cases of the descending comparison. *)
Lemma price_desc_cases a b :
  let cmp := fun a b => sub (parsePrice (OnlineStore.price b))
                            (parsePrice (OnlineStore.price a)) in
  (store_infinite a = false -> store_infinite b = true ->
   gt_zero (SortCompare cmp a b) = true) /\
  (store_infinite a = true -> store_infinite b = false ->
   gt_zero (SortCompare cmp a b) = false).
Proof.
  unfold store_infinite, SortCompare. cbv zeta.
  destruct (parsePrice_range (OnlineStore.price a)) as [Ha|[Ha Ha']];
  destruct (parsePrice_range (OnlineStore.price b)) as [Hb|[Hb Hb']];
  repeat split; intros H1 H2;
  try (rewrite Ha in *); try (rewrite Hb in *);
  try discriminate; try congruence.
  - destruct (sub_infinity_finite _ Hb Hb') as [_ ->]. reflexivity.
  - destruct (sub_infinity_finite _ Ha Ha') as [-> _]. reflexivity.
Qed.

(** *** The claims on the result views *)

(** C8.  [parsePrice] removes every code unit that is neither a digit nor
    a dot, converts what is left with [parseFloat], and answers [Infinity]
    when there is nothing to convert: for the empty string and whenever
    [parseFloat] answers [NaN].  It never answers [NaN].  On the three
    prices of the specification: ["$1,234.50"] is 1234.5, that is
    2469 * 2^-1, and the empty string and ["Free"] are [Infinity]. *)
Theorem parsePrice_strips_and_parses :
  parsePrice (lit "$1,234.50") = dyadic 2469 (-1) /\
  parsePrice (lit EmptyString) = Infinity /\
  parsePrice (lit "Free") = Infinity /\
  strip_non_numeric (lit "$1,234.50") = lit "1234.50" /\
  (forall s, Forall (fun c => is_digit c = true \/ is_char c "."%char = true)
                    (strip_non_numeric s)) /\
  (forall s c, strip_non_numeric (c :: s) =
               if is_digit c || is_char c "."%char
               then c :: strip_non_numeric s else strip_non_numeric s) /\
  (forall c s, parsePrice (c :: s) =
               if isNaN (parseFloat (strip_non_numeric (c :: s))) then Infinity
               else parseFloat (strip_non_numeric (c :: s))) /\
  (forall s, isNaN (parsePrice s) = false).
Proof.
  split; [vm_compute; reflexivity|].
  split; [reflexivity|].
  split; [vm_compute; reflexivity|].
  split; [vm_compute; reflexivity|].
  split; [|split; [|split]].
  - intros s. apply Forall_forall. intros c Hin.
    unfold strip_non_numeric in Hin. apply filter_In in Hin.
    destruct Hin as [_ Hk]. unfold keeps in Hk.
    apply orb_true_iff in Hk. exact Hk.
  - intros s c. reflexivity.
  - intros c s. reflexivity.
  - intros s. destruct (parsePrice_range s) as [->|[_ H]]; [reflexivity | exact H].
Qed.

(** C1, as stated, fails for [price_desc]: a store whose price is ["Free"]
    is sorted in front of a store whose price is ["10"].  Under
    [price_asc] it fails on a price that is numeric and overflows: that
    price is parsed as [Infinity] too, and the order of the two stores is
    kept. *)
Lemma price_desc_unparsable_first :
  store_unparsable free_store = true /\
  store_unparsable ten_store = false /\
  sortedStores (Some [ten_store; free_store]) price_desc = [free_store; ten_store] /\
  sorts_last store_unparsable
    (sortedStores (Some [ten_store; free_store]) price_desc) = false /\
  store_unparsable huge_store = false /\
  sortedStores (Some [free_store; huge_store]) price_asc = [free_store; huge_store] /\
  sorts_last store_unparsable
    (sortedStores (Some [free_store; huge_store]) price_asc) = false.
Proof.
  repeat split; vm_compute; reflexivity.
Qed.

Lemma forallb_ext_in {A : Type} (p q : A -> bool) l :
  (forall x, In x l -> p x = q x) -> forallb p l = forallb q l.
Proof.
  induction l as [|x l IH]; intros H; simpl; [reflexivity|].
  rewrite (H x (or_introl eq_refl)), IH; [reflexivity|].
  intros y Hy. apply H. right. exact Hy.
Qed.

Lemma sorts_last_ext {A : Type} (p q : A -> bool) l :
  (forall x, In x l -> p x = q x) -> sorts_last p l = sorts_last q l.
Proof.
  induction l as [|x l IH]; intros H; simpl; [reflexivity|].
  assert (forall y, In y l -> p y = q y) as Hl
    by (intros y Hy; apply H; right; exact Hy).
  rewrite (H x (or_introl eq_refl)), (forallb_ext_in p q l Hl), (IH Hl).
  reflexivity.
Qed.

(** C1, amended.  Under [price_asc] the stores whose parsed price is
    infinite are at the end of the sorted list; under [price_desc] they are
    at its start.  Every store with an unparsable price is one of them, and
    they are the only ones when no numeric price of the list overflows.
    Both sorts permute the list. *)
Theorem sortedStores_infinite_prices : forall stores : list OnlineStore.t,
  sorts_last store_infinite (sortedStores (Some stores) price_asc) = true /\
  sorts_first store_infinite (sortedStores (Some stores) price_desc) = true /\
  (forall s, store_unparsable s = true -> store_infinite s = true) /\
  (forallb (fun s => store_unparsable s || negb (store_infinite s)) stores = true ->
   sorts_last store_unparsable (sortedStores (Some stores) price_asc) = true /\
   sorts_first store_unparsable (sortedStores (Some stores) price_desc) = true) /\
  Permutation (sortedStores (Some stores) price_asc) stores /\
  Permutation (sortedStores (Some stores) price_desc) stores.
Proof.
  intros stores.
  assert (forall s, store_unparsable s = true -> store_infinite s = true) as Hinf.
  { intros s H. unfold store_unparsable in H. unfold store_infinite.
    rewrite (unparsable_infinite _ H). reflexivity. }
  assert (sorts_last store_infinite (sortedStores (Some stores) price_asc) = true)
    as Hasc.
  { apply Array_sort_sorts_last.
    - intros x y. apply (proj1 (price_asc_cases x y)).
    - intros x y. apply (proj2 (price_asc_cases x y)). }
  assert (sorts_first store_infinite (sortedStores (Some stores) price_desc) = true)
    as Hdesc.
  { unfold sorts_first. apply Array_sort_sorts_last.
    - intros x y Hx Hy. apply negb_true_iff in Hx. apply negb_false_iff in Hy.
      apply (proj1 (price_desc_cases x y)); assumption.
    - intros x y Hx Hy. apply negb_false_iff in Hx. apply negb_true_iff in Hy.
      apply (proj2 (price_desc_cases x y)); assumption. }
  split; [exact Hasc|]. split; [exact Hdesc|]. split; [exact Hinf|].
  split; [|split; apply Array_sort_perm].
  intros Hall. rewrite forallb_forall in Hall.
  assert (forall x, In x stores -> store_unparsable x = store_infinite x) as Heq.
  { intros x Hx. specialize (Hall x Hx). specialize (Hinf x).
    destruct (store_unparsable x), (store_infinite x);
      try reflexivity; try discriminate Hall.
    symmetry. apply Hinf. reflexivity. }
  split.
  - rewrite <- Hasc. apply sorts_last_ext. intros x Hx. apply Heq.
    eapply Permutation_in; [apply Array_sort_perm | exact Hx].
  - rewrite <- Hdesc. unfold sorts_first. apply sorts_last_ext.
    intros x Hx. f_equal. apply Heq.
    eapply Permutation_in; [apply Array_sort_perm | exact Hx].
Qed.

Lemma sortedStores_infinite_prices_witness :
  sorts_last store_unparsable
    (sortedStores (Some [free_store; ten_store]) price_asc) = true /\
  sorts_first store_unparsable
    (sortedStores (Some [free_store; ten_store]) price_desc) = true.
Proof.
  apply (proj1 (proj2 (proj2 (proj2
           (sortedStores_infinite_prices [free_store; ten_store]))))).
  reflexivity.
Defined.
(* ================================================================== *)
(** * Properties of the response extractor *)

(** *** The fence pattern on a text with one fenced block *)

Lemma space_not_backtick c : is_space c = true -> (96 =? c)%N = false.
Proof.
  intros H. apply N.eqb_neq. intros <-. discriminate H.
Qed.

Lemma starts_with_cons a p c s :
  starts_with (a :: p) (c :: s) = (a =? c)%N && starts_with p s.
Proof. reflexivity. Qed.

Lemma starts_with_backticks_space c s :
  is_space c = true -> starts_with backticks (c :: s) = false.
Proof.
  intros H. change backticks with (96%N :: lit "``").
  rewrite starts_with_cons, (space_not_backtick _ H). reflexivity.
Qed.

Lemma starts_with_backticks_app s t :
  (3 <= List.length s)%nat ->
  starts_with backticks (s ++ t) = starts_with backticks s.
Proof.
  intros H. destruct s as [|a [|b [|c s]]]; simpl in H; try lia.
  reflexivity.
Qed.

Lemma drop_spaces_app ws s :
  forallb is_space ws = true ->
  drop_while is_space (ws ++ s) = drop_while is_space s.
Proof.
  induction ws as [|c ws IH]; simpl; intros H; [reflexivity|].
  apply andb_true_iff in H. destruct H as [Hc Hws].
  rewrite Hc. apply IH. exact Hws.
Qed.

(** Greedy white space followed by the closing backticks: giving white
    space back never helps, because a backtick is not white space. *)
Lemma re_spaces_backticks {R : Type} (k : jsstring -> option R) s :
  re_spaces (re_lit backticks k) s =
  if starts_with backticks (drop_while is_space s)
  then k (skipn 3 (drop_while is_space s))
  else None.
Proof.
  induction s as [|c s IH].
  - reflexivity.
  - cbn [re_spaces drop_while]. destruct (is_space c) eqn:Hc.
    + rewrite IH.
      assert (re_lit backticks k (c :: s) = None) as Hnone.
      { unfold re_lit. rewrite starts_with_backticks_space by exact Hc.
        reflexivity. }
      rewrite Hnone.
      destruct (starts_with backticks (drop_while is_space s));
        [destruct (k _)|]; reflexivity.
    + unfold re_lit. reflexivity.
Qed.

Lemma re_spaces_skip {R : Type} (k : jsstring -> option R) ws s r :
  forallb is_space ws = true ->
  starts_with_space s = false ->
  k s = Some r ->
  re_spaces k (ws ++ s) = Some r.
Proof.
  intros Hws Hs Hk. induction ws as [|c ws IH]; simpl in *.
  - destruct s as [|c s]; [exact Hk|].
    simpl in Hs. cbn [re_spaces]. rewrite Hs. exact Hk.
  - apply andb_true_iff in Hws. destruct Hws as [Hc Hws].
    rewrite Hc, (IH Hws). reflexivity.
Qed.

Lemma has_fence_cons c s :
  has_fence (c :: s) = starts_with backticks (c :: s) || has_fence s.
Proof. reflexivity. Qed.

(** White space between a text and two backticks does not make a fence. *)
Lemma has_fence_insert_spaces b ws :
  forallb is_space ws = true ->
  has_fence (b ++ lit "``") = false ->
  has_fence (b ++ ws ++ lit "``") = false.
Proof.
  intros Hws. induction b as [|c b IH]; intros H.
  - clear H. induction ws as [|w ws IHw]; [reflexivity|].
    simpl in Hws. apply andb_true_iff in Hws. destruct Hws as [Hw Hws].
    change (has_fence ((w :: ws) ++ lit "``") = false).
    simpl app. rewrite has_fence_cons.
    rewrite starts_with_backticks_space by exact Hw.
    apply IHw. exact Hws.
  - simpl app in *. rewrite has_fence_cons in *.
    apply orb_false_iff in H. destruct H as [Hhead Htail].
    rewrite (IH Htail), orb_false_r.
    destruct ws as [|w ws]; [exact Hhead|].
    simpl in Hws. apply andb_true_iff in Hws. destruct Hws as [Hw _].
    pose proof (space_not_backtick _ Hw) as Hw'.
    change backticks with [96%N; 96%N; 96%N] in *.
    destruct b as [|d [|e b]]; simpl app in *.
    + rewrite !starts_with_cons, Hw', !andb_false_r. reflexivity.
    + rewrite !starts_with_cons, Hw', !andb_false_r. reflexivity.
    + exact Hhead.
Qed.

Section FencedBlock.

Variables ws2 post : jsstring.
Hypothesis ws2_spaces : forallb is_space ws2 = true.

Let closing : jsstring -> option unit :=
  re_spaces (re_lit backticks (fun _ => Some tt)).

Lemma closing_spec s :
  closing s =
  if starts_with backticks (drop_while is_space s) then Some tt else None.
Proof.
  unfold closing. apply re_spaces_backticks.
Qed.

Lemma closing_at_end : closing (ws2 ++ backticks ++ post) = Some tt.
Proof.
  rewrite closing_spec, drop_spaces_app by exact ws2_spaces.
  reflexivity.
Qed.

(** Inside the interior the closing part of the pattern fails. *)
Lemma closing_inside b :
  b <> [] ->
  ends_with_space b = false ->
  has_fence (b ++ ws2 ++ lit "``") = false ->
  closing (b ++ ws2 ++ backticks ++ post) = None.
Proof.
  rewrite closing_spec.
  induction b as [|c b IH]; intros Hne Hend Hfence; [contradiction|].
  rewrite <- app_comm_cons in *. rewrite has_fence_cons in Hfence.
  apply orb_false_iff in Hfence. destruct Hfence as [Hhead Htail].
  cbn [drop_while]. destruct (is_space c) eqn:Hc.
  - destruct b as [|d b].
    + simpl in Hend. congruence.
    + apply IH; [discriminate | exact Hend | exact Htail].
  - assert (c :: b ++ ws2 ++ backticks ++ post
            = (c :: b ++ ws2 ++ lit "``") ++ 96%N :: post) as ->.
    { rewrite <- app_comm_cons, <- !app_assoc. reflexivity. }
    rewrite starts_with_backticks_app.
    + rewrite Hhead. reflexivity.
    + simpl. rewrite !length_app. simpl. lia.
Qed.

Lemma lazy_capture_interior b :
  ends_with_space b = false ->
  has_fence (b ++ ws2 ++ lit "``") = false ->
  re_lazy_capture closing (b ++ ws2 ++ backticks ++ post) = Some (b, tt).
Proof.
  induction b as [|c b IH]; intros Hend Hfence.
  - change ([] ++ ws2 ++ backticks ++ post) with (ws2 ++ backticks ++ post).
    pose proof closing_at_end as Hclose.
    destruct (ws2 ++ backticks ++ post); cbn [re_lazy_capture];
      rewrite Hclose; reflexivity.
  - assert (closing ((c :: b) ++ ws2 ++ backticks ++ post) = None) as Hnone
      by (apply closing_inside; [discriminate | exact Hend | exact Hfence]).
    rewrite <- app_comm_cons in *. cbn [re_lazy_capture]. rewrite Hnone.
    rewrite has_fence_cons in Hfence.
    apply orb_false_iff in Hfence. destruct Hfence as [_ Htail].
    rewrite IH; [reflexivity | | exact Htail].
    destruct b; [reflexivity | exact Hend].
Qed.

End FencedBlock.

(** *** Two facts about [JSON.parse] *)

Lemma parse_empty : JSON.parse [] = Throw mkSyntaxError.
Proof. reflexivity. Qed.

Lemma scalar_of_word_j w : scalar_of_word (106%N :: w) = None.
Proof.
  unfold scalar_of_word.
  destruct (list_eq_dec N.eq_dec (106%N :: w) (lit "true")) as [E|_];
    [discriminate E|].
  destruct (list_eq_dec N.eq_dec (106%N :: w) (lit "false")) as [E|_];
    [discriminate E|].
  destruct (list_eq_dec N.eq_dec (106%N :: w) (lit "null")) as [E|_];
    [discriminate E|].
  reflexivity.
Qed.

(** A word that starts with [j] is never completed to a token. *)
Lemma lex_run_word_j s : forall (acc : jsstring) toks (w : jsstring),
  rev acc = 106%N :: w ->
  match lex_run (LWord acc, toks) s with
  | Some (LWord acc', _) => exists w' : jsstring, rev acc' = 106%N :: w'
  | Some _ => False
  | None => True
  end.
Proof.
  induction s as [|x s IH]; intros acc toks w Hacc.
  - simpl. exists w. exact Hacc.
  - cbn [lex_run lex_step]. destruct (is_word_char x).
    + apply (IH (x :: acc) toks (w ++ [x])). simpl. rewrite Hacc. reflexivity.
    + rewrite Hacc, scalar_of_word_j. exact I.
Qed.

Lemma parse_j s : JSON.parse (106%N :: s) = Throw mkSyntaxError.
Proof.
  unfold JSON.parse, tokenize.
  change (lex_run (LDefault, []) (106%N :: s))
    with (lex_run (LWord [106%N], []) s).
  pose proof (lex_run_word_j s [106%N] [] [] eq_refl) as H.
  destruct (lex_run (LWord [106%N], []) s) as [[st toks]|]; [|reflexivity].
  destruct st; try contradiction.
  destruct H as [w' Hw']. rewrite Hw', scalar_of_word_j. reflexivity.
Qed.

(** *** The match on a text with one fenced block *)

Lemma fence_at_other s :
  starts_with backticks s = false -> fence_at s = None.
Proof.
  intros H. unfold fence_at, re_lit. rewrite H. reflexivity.
Qed.

Lemma fence_match_skip pre rest :
  has_fence (pre ++ lit "``") = false ->
  fence_match (pre ++ backticks ++ rest) = fence_match (backticks ++ rest).
Proof.
  induction pre as [|c pre IH]; intros H; [reflexivity|].
  rewrite <- app_comm_cons in *. rewrite has_fence_cons in H.
  apply orb_false_iff in H. destruct H as [Hhead Htail].
  unfold fence_match in *. cbn [re_search].
  rewrite fence_at_other; [apply IH; exact Htail|].
  assert (c :: pre ++ backticks ++ rest
          = (c :: pre ++ lit "``") ++ 96%N :: rest) as ->.
  { rewrite <- app_comm_cons, <- !app_assoc. reflexivity. }
  rewrite starts_with_backticks_app; [exact Hhead|].
  simpl. rewrite length_app. simpl. lia.
Qed.

Lemma fence_at_block tag ws1 body ws2 post :
  tag = [] \/ tag = lit "json" ->
  forallb is_space ws1 = true ->
  forallb is_space ws2 = true ->
  body <> [] ->
  starts_with_space body = false ->
  ends_with_space body = false ->
  starts_with (lit "j") body = false ->
  has_fence (body ++ lit "``") = false ->
  fence_at (backticks ++ tag ++ ws1 ++ body ++ ws2 ++ backticks ++ post)
  = Some body.
Proof.
  intros Htag Hws1 Hws2 Hne Hstart Hend Hj Hfence.
  pose proof (has_fence_insert_spaces body ws2 Hws2 Hfence) as Hfence'.
  set (capture := fun s1 : jsstring =>
         match re_lazy_capture
                 (re_spaces (re_lit backticks (fun _ => Some tt))) s1 with
         | Some (captured, _) => Some captured
         | None => None
         end).
  assert (capture (body ++ ws2 ++ backticks ++ post) = Some body) as Hcap.
  { unfold capture.
    rewrite (lazy_capture_interior ws2 post Hws2 body Hend Hfence').
    reflexivity. }
  assert (re_spaces capture (ws1 ++ body ++ ws2 ++ backticks ++ post)
          = Some body) as Hsp.
  { apply re_spaces_skip; [exact Hws1 | | exact Hcap].
    destruct body; [contradiction|exact Hstart]. }
  unfold fence_at. fold capture.
  change (re_lit backticks ?k (backticks ++ ?s)) with (k s).
  unfold re_opt. destruct Htag as [-> | ->].
  - (* no tag: the optional [json] does not match *)
    rewrite app_nil_l.
    assert (re_lit (lit "json") (re_spaces capture)
              (ws1 ++ body ++ ws2 ++ backticks ++ post) = None) as ->.
    { unfold re_lit.
      assert (starts_with (lit "json")
                (ws1 ++ body ++ ws2 ++ backticks ++ post) = false) as ->;
        [|reflexivity].
      change (lit "json") with (106%N :: lit "son").
      destruct ws1 as [|w ws1].
      - destruct body as [|c body]; [contradiction|].
        rewrite app_nil_l, <- app_comm_cons, starts_with_cons.
        change (lit "j") with [106%N] in Hj.
        rewrite starts_with_cons in Hj. cbn [starts_with] in Hj.
        rewrite andb_true_r in Hj. rewrite Hj. reflexivity.
      - simpl in Hws1. apply andb_true_iff in Hws1. destruct Hws1 as [Hw _].
        rewrite <- app_comm_cons, starts_with_cons.
        replace (106 =? w)%N with false; [reflexivity|].
        symmetry. apply N.eqb_neq. intros <-. discriminate Hw. }
    exact Hsp.
  - change (re_lit (lit "json") ?k (lit "json" ++ ?s)) with (k s).
    rewrite Hsp. reflexivity.
Qed.

(** *** The bracket scan *)

Lemma indexOf_from_spec c s : forall k,
  indexOf_from c s k =
  match find_first (fun x => is_char x c) s with
  | Some n => k + Z.of_nat n
  | None => -1
  end.
Proof.
  induction s as [|x s IH]; intros k; simpl; [reflexivity|].
  destruct (is_char x c); [lia|].
  rewrite IH. destruct (find_first _ s); simpl; lia.
Qed.

Lemma lastIndexOf_from_spec c s : forall k,
  0 <= k ->
  lastIndexOf_from c s k =
  match find_last (fun x => is_char x c) s with
  | Some n => k + Z.of_nat n
  | None => -1
  end.
Proof.
  induction s as [|x s IH]; intros k Hk; simpl; [reflexivity|].
  rewrite IH by lia. destruct (find_last _ s) as [n|].
  - replace (k + 1 + Z.of_nat n =? -1) with false
      by (symmetry; apply Z.eqb_neq; lia).
    lia.
  - simpl. destruct (is_char x c); lia.
Qed.

Lemma find_first_or p q s :
  find_first (fun x => p x || q x) s =
  match find_first p s, find_first q s with
  | Some a, Some b => Some (Nat.min a b)
  | Some a, None => Some a
  | None, Some b => Some b
  | None, None => None
  end.
Proof.
  induction s as [|x s IH]; simpl; [reflexivity|].
  destruct (p x), (q x); simpl; try reflexivity.
  - destruct (find_first q s); reflexivity.
  - destruct (find_first p s); reflexivity.
  - rewrite IH. destruct (find_first p s), (find_first q s); reflexivity.
Qed.

Lemma find_last_or p q s :
  find_last (fun x => p x || q x) s =
  match find_last p s, find_last q s with
  | Some a, Some b => Some (Nat.max a b)
  | Some a, None => Some a
  | None, Some b => Some b
  | None, None => None
  end.
Proof.
  induction s as [|x s IH]; simpl; [reflexivity|].
  rewrite IH.
  destruct (find_last p s), (find_last q s), (p x), (q x); reflexivity.
Qed.

Lemma find_first_bound p s i : find_first p s = Some i -> (i < List.length s)%nat.
Proof.
  revert i. induction s as [|x s IH]; simpl; intros i H; [discriminate|].
  destruct (p x).
  - injection H as <-. lia.
  - destruct (find_first p s) as [n|]; [|discriminate].
    injection H as <-. specialize (IH n eq_refl). lia.
Qed.

Lemma find_last_bound p s j : find_last p s = Some j -> (j < List.length s)%nat.
Proof.
  revert j. induction s as [|x s IH]; simpl; intros j H; [discriminate|].
  destruct (find_last p s) as [n|].
  - injection H as <-. specialize (IH n eq_refl). lia.
  - destruct (p x); [|discriminate]. injection H as <-. lia.
Qed.

Lemma indexOf_spec s c :
  indexOf s c = to_index (find_first (fun x => is_char x c) s).
Proof.
  unfold indexOf. rewrite indexOf_from_spec.
  destruct (find_first _ s); reflexivity.
Qed.

Lemma lastIndexOf_spec s c :
  lastIndexOf s c = to_index (find_last (fun x => is_char x c) s).
Proof.
  unfold lastIndexOf. rewrite lastIndexOf_from_spec by lia.
  destruct (find_last _ s); reflexivity.
Qed.

Lemma start_index_spec (a b : option nat) :
  (if negb (to_index a =? -1) && negb (to_index b =? -1)
   then Z.min (to_index a) (to_index b)
   else if negb (to_index a =? -1) then to_index a else to_index b)
  = to_index match a, b with
             | Some x, Some y => Some (Nat.min x y)
             | Some x, None => Some x
             | None, Some y => Some y
             | None, None => None
             end.
Proof.
  destruct a as [x|], b as [y|]; unfold to_index.
  - destruct (Z.eqb_spec (Z.of_nat x) (-1)); [lia|].
    destruct (Z.eqb_spec (Z.of_nat y) (-1)); [lia|].
    cbn [negb andb]. lia.
  - destruct (Z.eqb_spec (Z.of_nat x) (-1)); [lia|]. reflexivity.
  - destruct (Z.eqb_spec (Z.of_nat y) (-1)); [lia|]. reflexivity.
  - reflexivity.
Qed.

Lemma end_index_spec (a b : option nat) :
  Z.max (to_index a) (to_index b)
  = to_index match a, b with
             | Some x, Some y => Some (Nat.max x y)
             | Some x, None => Some x
             | None, Some y => Some y
             | None, None => None
             end.
Proof.
  destruct a as [x|], b as [y|]; unfold to_index; lia.
Qed.

(** The scan in terms of the first opening and the last closing brace or
    bracket. *)
Lemma bracket_scan_spec text :
  bracket_scan text =
  match find_first is_open text, find_last is_close text with
  | Some i, Some j =>
      JSON.parse (substring text (Z.of_nat i) (Z.of_nat j + 1))
  | _, _ => Normal JNull
  end.
Proof.
  unfold bracket_scan. cbv zeta.
  rewrite !indexOf_spec, !lastIndexOf_spec, start_index_spec, end_index_spec.
  rewrite <- find_first_or, <- find_last_or.
  fold is_open. fold is_close.
  destruct (find_first is_open text) as [i|]; [|reflexivity].
  cbn [to_index].
  destruct (Z.eqb_spec (Z.of_nat i) (-1)); [lia|].
  destruct (find_last is_close text) as [j|]; [|reflexivity].
  cbn [to_index].
  destruct (Z.eqb_spec (Z.of_nat j) (-1)); [lia|].
  reflexivity.
Qed.

Lemma substring_slice text i j :
  (i <= S j)%nat -> (j < List.length text)%nat ->
  substring text (Z.of_nat i) (Z.of_nat j + 1) = slice_inclusive text i j.
Proof.
  intros Hij Hj. unfold substring, slice_inclusive, clamp.
  f_equal; [|f_equal]; lia.
Qed.

Lemma slice_inclusive_crossed text i j :
  (S j < i)%nat -> slice_inclusive text i j = [].
Proof.
  intros H. unfold slice_inclusive.
  replace (S j - i)%nat with 0%nat by lia. reflexivity.
Qed.

(** *** The claims on the extractor *)

(** C2, as stated, fails: the text below contains a fenced block tagged
    [json] whose interior [[1]] is valid JSON, and the extractor answers
    [null], because an earlier fenced block is the one that is matched. *)
Lemma second_fenced_block_is_ignored :
  two_blocks_text =
    (lit "```txt" ++ [10%N] ++ lit "hi" ++ [10%N] ++ lit "```" ++ [10%N])
    ++ backticks ++ lit "json" ++ [10%N] ++ lit "[1]" ++ [10%N]
    ++ backticks ++ [] /\
  JSON.parse (lit "[1]") = Normal (JArray [JNumber (dyadic 1 0)]) /\
  fence_match two_blocks_text = Some (lit "txt" ++ [10%N] ++ lit "hi") /\
  parseJsonResponse two_blocks_text = Normal JNull.
Proof.
  repeat split; vm_compute; reflexivity.
Qed.

(** C2, amended.  Let the text be [pre], three backticks, an optional
    [json], white space, [body], white space, three backticks and [post],
    where no run of three backticks starts in [pre], [body] has no white
    space at either end, no run of three backticks starts in [body], and
    [body] is valid JSON.  Then the extractor answers the value of [body],
    whatever [pre] and [post] are. *)
Theorem parseJsonResponse_first_fenced_block :
  forall pre tag ws1 body ws2 post v,
    has_fence (pre ++ lit "``") = false ->
    tag = [] \/ tag = lit "json" ->
    forallb is_space ws1 = true ->
    forallb is_space ws2 = true ->
    starts_with_space body = false ->
    ends_with_space body = false ->
    has_fence (body ++ lit "``") = false ->
    JSON.parse body = Normal v ->
    parseJsonResponse
      (pre ++ backticks ++ tag ++ ws1 ++ body ++ ws2 ++ backticks ++ post)
    = Normal v.
Proof.
  intros pre tag ws1 body ws2 post v Hpre Htag Hws1 Hws2 Hstart Hend Hbody Hv.
  assert (body <> []) as Hne.
  { intros ->. rewrite parse_empty in Hv. discriminate Hv. }
  assert (starts_with (lit "j") body = false) as Hj.
  { destruct body as [|c body]; [contradiction|].
    change (lit "j") with [106%N]. rewrite starts_with_cons.
    destruct (N.eqb_spec 106 c) as [<-|]; [|reflexivity].
    rewrite parse_j in Hv. discriminate Hv. }
  unfold parseJsonResponse, parseJsonResponse_body.
  rewrite fence_match_skip by exact Hpre.
  unfold fence_match.
  assert (re_search fence_at
            (backticks ++ tag ++ ws1 ++ body ++ ws2 ++ backticks ++ post)
          = Some body) as ->.
  { pose proof (fence_at_block tag ws1 body ws2 post
                  Htag Hws1 Hws2 Hne Hstart Hend Hj Hbody) as H.
    destruct (backticks ++ tag ++ ws1 ++ body ++ ws2 ++ backticks ++ post);
      cbn [re_search]; rewrite H; reflexivity. }
  destruct body as [|c body]; [contradiction|].
  cbn [truthy]. rewrite Hv. reflexivity.
Qed.

Lemma parseJsonResponse_first_fenced_block_witness :
  parseJsonResponse
    (lit "Here is the result {draft]: " ++ backticks ++ lit "json" ++ [10%N]
       ++ lit "[1]" ++ [10%N; 32%N] ++ backticks ++ lit " Thanks [x}")
  = Normal (JArray [JNumber (dyadic 1 0)]).
Proof.
  apply (parseJsonResponse_first_fenced_block
           (lit "Here is the result {draft]: ") (lit "json") [10%N]
           (lit "[1]") [10%N; 32%N] (lit " Thanks [x}")).
  - reflexivity.
  - right. reflexivity.
  - reflexivity.
  - reflexivity.
  - reflexivity.
  - reflexivity.
  - reflexivity.
  - reflexivity.
Defined.

(** C3.  When the fence pattern does not match, the text has a first [{]
    or [[] at index [i] and a last [}] or []] at index [j], and the code
    units from [i] to [j] are valid JSON, the extractor answers their
    value. *)
Theorem parseJsonResponse_bracket_span :
  forall text i j v,
    fence_match text = None ->
    find_first is_open text = Some i ->
    find_last is_close text = Some j ->
    JSON.parse (slice_inclusive text i j) = Normal v ->
    parseJsonResponse text = Normal v.
Proof.
  intros text i j v Hfence Hi Hj Hv.
  unfold parseJsonResponse, parseJsonResponse_body.
  rewrite Hfence, bracket_scan_spec, Hi, Hj.
  destruct (Nat.le_gt_cases i (S j)) as [Hle|Hgt].
  - rewrite substring_slice; [rewrite Hv; reflexivity | exact Hle |].
    apply (find_last_bound _ _ _ Hj).
  - rewrite slice_inclusive_crossed, parse_empty in Hv by exact Hgt.
    discriminate Hv.
Qed.

Lemma parseJsonResponse_bracket_span_witness :
  parseJsonResponse (lit "Result: [[1], 2] done")
  = Normal (JArray [JArray [JNumber (dyadic 1 0)]; JNumber (dyadic 2 0)]).
Proof.
  apply (parseJsonResponse_bracket_span (lit "Result: [[1], 2] done") 8 15).
  - reflexivity.
  - reflexivity.
  - reflexivity.
  - reflexivity.
Defined.

Lemma parseJsonResponse_candidate text :
  parseJsonResponse text =
  match candidate text with
  | Some c =>
      match JSON.parse c with
      | Normal v => Normal v
      | Throw _ => Normal JNull
      end
  | None => Normal JNull
  end.
Proof.
  unfold parseJsonResponse, parseJsonResponse_body, candidate.
  destruct (fence_match text) as [[|c captured]|]; cbn [truthy].
  - rewrite bracket_scan_spec.
    destruct (find_first is_open text), (find_last is_close text);
      reflexivity.
  - destruct (JSON.parse _); reflexivity.
  - rewrite bracket_scan_spec.
    destruct (find_first is_open text), (find_last is_close text);
      reflexivity.
Qed.

(** C7.  [parseJsonResponse] is total and never completes with a thrown
    exception.  It answers [null] when there is no text to parse, which is
    when the fence pattern gives no interior and an opening or a closing
    brace or bracket is missing, and when [JSON.parse] throws on the text
    to parse; otherwise it answers the parsed value. *)
Theorem parseJsonResponse_never_throws :
  (forall text, exists v, parseJsonResponse text = Normal v) /\
  (forall text, candidate text = None -> parseJsonResponse text = Normal JNull) /\
  (forall text,
     (fence_match text = None \/ fence_match text = Some []) ->
     (find_first is_open text = None \/ find_last is_close text = None) ->
     parseJsonResponse text = Normal JNull) /\
  (forall text c e,
     candidate text = Some c -> JSON.parse c = Throw e ->
     parseJsonResponse text = Normal JNull) /\
  (forall text c v,
     candidate text = Some c -> JSON.parse c = Normal v ->
     parseJsonResponse text = Normal v).
Proof.
  split; [|split; [|split; [|split]]].
  - intros text. rewrite parseJsonResponse_candidate.
    destruct (candidate text) as [c|]; [|exists JNull; reflexivity].
    destruct (JSON.parse c) as [v|e]; [exists v | exists JNull]; reflexivity.
  - intros text H. rewrite parseJsonResponse_candidate, H. reflexivity.
  - intros text Hfence Hscan. rewrite parseJsonResponse_candidate.
    unfold candidate.
    destruct Hfence as [-> | ->];
      destruct Hscan as [-> | ->]; try reflexivity;
      destruct (find_first is_open text); reflexivity.
  - intros text c e Hc He. rewrite parseJsonResponse_candidate, Hc, He.
    reflexivity.
  - intros text c v Hc Hv. rewrite parseJsonResponse_candidate, Hc, Hv.
    reflexivity.
Qed.

Lemma parseJsonResponse_never_throws_witness :
  parseJsonResponse (lit "I could not find any product.") = Normal JNull /\
  parseJsonResponse (lit "Result: {1, 2] done") = Normal JNull.
Proof.
  split.
  - apply (proj1 (proj2 (proj2 parseJsonResponse_never_throws))
             (lit "I could not find any product.")).
    + left. reflexivity.
    + left. reflexivity.
  - apply (proj1 (proj2 (proj2 (proj2 parseJsonResponse_never_throws)))
             (lit "Result: {1, 2] done") (lit "{1, 2]") mkSyntaxError).
    + reflexivity.
    + reflexivity.
Defined.

(** C10, as stated, fails: the interior of the fenced block below is
    empty, which is not valid JSON, and the extractor goes on to the
    bracket scan and answers the array after the block. *)
Lemma empty_fenced_interior_falls_back :
  empty_block_text =
    backticks ++ lit "json" ++ [10%N] ++ [] ++ backticks ++ [10%N] ++ lit "[1]" /\
  fence_match empty_block_text = Some [] /\
  JSON.parse [] = Throw mkSyntaxError /\
  parseJsonResponse empty_block_text = Normal (JArray [JNumber (dyadic 1 0)]).
Proof.
  repeat split; vm_compute; reflexivity.
Qed.

(** C10, amended.  When the fence pattern matches with an interior that is
    not empty, the body of the extractor is the parse of that interior and
    the bracket scan plays no part; when the parse throws, the extractor
    answers [null]. *)
Theorem fenced_interior_unparsable_is_null :
  forall text captured,
    fence_match text = Some captured ->
    truthy captured = true ->
    parseJsonResponse_body text = JSON.parse captured /\
    (forall e, JSON.parse captured = Throw e ->
               parseJsonResponse text = Normal JNull).
Proof.
  intros text captured Hm Hne.
  assert (parseJsonResponse_body text = JSON.parse captured) as Hbody.
  { unfold parseJsonResponse_body. rewrite Hm.
    rewrite Hne. reflexivity. }
  split; [exact Hbody|].
  intros e He. unfold parseJsonResponse. rewrite Hbody, He. reflexivity.
Qed.

Lemma fenced_interior_unparsable_is_null_witness :
  bracket_scan prose_block_text = Normal (JArray [JNumber (dyadic 1 0)]) /\
  parseJsonResponse_body prose_block_text = Throw mkSyntaxError /\
  parseJsonResponse prose_block_text = Normal JNull.
Proof.
  split; [reflexivity|].
  destruct (fenced_interior_unparsable_is_null prose_block_text (lit "oops"))
    as [Hbody Hnull].
  - reflexivity.
  - reflexivity.
  - split.
    + rewrite Hbody. reflexivity.
    + apply (Hnull mkSyntaxError). reflexivity.
Defined.

(* ================================================================== *)
(** * Further properties of the views and of the extractor *)

(* ================================================================== *)
(** * The sign of a difference of finite numbers *)

Lemma gt_zero_spec x :
  gt_zero x =
  match x with
  | S754_finite false _ _ | S754_infinity false => true
  | _ => false
  end.
Proof.
  destruct x as [s|s| |s m e]; try destruct s; reflexivity.
Qed.

Lemma digits2_pos_size p : digits2_pos p = Pos.size p.
Proof.
  induction p; simpl; rewrite ?IHp; reflexivity.
Qed.

Lemma digits2_pos_le p : 2 ^ (Zpos (digits2_pos p) - 1) <= Zpos p.
Proof.
  rewrite digits2_pos_size.
  pose proof (Pos.size_le p) as H.
  apply Pos2Z.pos_le_pos in H.
  rewrite Pos2Z.inj_pow in H.
  change (Zpos p~0) with (2 * Zpos p) in H.
  replace (2 ^ Zpos (Pos.size p)) with (2 * 2 ^ (Zpos (Pos.size p) - 1)) in H.
  - apply (Z.mul_le_mono_pos_l _ _ 2); [reflexivity | exact H].
  - rewrite <- Z.pow_succ_r by lia. f_equal. lia.
Qed.

Lemma iter_pos_nat {A : Type} (f : A -> A) p : forall x,
  iter_pos f p x = Nat.iter (Pos.to_nat p) f x.
Proof.
  induction p as [p IH|p IH|]; intros x; cbn [iter_pos].
  - rewrite !IH, Pos2Nat.inj_xI.
    replace (S (2 * Pos.to_nat p)) with (Pos.to_nat p + (Pos.to_nat p + 1))%nat
      by lia.
    rewrite !Nat.iter_add. reflexivity.
  - rewrite !IH, Pos2Nat.inj_xO.
    replace (2 * Pos.to_nat p)%nat with (Pos.to_nat p + Pos.to_nat p)%nat by lia.
    rewrite Nat.iter_add. reflexivity.
  - reflexivity.
Qed.

Lemma shr_1_half r :
  0 <= shr_m r -> shr_m (shr_1 r) = shr_m r / 2.
Proof.
  destruct r as [m rb sb]. cbn [shr_m]. intros H.
  destruct m as [|[p|p|]|p]; cbn [shr_1 shr_m]; try lia.
  - reflexivity.
  - change (Zpos p~1) with (2 * Zpos p + 1).
    apply Z.div_unique with 1; lia.
  - change (Zpos p~0) with (2 * Zpos p).
    apply Z.div_unique with 0; lia.
  - reflexivity.
Qed.

Lemma shr_iter_div n : forall r,
  0 <= shr_m r ->
  shr_m (Nat.iter n shr_1 r) = shr_m r / 2 ^ Z.of_nat n.
Proof.
  induction n as [|n IH]; intros r H.
  - simpl. rewrite Z.div_1_r. reflexivity.
  - rewrite Nat.iter_succ_r, IH.
    + rewrite shr_1_half by exact H.
      rewrite Nat2Z.inj_succ, Z.pow_succ_r by lia.
      rewrite Z.div_div by lia. reflexivity.
    + rewrite shr_1_half by exact H. apply Z.div_pos; lia.
Qed.

Lemma shr_record_of_loc_m m l : shr_m (shr_record_of_loc m l) = m.
Proof.
  destruct l as [|[ | | ]]; reflexivity.
Qed.

(** One shift to the exponent of the format keeps a positive mantissa
    positive, and the exponent it yields is at least [emin]. *)
Lemma shr_fexp_exponent m e l :
  SpecFloat.emin prec emax <= snd (shr_fexp prec emax m e l).
Proof.
  unfold shr_fexp, shr.
  pose proof (Z.le_max_r (Zdigits2 m + e - prec) (SpecFloat.emin prec emax)) as H.
  fold (fexp prec emax (Zdigits2 m + e)) in H.
  destruct (fexp prec emax (Zdigits2 m + e) - e) eqn:E; simpl; lia.
Qed.

Lemma shr_fexp_positive p e l :
  SpecFloat.emin prec emax <= e ->
  0 < shr_m (fst (shr_fexp prec emax (Zpos p) e l)).
Proof.
  intros He. unfold shr_fexp, shr.
  destruct (fexp prec emax (Zdigits2 (Zpos p) + e) - e) as [|n|n] eqn:E;
    simpl fst; rewrite ?shr_record_of_loc_m; try lia.
  rewrite iter_pos_nat, shr_iter_div by (rewrite shr_record_of_loc_m; lia).
  rewrite shr_record_of_loc_m, positive_nat_Z.
  cbn [Zdigits2] in E.
  assert (Zpos n <= Zpos (digits2_pos p) - 1) as Hn
    by (unfold fexp, SpecFloat.emin, prec, emax in *; lia).
  pose proof (digits2_pos_le p) as Hp.
  assert (2 ^ Zpos n <= 2 ^ (Zpos (digits2_pos p) - 1)) as Hpow
    by (apply Z.pow_le_mono_r; lia).
  apply Z.div_str_pos. split; [apply Z.pow_pos_nonneg; lia | lia].
Qed.

Lemma round_nearest_even_ge m l : m <= round_nearest_even m l.
Proof.
  destruct l as [|[ | | ]]; simpl; try lia.
  destruct (Z.even m); lia.
Qed.

(** Rounding a positive mantissa at an exponent that is not below [emin]
    gives a finite or an infinite number of the given sign. *)
Lemma binary_round_aux_positive sx p e l :
  SpecFloat.emin prec emax <= e ->
  match binary_round_aux prec emax sx (Zpos p) e l with
  | S754_finite s _ e' => s = sx /\ SpecFloat.emin prec emax <= e'
  | S754_infinity s => s = sx
  | _ => False
  end.
Proof.
  intros He. unfold binary_round_aux.
  pose proof (shr_fexp_positive p e l He) as H1.
  pose proof (shr_fexp_exponent (Zpos p) e l) as E1.
  destruct (shr_fexp prec emax (Zpos p) e l) as [mrs' e'].
  simpl fst in H1. simpl snd in E1.
  pose proof (round_nearest_even_ge (shr_m mrs') (loc_of_shr_record mrs')) as Hr.
  destruct (round_nearest_even (shr_m mrs') (loc_of_shr_record mrs'))
    as [|q|q] eqn:Eq; try lia.
  pose proof (shr_fexp_positive q e' loc_Exact E1) as H2.
  pose proof (shr_fexp_exponent (Zpos q) e' loc_Exact) as E2.
  destruct (shr_fexp prec emax (Zpos q) e' loc_Exact) as [mrs'' e''].
  simpl fst in H2. simpl snd in E2.
  destruct (shr_m mrs'') as [|m|m]; try lia.
  destruct (e'' <=? emax - prec); [split; [reflexivity | exact E2] | reflexivity].
Qed.

(** Whatever is rounded, a finite result has an exponent of at least
    [emin], and the sign is the given one. *)
Lemma binary_round_aux_shape sx m e l :
  match binary_round_aux prec emax sx m e l with
  | S754_finite s _ e' => s = sx /\ SpecFloat.emin prec emax <= e'
  | S754_infinity s => s = sx
  | S754_zero s => s = sx
  | S754_nan => True
  end.
Proof.
  unfold binary_round_aux.
  destruct (shr_fexp prec emax m e l) as [mrs' e'].
  pose proof (shr_fexp_exponent
                (round_nearest_even (shr_m mrs') (loc_of_shr_record mrs'))
                e' loc_Exact) as E2.
  destruct (shr_fexp prec emax _ e' loc_Exact) as [mrs'' e''].
  simpl snd in E2.
  destruct (shr_m mrs''); try exact I; try reflexivity.
  destruct (e'' <=? emax - prec); [split; [reflexivity | exact E2] | reflexivity].
Qed.

Lemma iter_xO_pow m d : Zpos (Pos.iter xO m d) = Zpos m * 2 ^ Zpos d.
Proof.
  rewrite (Pos.iter_swap_gen _ _ Zpos xO (Z.mul 2)) by reflexivity.
  change (2 ^ Zpos d) with (Z.pow_pos 2 d). unfold Z.pow_pos.
  rewrite (Z.mul_comm (Zpos m)).
  rewrite (Pos.iter_swap_gen _ _ (fun z => z * Zpos m) (Z.mul 2) (Z.mul 2))
    by (intros a; lia).
  f_equal; lia.
Qed.

Lemma shl_align_spec m e e' :
  e' <= e ->
  Zpos (fst (shl_align m e e')) = Zpos m * 2 ^ (e - e') /\
  snd (shl_align m e e') = e'.
Proof.
  intros H. unfold shl_align.
  destruct (e' - e) as [|d|d] eqn:E; simpl fst; simpl snd.
  - replace (e - e') with 0 by lia. split; lia.
  - lia.
  - replace (e - e') with (Zpos d) by lia.
    split; [apply iter_xO_pow | reflexivity].
Qed.

Lemma binary_round_positive sx m e :
  SpecFloat.emin prec emax <= e ->
  match binary_round prec emax sx m e with
  | S754_finite s _ e' => s = sx /\ SpecFloat.emin prec emax <= e'
  | S754_infinity s => s = sx
  | _ => False
  end.
Proof.
  intros He. unfold binary_round.
  pose proof (Z.le_max_r (Zpos (digits2_pos m) + e - prec)
                         (SpecFloat.emin prec emax)) as Hf.
  fold (fexp prec emax (Zpos (digits2_pos m) + e)) in Hf.
  assert (SpecFloat.emin prec emax
          <= snd (shl_align m e (fexp prec emax (Zpos (digits2_pos m) + e))))
    as Hs.
  { unfold shl_align.
    destruct (fexp prec emax (Zpos (digits2_pos m) + e) - e) eqn:E;
      cbn [snd]; lia. }
  destruct (shl_align m e (fexp prec emax (Zpos (digits2_pos m) + e)))
    as [mz ez].
  apply binary_round_aux_positive. exact Hs.
Qed.

Lemma binary_round_shape sx m e :
  match binary_round prec emax sx m e with
  | S754_finite s _ e' => s = sx /\ SpecFloat.emin prec emax <= e'
  | S754_infinity s => s = sx
  | S754_zero s => s = sx
  | S754_nan => True
  end.
Proof.
  unfold binary_round.
  destruct (shl_align m e (fexp prec emax (Zpos (digits2_pos m) + e)))
    as [mz ez].
  apply binary_round_aux_shape.
Qed.

Lemma scaled_finite s m e :
  scaled (S754_finite s m e)
  = cond_Zopp s (Zpos m * 2 ^ (e - SpecFloat.emin prec emax)).
Proof. reflexivity. Qed.

Lemma cond_Zopp_sign s z : 0 < z -> (cond_Zopp s z <? 0) = s.
Proof.
  intros H. destruct s; simpl; [apply Z.ltb_lt | apply Z.ltb_ge]; lia.
Qed.

Lemma cond_Zopp_sign' s z : 0 < z -> (0 <? cond_Zopp s z) = negb s.
Proof.
  intros H. destruct s; simpl; [apply Z.ltb_ge | apply Z.ltb_lt]; lia.
Qed.

Lemma cond_Zopp_mul s a b : cond_Zopp s (a * b) = cond_Zopp s a * b.
Proof. destruct s; simpl; lia. Qed.

(** The comparison behind every sort of the views: on finite numbers
    [x - y > 0] holds exactly when the value of [x] exceeds the value of
    [y]. *)
Lemma gt_zero_sub x y :
  finite_number x = true -> finite_number y = true ->
  gt_zero (sub x y) = (scaled y <? scaled x).
Proof.
  rewrite gt_zero_spec.
  destruct x as [sx|sx| |sx mx ex], y as [sy|sy| |sy my ey];
    try discriminate; intros Hx Hy; cbn [finite_number] in Hx, Hy;
    try apply Z.leb_le in Hx; try apply Z.leb_le in Hy.
  - destruct sx, sy; reflexivity.
  - cbn [sub SFsub]. rewrite scaled_finite. cbn [scaled].
    rewrite cond_Zopp_sign.
    + destruct sy; reflexivity.
    + apply Z.mul_pos_pos; [lia | apply Z.pow_pos_nonneg; lia].
  - cbn [sub SFsub]. rewrite scaled_finite. cbn [scaled].
    rewrite cond_Zopp_sign'.
    + destruct sx; reflexivity.
    + apply Z.mul_pos_pos; [lia | apply Z.pow_pos_nonneg; lia].
  - cbn [sub SFsub].
    set (ez := Z.min ex ey).
    destruct (shl_align_spec mx ex ez ltac:(lia)) as [Hmx _].
    destruct (shl_align_spec my ey ez ltac:(lia)) as [Hmy _].
    set (D := cond_Zopp sx (Zpos (fst (shl_align mx ex ez)))
              - cond_Zopp sy (Zpos (fst (shl_align my ey ez)))).
    assert (scaled (S754_finite sx mx ex) - scaled (S754_finite sy my ey)
            = D * 2 ^ (ez - SpecFloat.emin prec emax)) as Hd.
    { rewrite !scaled_finite. unfold D. rewrite Hmx, Hmy.
      replace (ex - SpecFloat.emin prec emax)
        with ((ex - ez) + (ez - SpecFloat.emin prec emax)) by lia.
      replace (ey - SpecFloat.emin prec emax)
        with ((ey - ez) + (ez - SpecFloat.emin prec emax)) by lia.
      rewrite !Z.pow_add_r by lia.
      rewrite !Z.mul_assoc, !cond_Zopp_mul. lia. }
    assert (0 < 2 ^ (ez - SpecFloat.emin prec emax)) as Hpow
      by (apply Z.pow_pos_nonneg; lia).
    unfold binary_normalize.
    destruct D as [|p|p] eqn:ED.
    + symmetry. apply Z.ltb_ge. lia.
    + pose proof (binary_round_positive false p ez ltac:(lia)) as Hr.
      destruct (binary_round prec emax false p ez) as [s|s| |s m e];
        try contradiction.
      * subst s. symmetry. apply Z.ltb_lt. nia.
      * destruct Hr as [-> _]. symmetry. apply Z.ltb_lt. nia.
    + pose proof (binary_round_shape true p ez) as Hr.
      assert ((scaled (S754_finite sy my ey) <? scaled (S754_finite sx mx ex))
              = false) as -> by (apply Z.ltb_ge; nia).
      destruct (binary_round prec emax true p ez) as [s|s| |s m e];
        try reflexivity.
      * subst s. reflexivity.
      * destruct Hr as [-> _]. reflexivity.
Qed.

(* ================================================================== *)
(** * The order of the sorted views *)

Lemma gt_zero_SortCompare {A : Type} (comparefn : A -> A -> number) x y :
  gt_zero (SortCompare comparefn x y) = gt_zero (comparefn x y).
Proof.
  unfold SortCompare. destruct (comparefn x y) as [s|s| |s m e]; reflexivity.
Qed.

Lemma finite_ordered x : finite_number x = true -> ordered_number x = true.
Proof. destruct x; simpl; congruence. Qed.

Lemma number_leb_finite x y :
  finite_number x = true -> finite_number y = true ->
  number_leb x y = (scaled x <=? scaled y).
Proof.
  destruct x, y; simpl; intros; try discriminate; reflexivity.
Qed.

(** [x - y > 0] exactly when [x <= y] fails, on all numbers that can be
    compared. *)
Lemma gt_zero_sub_ordered x y :
  ordered_number x = true -> ordered_number y = true ->
  gt_zero (sub x y) = negb (number_leb x y).
Proof.
  intros Hx Hy.
  destruct (finite_number x) eqn:Fx, (finite_number y) eqn:Fy.
  - rewrite gt_zero_sub, number_leb_finite by assumption.
    rewrite Z.leb_antisym, negb_involutive. reflexivity.
  - destruct x as [sx|sx| |sx mx ex], y as [sy|[|]| |sy my ey];
      try discriminate; try reflexivity;
      cbn [finite_number ordered_number] in *; congruence.
  - destruct x as [sx|[|]| |sx mx ex], y as [sy|sy| |sy my ey];
      try discriminate; try reflexivity;
      cbn [finite_number ordered_number] in *; congruence.
  - destruct x as [sx|[|]| |sx mx ex], y as [sy|[|]| |sy my ey];
      try discriminate; try reflexivity;
      cbn [finite_number ordered_number] in *; congruence.
Qed.

Lemma number_leb_total x y :
  ordered_number x = true -> ordered_number y = true ->
  number_leb x y = false -> number_leb y x = true.
Proof.
  destruct x as [sx|[|]| |sx mx ex], y as [sy|[|]| |sy my ey];
    simpl; intros Hx Hy H; try discriminate; try reflexivity;
    apply Z.leb_gt in H; apply Z.leb_le; lia.
Qed.

Lemma number_leb_trans x y z :
  number_leb x y = true -> number_leb y z = true -> number_leb x z = true.
Proof.
  destruct x as [sx|[|]| |sx mx ex], y as [sy|[|]| |sy my ey],
           z as [sz|[|]| |sz mz ez];
    simpl; intros H1 H2; try discriminate; try reflexivity;
    apply Z.leb_le in H1; apply Z.leb_le in H2; apply Z.leb_le; lia.
Qed.

Lemma number_leb_refl x : ordered_number x = true -> number_leb x x = true.
Proof.
  destruct x as [sx|[|]| |sx mx ex]; simpl; intros H;
    try discriminate; try reflexivity; apply Z.leb_le; lia.
Qed.

Section SortOrder.

Context {A : Type}.
Variable comparefn : A -> A -> number.

(** [good] is the domain on which [comparefn] is the total preorder
    [le]. *)
Variable good : A -> bool.
Variable le : A -> A -> bool.

Hypothesis compare_le : forall x y,
  good x = true -> good y = true ->
  gt_zero (SortCompare comparefn x y) = negb (le x y).

Hypothesis le_total : forall x y,
  good x = true -> good y = true -> le x y = false -> le y x = true.

Hypothesis le_trans : forall x y z,
  le x y = true -> le y z = true -> le x z = true.

Lemma sort_insert_In x l z :
  In z (sort_insert comparefn x l) -> z = x \/ In z l.
Proof.
  intros H. apply (Permutation_in z (sort_insert_perm comparefn x l)) in H.
  destruct H as [<-|H]; [left; reflexivity | right; exact H].
Qed.

Lemma sort_insert_sorted x l :
  good x = true -> Forall (fun a => good a = true) l ->
  StronglySorted (fun a b => le a b = true) l ->
  StronglySorted (fun a b => le a b = true) (sort_insert comparefn x l).
Proof.
  intros Hx. induction l as [|y l IH]; intros Hgood Hs; simpl.
  - constructor; constructor.
  - inversion Hgood as [|? ? Hy Hl]; subst.
    inversion Hs as [|? ? Hs' Hall]; subst.
    rewrite compare_le by assumption.
    destruct (le x y) eqn:Hxy; simpl.
    + constructor; [exact Hs|].
      constructor; [exact Hxy|].
      rewrite Forall_forall in *. intros z Hz.
      apply (le_trans x y z Hxy). apply Hall. exact Hz.
    + constructor; [apply IH; assumption|].
      rewrite Forall_forall in *. intros z Hz.
      apply sort_insert_In in Hz. destruct Hz as [->|Hz].
      * apply le_total; assumption.
      * apply Hall. exact Hz.
Qed.

Lemma Array_sort_good l :
  Forall (fun a => good a = true) l ->
  Forall (fun a => good a = true) (Array_sort comparefn l).
Proof.
  intros H. rewrite Forall_forall in *. intros z Hz.
  apply H. apply (Permutation_in z (Array_sort_perm comparefn l)). exact Hz.
Qed.

Lemma Array_sort_sorted l :
  Forall (fun a => good a = true) l ->
  StronglySorted (fun a b => le a b = true) (Array_sort comparefn l).
Proof.
  induction l as [|x l IH]; intros H; simpl.
  - constructor.
  - inversion H as [|? ? Hx Hl]; subst.
    apply sort_insert_sorted; [exact Hx | | apply IH; exact Hl].
    apply Array_sort_good. exact Hl.
Qed.

(** The sort is stable: the elements of a class of mutually equal
    elements keep their order. *)
Variable class : A -> bool.

Hypothesis class_tie : forall x y,
  good x = true -> good y = true ->
  class x = true -> class y = true -> le x y = true.

Lemma sort_insert_class x l :
  good x = true -> Forall (fun a => good a = true) l ->
  filter class (sort_insert comparefn x l) =
  if class x then x :: filter class l else filter class l.
Proof.
  intros Hx. induction l as [|y l IH]; intros Hgood; simpl.
  - destruct (class x); reflexivity.
  - inversion Hgood as [|? ? Hy Hl]; subst.
    rewrite compare_le by assumption.
    destruct (le x y) eqn:Hxy; simpl.
    + destruct (class x); reflexivity.
    + rewrite (IH Hl).
      destruct (class y) eqn:Cy; [|reflexivity].
      destruct (class x) eqn:Cx; [|reflexivity].
      rewrite (class_tie x y Hx Hy Cx Cy) in Hxy. discriminate Hxy.
Qed.

Lemma Array_sort_stable l :
  Forall (fun a => good a = true) l ->
  filter class (Array_sort comparefn l) = filter class l.
Proof.
  induction l as [|x l IH]; intros H; simpl; [reflexivity|].
  inversion H as [|? ? Hx Hl]; subst.
  rewrite sort_insert_class by (try assumption; apply Array_sort_good; exact Hl).
  rewrite (IH Hl). reflexivity.
Qed.

End SortOrder.

Section SortByKey.

Context {A : Type}.
Variable key : A -> number.

Lemma key_class_tie v x y :
  number_eqb (key x) v = true -> number_eqb (key y) v = true ->
  number_leb (key x) (key y) = true.
Proof.
  unfold number_eqb. rewrite !andb_true_iff. intros [Hx _] [_ Hy].
  exact (number_leb_trans _ _ _ Hx Hy).
Qed.

Lemma sort_by_key_ascending l :
  Forall (fun a => ordered_number (key a) = true) l ->
  StronglySorted (fun a b => number_leb (key a) (key b) = true)
    (Array_sort (fun a b => sub (key a) (key b)) l) /\
  forall v,
    filter (fun a => number_eqb (key a) v)
      (Array_sort (fun a b => sub (key a) (key b)) l)
    = filter (fun a => number_eqb (key a) v) l.
Proof.
  intros H.
  assert (forall x y,
            ordered_number (key x) = true -> ordered_number (key y) = true ->
            gt_zero (SortCompare (fun a b => sub (key a) (key b)) x y)
            = negb (number_leb (key x) (key y))) as Hcmp.
  { intros x y Hx Hy. rewrite gt_zero_SortCompare.
    apply gt_zero_sub_ordered; assumption. }
  split.
  - apply (Array_sort_sorted _ (fun a => ordered_number (key a))
             (fun a b => number_leb (key a) (key b))); try assumption.
    + intros x y Hx Hy. apply number_leb_total; assumption.
    + intros x y z. apply number_leb_trans.
  - intros v.
    apply (Array_sort_stable _ (fun a => ordered_number (key a))
             (fun a b => number_leb (key a) (key b))); try assumption.
    intros x y _ _. apply key_class_tie.
Qed.

Lemma sort_by_key_descending l :
  Forall (fun a => ordered_number (key a) = true) l ->
  StronglySorted (fun a b => number_leb (key b) (key a) = true)
    (Array_sort (fun a b => sub (key b) (key a)) l) /\
  forall v,
    filter (fun a => number_eqb (key a) v)
      (Array_sort (fun a b => sub (key b) (key a)) l)
    = filter (fun a => number_eqb (key a) v) l.
Proof.
  intros H.
  assert (forall x y,
            ordered_number (key x) = true -> ordered_number (key y) = true ->
            gt_zero (SortCompare (fun a b => sub (key b) (key a)) x y)
            = negb (number_leb (key y) (key x))) as Hcmp.
  { intros x y Hx Hy. rewrite gt_zero_SortCompare.
    apply gt_zero_sub_ordered; assumption. }
  split.
  - apply (Array_sort_sorted _ (fun a => ordered_number (key a))
             (fun a b => number_leb (key b) (key a))); try assumption.
    + intros x y Hx Hy. apply number_leb_total; assumption.
    + intros x y z H1 H2. exact (number_leb_trans _ _ _ H2 H1).
  - intros v.
    apply (Array_sort_stable _ (fun a => ordered_number (key a))
             (fun a b => number_leb (key b) (key a))); try assumption.
    intros x y _ _ Hx Hy. exact (key_class_tie v y x Hy Hx).
Qed.

End SortByKey.

(** *** Parsed numbers can be compared *)

Lemma of_decimal_shape neg m e :
  of_decimal neg m e = NaN \/ ordered_number (of_decimal neg m e) = true.
Proof.
  unfold of_decimal. destruct m as [|p]; [right; reflexivity|].
  destruct (0 <=? e).
  - pose proof (binary_round_shape neg (p * Z.to_pos (10 ^ e)) 0) as H.
    destruct (binary_round prec emax neg (p * Z.to_pos (10 ^ e)) 0);
      [right; reflexivity | right; reflexivity | left; reflexivity |].
    right. simpl. apply Z.leb_le. tauto.
  - unfold SFdiv.
    destruct (SFdiv_core_binary prec emax (Zpos p) 0
                (Zpos (Z.to_pos (10 ^ (- e)))) 0) as [[mz ez] lz].
    pose proof (binary_round_aux_shape (xorb neg false) mz ez lz) as H.
    destruct (binary_round_aux prec emax (xorb neg false) mz ez lz);
      [right; reflexivity | right; reflexivity | left; reflexivity |].
    right. simpl. apply Z.leb_le. tauto.
Qed.

Lemma parseFloat_shape s :
  parseFloat s = NaN \/ ordered_number (parseFloat s) = true.
Proof.
  unfold parseFloat.
  destruct (match drop_while is_space s with
            | [] => (false, drop_while is_space s)
            | c :: r =>
                if is_char c "-"%char then (true, r)
                else if is_char c "+"%char then (false, r)
                else (false, drop_while is_space s)
            end) as [neg s1].
  destruct (starts_with (lit "Infinity") s1); [right; reflexivity|].
  destruct (span is_digit s1) as [int_digits s2].
  destruct (match s2 with
            | [] => ([], s2)
            | c :: r => if is_char c "."%char then span is_digit r else ([], s2)
            end) as [frac_digits s3].
  destruct (int_digits ++ frac_digits); [left; reflexivity|].
  apply of_decimal_shape.
Qed.

Lemma parsePrice_ordered s : ordered_number (parsePrice s) = true.
Proof.
  unfold parsePrice. destruct (truthy s); [|reflexivity]. cbn [negb].
  destruct (parseFloat_shape (strip_non_numeric s)) as [H|H].
  - rewrite H. reflexivity.
  - destruct (parseFloat (strip_non_numeric s)); try discriminate H;
      simpl; exact H.
Qed.

Lemma Forall_always {A : Type} (P : A -> Prop) (l : list A) :
  (forall a, P a) -> Forall P l.
Proof.
  intros H. apply Forall_forall. intros a _. apply H.
Qed.

(** *** The sorted views *)

(** X1.  Under [price_asc] the sorted stores are in ascending order of
    their parsed price, the stores without a price last, and stores with
    equal prices keep the order of the input. *)
Theorem sortedStores_price_asc_sorted : forall stores : list OnlineStore.t,
  StronglySorted (fun a b => number_leb (price_of a) (price_of b) = true)
    (sortedStores (Some stores) price_asc) /\
  forall v,
    filter (fun a => number_eqb (price_of a) v)
      (sortedStores (Some stores) price_asc)
    = filter (fun a => number_eqb (price_of a) v) stores.
Proof.
  intros stores. apply (sort_by_key_ascending price_of).
  apply Forall_always. intros a. apply parsePrice_ordered.
Qed.

(** X2.  Under [price_desc] the sorted stores are in descending order of
    their parsed price, the stores without a price first, and stores with
    equal prices keep the order of the input. *)
Theorem sortedStores_price_desc_sorted : forall stores : list OnlineStore.t,
  StronglySorted (fun a b => number_leb (price_of b) (price_of a) = true)
    (sortedStores (Some stores) price_desc) /\
  forall v,
    filter (fun a => number_eqb (price_of a) v)
      (sortedStores (Some stores) price_desc)
    = filter (fun a => number_eqb (price_of a) v) stores.
Proof.
  intros stores. apply (sort_by_key_descending price_of).
  apply Forall_always. intros a. apply parsePrice_ordered.
Qed.

(** X3.  When no availability score is [NaN], the shops sorted by
    ['chances'] are in descending order of the score, and shops with equal
    scores keep the order of the input. *)
Theorem sortedShops_chances_sorted : forall shops : list Shop.t,
  Forall (fun s => ordered_number (Shop.availabilityScore s) = true) shops ->
  StronglySorted
    (fun a b => number_leb (Shop.availabilityScore b)
                           (Shop.availabilityScore a) = true)
    (sortedShops (Some shops) chances) /\
  forall v,
    filter (fun a => number_eqb (Shop.availabilityScore a) v)
      (sortedShops (Some shops) chances)
    = filter (fun a => number_eqb (Shop.availabilityScore a) v) shops.
Proof.
  intros shops H. apply (sort_by_key_descending Shop.availabilityScore).
  exact H.
Qed.

Lemma sortedShops_chances_sorted_witness :
  sortedShops (Some [shop_a; shop_b; shop_c]) chances = [shop_b; shop_c; shop_a] /\
  StronglySorted
    (fun a b => number_leb (Shop.availabilityScore b)
                           (Shop.availabilityScore a) = true)
    [shop_b; shop_c; shop_a].
Proof.
  split; [reflexivity|].
  refine (proj1 (sortedShops_chances_sorted [shop_a; shop_b; shop_c] _)).
  repeat constructor.
Defined.

(** X4.  When no rating is [NaN], the shops sorted by ['rating'] are in
    descending order of the rating, and shops with equal ratings keep the
    order of the input. *)
Theorem sortedShops_rating_sorted : forall shops : list Shop.t,
  Forall (fun s => ordered_number (Shop.rating s) = true) shops ->
  StronglySorted
    (fun a b => number_leb (Shop.rating b) (Shop.rating a) = true)
    (sortedShops (Some shops) rating) /\
  forall v,
    filter (fun a => number_eqb (Shop.rating a) v)
      (sortedShops (Some shops) rating)
    = filter (fun a => number_eqb (Shop.rating a) v) shops.
Proof.
  intros shops H. apply (sort_by_key_descending Shop.rating). exact H.
Qed.

Lemma sortedShops_rating_sorted_witness :
  sortedShops (Some [shop_b; shop_a; shop_c]) rating = [shop_a; shop_c; shop_b] /\
  filter (fun a => number_eqb (Shop.rating a) (Shop.rating shop_a))
    (sortedShops (Some [shop_b; shop_a; shop_c]) rating)
  = [shop_a; shop_c].
Proof.
  split; [reflexivity|].
  refine (eq_trans
            (proj2 (sortedShops_rating_sorted [shop_b; shop_a; shop_c] _)
               (Shop.rating shop_a)) _).
  - repeat constructor.
  - reflexivity.
Defined.

(** X5.  When every distance starts with a number, so that [parseFloat]
    never answers [NaN], the shops sorted by ['distance'] are in ascending
    order of the parsed distance, and shops with equal distances keep the
    order of the input. *)
Theorem sortedShops_distance_sorted : forall shops : list Shop.t,
  Forall (fun s => isNaN (distance_of s) = false) shops ->
  StronglySorted (fun a b => number_leb (distance_of a) (distance_of b) = true)
    (sortedShops (Some shops) distance) /\
  forall v,
    filter (fun a => number_eqb (distance_of a) v)
      (sortedShops (Some shops) distance)
    = filter (fun a => number_eqb (distance_of a) v) shops.
Proof.
  intros shops H. apply (sort_by_key_ascending distance_of).
  eapply Forall_impl; [|exact H].
  intros s Hs. cbv beta in Hs. unfold distance_of in *.
  destruct (parseFloat_shape (Shop.distance s)) as [E|E]; [|exact E].
  rewrite E in Hs. discriminate Hs.
Qed.

Lemma sortedShops_distance_sorted_witness :
  sortedShops (Some [shop_a; shop_b; shop_c]) distance = [shop_c; shop_a; shop_b] /\
  StronglySorted (fun a b => number_leb (distance_of a) (distance_of b) = true)
    [shop_c; shop_a; shop_b].
Proof.
  split; [reflexivity|].
  refine (proj1 (sortedShops_distance_sorted [shop_a; shop_b; shop_c] _)).
  repeat constructor.
Defined.

(** X6.  Under every sort key the sorted shops are the shops of the
    input, each one once; ['relevance'] keeps the input as it is, and a
    [null] list gives the empty list. *)
Theorem sortedShops_permutation : forall (shops : list Shop.t) key,
  Permutation (sortedShops (Some shops) key) shops /\
  List.length (sortedShops (Some shops) key) = List.length shops /\
  sortedShops (Some shops) relevance = shops /\
  sortedShops None key = [].
Proof.
  intros shops key.
  assert (Permutation (sortedShops (Some shops) key) shops) as H.
  { destruct key; simpl; try apply Array_sort_perm. apply Permutation_refl. }
  split; [exact H|]. split; [apply Permutation_length; exact H|].
  split; reflexivity.
Qed.

(** *** The value of a price *)

Lemma strip_idempotent s :
  strip_non_numeric (strip_non_numeric s) = strip_non_numeric s.
Proof.
  unfold strip_non_numeric. induction s as [|c s IH]; [reflexivity|].
  cbn [filter]. destruct (keeps c) eqn:Hc; [|exact IH].
  cbn [filter]. rewrite Hc, IH. reflexivity.
Qed.

(** [parsePrice] reads the characters that the replacement keeps, and
    nothing else. *)
Lemma parsePrice_strip s :
  parsePrice s = parsePrice (strip_non_numeric s).
Proof.
  unfold parsePrice. rewrite strip_idempotent.
  destruct s as [|c s]; [reflexivity|]. cbn [truthy negb].
  destruct (strip_non_numeric (c :: s)) as [|d r] eqn:Hs; reflexivity.
Qed.

(** X11.  Two price strings with the same digits and dots, in the same
    order, have the same price: currency signs, thousands separators,
    letters, white space and minus signs play no part. *)
Theorem parsePrice_kept_characters : forall s s' : jsstring,
  strip_non_numeric s = strip_non_numeric s' ->
  parsePrice s = parsePrice s'.
Proof.
  intros s s' H. rewrite (parsePrice_strip s), (parsePrice_strip s'), H.
  reflexivity.
Qed.

Lemma parsePrice_kept_characters_witness :
  parsePrice (lit "$1,234.50") = parsePrice (lit "-1234.50 USD").
Proof.
  apply parsePrice_kept_characters. reflexivity.
Defined.

Lemma kept_not_space c :
  (48 <= c <= 57 \/ c = 46)%N -> is_space c = false.
Proof.
  intros Hc. unfold is_space.
  assert (H1 : (c <=? 13)%N = false) by (apply N.leb_gt; lia).
  assert (H2 : (c =? 32)%N = false) by (apply N.eqb_neq; lia).
  assert (H3 : (c =? 160)%N = false) by (apply N.eqb_neq; lia).
  assert (H4 : (c =? 5760)%N = false) by (apply N.eqb_neq; lia).
  assert (H5 : (8192 <=? c)%N = false) by (apply N.leb_gt; lia).
  assert (H6 : (c =? 8232)%N = false) by (apply N.eqb_neq; lia).
  assert (H7 : (c =? 8233)%N = false) by (apply N.eqb_neq; lia).
  assert (H8 : (c =? 8239)%N = false) by (apply N.eqb_neq; lia).
  assert (H9 : (c =? 8287)%N = false) by (apply N.eqb_neq; lia).
  assert (H10 : (c =? 12288)%N = false) by (apply N.eqb_neq; lia).
  assert (H11 : (c =? 65279)%N = false) by (apply N.eqb_neq; lia).
  rewrite H1, H2, H3, H4, H5, H6, H7, H8, H9, H10, H11.
  rewrite andb_false_r. reflexivity.
Qed.

(** What is left of a price string has no sign to read. *)
Lemma parseFloat_strip_unsigned s :
  parseFloat (strip_non_numeric s) = NaN \/
  exists m e, parseFloat (strip_non_numeric s) = of_decimal false m e.
Proof.
  unfold parseFloat.
  destruct (strip_non_numeric s) as [|c r] eqn:Hs.
  - left. reflexivity.
  - pose proof (strip_head _ _ _ Hs) as Hc.
    pose proof (kept_not_space c Hc) as Hsp.
    assert (is_char c "-"%char = false) as Hm
      by (unfold is_char; cbn; apply N.eqb_neq; lia).
    assert (is_char c "+"%char = false) as Hp
      by (unfold is_char; cbn; apply N.eqb_neq; lia).
    assert (starts_with (lit "Infinity") (c :: r) = false) as Hi.
    { change (lit "Infinity") with (73%N :: lit "nfinity").
      apply starts_with_head_neq. lia. }
    cbn [drop_while]. rewrite Hsp, Hm, Hp, Hi.
    destruct (span is_digit (c :: r)) as [int_digits s2].
    destruct (match s2 with
              | [] => ([], s2)
              | c0 :: r0 =>
                  if is_char c0 "."%char then span is_digit r0 else ([], s2)
              end) as [frac_digits s3].
    destruct (int_digits ++ frac_digits) as [|d ds]; [left; reflexivity|].
    right. eexists. eexists. reflexivity.
Qed.

Lemma of_decimal_unsigned m e :
  match of_decimal false m e with
  | S754_finite s _ e' => s = false /\ SpecFloat.emin prec emax <= e'
  | S754_infinity s => s = false
  | S754_zero s => s = false
  | S754_nan => True
  end.
Proof.
  unfold of_decimal. destruct m as [|p]; [reflexivity|].
  destruct (0 <=? e).
  - apply binary_round_shape.
  - unfold SFdiv.
    destruct (SFdiv_core_binary prec emax (Zpos p) 0
                (Zpos (Z.to_pos (10 ^ (- e)))) 0) as [[mz ez] lz].
    apply (binary_round_aux_shape (xorb false false) mz ez lz).
Qed.

(** X12.  A price is never negative and never [NaN]: [parsePrice] answers
    [Infinity], or a finite number that is zero or more. *)
Theorem parsePrice_not_negative : forall s : jsstring,
  parsePrice s = Infinity \/
  (finite_number (parsePrice s) = true /\ 0 <= scaled (parsePrice s)).
Proof.
  intros s. unfold parsePrice.
  destruct (truthy s); [|left; reflexivity]. cbn [negb].
  destruct (parseFloat_strip_unsigned s) as [H|(m & e & H)]; rewrite H.
  - left. reflexivity.
  - pose proof (of_decimal_unsigned m e) as Hs.
    destruct (of_decimal false m e) as [b|b| |b p e'].
    + right. split; [reflexivity|]. cbn. lia.
    + left. subst b. reflexivity.
    + left. reflexivity.
    + right. destruct Hs as [-> He]. cbn [isNaN]. split.
      * apply Z.leb_le. exact He.
      * cbn [scaled cond_Zopp].
        apply Z.mul_nonneg_nonneg; [lia|]. apply Z.pow_nonneg. lia.
Qed.

(* ================================================================== *)
(** * The fence pattern, in general *)

Lemma starts_with_app p s :
  starts_with p s = true -> s = p ++ skipn (List.length p) s.
Proof.
  revert s. induction p as [|a p IH]; intros s H; [reflexivity|].
  destruct s as [|c s]; [discriminate H|].
  rewrite starts_with_cons in H. apply andb_true_iff in H.
  destruct H as [Hc Hs]. apply N.eqb_eq in Hc. subst c.
  simpl. f_equal. apply IH. exact Hs.
Qed.

Lemma starts_with_prefix p s : starts_with p (p ++ s) = true.
Proof.
  induction p as [|a p IH]; [reflexivity|].
  simpl app. rewrite starts_with_cons, N.eqb_refl, IH. reflexivity.
Qed.

Lemma drop_while_split s :
  exists ws, s = ws ++ drop_while is_space s /\ forallb is_space ws = true.
Proof.
  induction s as [|c s (ws & Hs & Hws)].
  - exists []. split; reflexivity.
  - simpl. destruct (is_space c) eqn:Hc.
    + exists (c :: ws). split; [simpl; f_equal; exact Hs|].
      simpl. rewrite Hc, Hws. reflexivity.
    + exists []. split; reflexivity.
Qed.

Lemma has_fence_space w s : is_space w = true -> has_fence (w :: s) = has_fence s.
Proof.
  intros H. rewrite has_fence_cons, starts_with_backticks_space by exact H.
  reflexivity.
Qed.

Lemma has_fence_drop_spaces s : has_fence (drop_while is_space s) = has_fence s.
Proof.
  induction s as [|c s IH]; [reflexivity|].
  simpl drop_while. destruct (is_space c) eqn:Hc; [|reflexivity].
  rewrite has_fence_space by exact Hc. exact IH.
Qed.

Lemma starts_with_has_fence s : starts_with backticks s = true -> has_fence s = true.
Proof.
  intros H. destruct s as [|c s]; [discriminate H|].
  rewrite has_fence_cons, H. reflexivity.
Qed.

Lemma has_fence_app_r a s : has_fence s = true -> has_fence (a ++ s) = true.
Proof.
  intros H. induction a as [|c a IH]; [exact H|].
  simpl app. rewrite has_fence_cons, IH. apply orb_true_r.
Qed.

Lemma has_fence_decompose s :
  has_fence s = true <-> exists a b, s = a ++ backticks ++ b.
Proof.
  split.
  - induction s as [|c s IH]; intros H; [discriminate H|].
    rewrite has_fence_cons in H. apply orb_true_iff in H. destruct H as [H|H].
    + exists [], (skipn 3 (c :: s)). apply (starts_with_app backticks _ H).
    + destruct (IH H) as (a & b & ->). exists (c :: a), b. reflexivity.
  - intros (a & b & ->). apply has_fence_app_r.
    apply starts_with_has_fence. apply starts_with_prefix.
Qed.

Lemma backtick_not_space : is_space 96%N = false.
Proof. reflexivity. Qed.

Lemma starts_with_backticks_head s :
  starts_with backticks s = true -> drop_while is_space s = s.
Proof.
  destruct s as [|c s]; [reflexivity|].
  change backticks with (96%N :: lit "``"). rewrite starts_with_cons.
  intros H. apply andb_true_iff in H. destruct H as [Hc _].
  apply N.eqb_eq in Hc. subst c. reflexivity.
Qed.

Lemma closing_part_spec s :
  closing_part s =
  if starts_with backticks (drop_while is_space s) then Some tt else None.
Proof. apply re_spaces_backticks. Qed.

Lemma closing_part_fence s : closing_part s = Some tt -> has_fence s = true.
Proof.
  rewrite closing_part_spec.
  destruct (starts_with backticks (drop_while is_space s)) eqn:H; [|discriminate].
  intros _. rewrite <- has_fence_drop_spaces.
  apply starts_with_has_fence. exact H.
Qed.

(** The lazy capture succeeds exactly on a text with three backticks. *)
Lemma lazy_capture_succeeds s :
  has_fence s = true -> re_lazy_capture closing_part s <> None.
Proof.
  induction s as [|c s IH]; intros H; [discriminate H|].
  cbn [re_lazy_capture].
  destruct (closing_part (c :: s)) eqn:Hc; [discriminate|].
  rewrite has_fence_cons in H. apply orb_true_iff in H. destruct H as [H|H].
  - rewrite closing_part_spec, (starts_with_backticks_head _ H), H in Hc.
    discriminate Hc.
  - specialize (IH H).
    destruct (re_lazy_capture closing_part s) as [[cap u]|];
      [discriminate | contradiction].
Qed.

Lemma lazy_capture_decompose s : forall cap u,
  re_lazy_capture closing_part s = Some (cap, u) ->
  exists ws2 post,
    s = cap ++ ws2 ++ backticks ++ post /\
    forallb is_space ws2 = true /\
    ends_with_space cap = false /\
    has_fence cap = false.
Proof.
  induction s as [|c s IH]; intros cap u H; cbn [re_lazy_capture] in H.
  - destruct (closing_part []) eqn:Hc; [discriminate Hc | discriminate H].
  - destruct (closing_part (c :: s)) eqn:Hc.
    + injection H as <- _.
      rewrite closing_part_spec in Hc.
      destruct (starts_with backticks (drop_while is_space (c :: s))) eqn:Hs;
        [|discriminate Hc].
      destruct (drop_while_split (c :: s)) as (ws & Heq & Hws).
      exists ws, (skipn 3 (drop_while is_space (c :: s))).
      split; [|split; [exact Hws | split; reflexivity]].
      rewrite Heq at 1. simpl app. f_equal.
      apply (starts_with_app backticks _ Hs).
    + destruct (re_lazy_capture closing_part s) as [[cap' u']|] eqn:Hrec;
        [|discriminate H].
      injection H as <- <-.
      destruct (IH cap' u' eq_refl) as (ws2 & post & Hs & Hws & Hend & Hfence).
      exists ws2, post. split; [simpl; f_equal; exact Hs|].
      split; [exact Hws|].
      rewrite closing_part_spec in Hc.
      split.
      * destruct cap' as [|d cap']; [|exact Hend].
        cbn [ends_with_space]. destruct (is_space c) eqn:Hsp; [|reflexivity].
        cbn [drop_while] in Hc. rewrite Hsp in Hc.
        rewrite app_nil_l in Hs. rewrite Hs in Hc.
        rewrite (drop_spaces_app ws2 _ Hws) in Hc.
        rewrite (starts_with_backticks_head _ (starts_with_prefix backticks post)) in Hc.
        rewrite starts_with_prefix in Hc. discriminate Hc.
      * rewrite has_fence_cons, Hfence, orb_false_r.
        destruct (starts_with backticks (c :: cap')) eqn:Hst; [|reflexivity].
        assert (starts_with backticks (c :: s) = true) as Hst'.
        { rewrite Hs, app_comm_cons.
          rewrite (starts_with_app backticks _ Hst), <- app_assoc.
          apply starts_with_prefix. }
        rewrite (starts_with_backticks_head _ Hst'), Hst' in Hc.
        discriminate Hc.
Qed.

Lemma capture_part_succeeds s : has_fence s = true -> capture_part s <> None.
Proof.
  intros H. unfold capture_part. pose proof (lazy_capture_succeeds s H) as Hs.
  destruct (re_lazy_capture closing_part s) as [[cap u]|];
    [discriminate | contradiction].
Qed.

Lemma capture_part_fence s cap : capture_part s = Some cap -> has_fence s = true.
Proof.
  unfold capture_part. intros H.
  destruct (re_lazy_capture closing_part s) as [[cap' u]|] eqn:E; [|discriminate H].
  destruct (lazy_capture_decompose s cap' u E) as (ws2 & post & -> & _).
  apply has_fence_app_r. apply has_fence_app_r.
  apply starts_with_has_fence. apply starts_with_prefix.
Qed.

Lemma re_spaces_capture_succeeds s :
  has_fence s = true -> re_spaces capture_part s <> None.
Proof.
  induction s as [|c s IH]; intros H; [discriminate H|].
  cbn [re_spaces]. destruct (is_space c) eqn:Hc.
  - rewrite has_fence_space in H by exact Hc. specialize (IH H).
    destruct (re_spaces capture_part s); [discriminate | contradiction].
  - apply capture_part_succeeds. exact H.
Qed.

Lemma re_spaces_capture_decompose s : forall cap,
  re_spaces capture_part s = Some cap ->
  exists ws1 rest,
    s = ws1 ++ rest /\ forallb is_space ws1 = true /\
    starts_with_space rest = false /\ capture_part rest = Some cap.
Proof.
  induction s as [|c s IH]; intros cap H; cbn [re_spaces] in H.
  - exists [], []. repeat split. exact H.
  - destruct (is_space c) eqn:Hc.
    + destruct (re_spaces capture_part s) as [cap'|] eqn:Hrec.
      * injection H as <-.
        destruct (IH cap' eq_refl) as (ws1 & rest & -> & Hws & Hrest & Hcap).
        exists (c :: ws1), rest. split; [reflexivity|].
        split; [simpl; rewrite Hc, Hws; reflexivity|]. split; assumption.
      * exfalso. apply (re_spaces_capture_succeeds s); [|exact Hrec].
        rewrite <- (has_fence_space c s Hc).
        apply (capture_part_fence _ _ H).
    + exists [], (c :: s). split; [reflexivity|]. split; [reflexivity|].
      split; [exact Hc | exact H].
Qed.

Lemma has_fence_json s : has_fence (lit "json" ++ s) = has_fence s.
Proof. reflexivity. Qed.

(** The pattern at one start index succeeds exactly when the text starts
    with three backticks and has three more after them. *)
Lemma fence_at_succeeds s :
  fence_at s <> None <->
  starts_with backticks s = true /\ has_fence (skipn 3 s) = true.
Proof.
  unfold fence_at, re_lit at 1. fold closing_part. fold capture_part.
  change (List.length backticks) with 3%nat.
  destruct (starts_with backticks s); [|split; [congruence | intros [H _]; discriminate H]].
  unfold re_opt, re_lit.
  change (List.length (lit "json")) with 4%nat.
  split.
  - intros H. split; [reflexivity|].
    destruct (starts_with (lit "json") (skipn 3 s)) eqn:Hj.
    + destruct (re_spaces capture_part (skipn 4 (skipn 3 s))) as [cap|] eqn:Hc.
      * destruct (re_spaces_capture_decompose _ _ Hc)
          as (ws1 & rest & Heq & Hws & _ & Hcap).
        rewrite (starts_with_app _ _ Hj).
        change (List.length (lit "json")) with 4%nat.
        rewrite has_fence_json, Heq. apply has_fence_app_r.
        apply (capture_part_fence _ _ Hcap).
      * destruct (re_spaces capture_part (skipn 3 s)) as [cap|] eqn:Hc';
          [|contradiction].
        destruct (re_spaces_capture_decompose _ _ Hc')
          as (ws1 & rest & Heq & Hws & _ & Hcap).
        rewrite Heq. apply has_fence_app_r. apply (capture_part_fence _ _ Hcap).
    + destruct (re_spaces capture_part (skipn 3 s)) as [cap|] eqn:Hc';
        [|contradiction].
      destruct (re_spaces_capture_decompose _ _ Hc')
        as (ws1 & rest & Heq & Hws & _ & Hcap).
      rewrite Heq. apply has_fence_app_r. apply (capture_part_fence _ _ Hcap).
  - intros [_ H].
    pose proof (re_spaces_capture_succeeds _ H) as Hs.
    destruct (starts_with (lit "json") (skipn 3 s));
      destruct (re_spaces capture_part (skipn 4 (skipn 3 s)));
      destruct (re_spaces capture_part (skipn 3 s));
      try discriminate; contradiction.
Qed.

Lemma fence_match_two_fences s :
  fence_match s = None <-> two_fences s = false.
Proof.
  unfold fence_match. induction s as [|c s IH].
  - simpl. split; reflexivity.
  - cbn [re_search two_fences].
    pose proof (fence_at_succeeds (c :: s)) as Hat.
    destruct (fence_at (c :: s)) as [cap|].
    + assert (starts_with backticks (c :: s) = true
              /\ has_fence (skipn 3 (c :: s)) = true) as [H1 H2]
        by (apply Hat; discriminate).
      rewrite H1, H2. split; discriminate.
    + assert (starts_with backticks (c :: s) && has_fence (skipn 3 (c :: s))
              = false) as ->.
      { destruct (starts_with backticks (c :: s)) eqn:H1;
          destruct (has_fence (skipn 3 (c :: s))) eqn:H2; try reflexivity.
        exfalso. apply (proj2 Hat); [split; reflexivity | reflexivity]. }
      exact IH.
Qed.

Lemma two_fences_decompose s :
  two_fences s = true <->
  exists a b c, s = a ++ backticks ++ b ++ backticks ++ c.
Proof.
  split.
  - induction s as [|x s IH]; intros H; cbn [two_fences] in H.
    + discriminate H.
    + apply orb_true_iff in H. destruct H as [H|H].
      * apply andb_true_iff in H. destruct H as [H1 H2].
        apply has_fence_decompose in H2. destruct H2 as (b & c & Hbc).
        exists [], b, c. rewrite (starts_with_app _ _ H1).
        change (List.length backticks) with 3%nat. rewrite Hbc. reflexivity.
      * destruct (IH H) as (a & b & c & ->). exists (x :: a), b, c. reflexivity.
  - intros (a & b & c & ->). induction a as [|x a IH].
    + simpl app. cbn [two_fences].
      change (starts_with backticks (backticks ++ b ++ backticks ++ c)
              && has_fence (b ++ backticks ++ c) || two_fences
                 (96%N :: 96%N :: b ++ backticks ++ c) = true).
      rewrite starts_with_prefix.
      rewrite (proj2 (has_fence_decompose _)) by (exists b, c; reflexivity).
      reflexivity.
    + simpl app. cbn [two_fences]. simpl app in IH. rewrite IH.
      apply orb_true_r.
Qed.

(** X7.  The fence pattern matches exactly when three backticks in a row
    occur twice in the text, the second run after the first. *)
Theorem fence_match_iff_two_fences : forall text,
  fence_match text <> None <->
  exists a b c, text = a ++ backticks ++ b ++ backticks ++ c.
Proof.
  intros text. rewrite <- two_fences_decompose.
  destruct (fence_match_two_fences text) as [H1 H2]. split.
  - intros Hne. destruct (two_fences text); [reflexivity|].
    exfalso. apply Hne. apply H2. reflexivity.
  - intros Ht Hnone. apply H1 in Hnone. rewrite Ht in Hnone.
    discriminate Hnone.
Qed.

Lemma fence_match_iff_two_fences_witness :
  fence_match two_blocks_text <> None.
Proof.
  apply (proj2 (fence_match_iff_two_fences two_blocks_text)).
  exists [], (lit "txt" ++ [10%N] ++ lit "hi" ++ [10%N]),
         ([10%N] ++ lit "```json" ++ [10%N] ++ lit "[1]" ++ [10%N] ++ lit "```").
  reflexivity.
Defined.

Lemma has_fence_skipn n s : has_fence (skipn n s) = true -> has_fence s = true.
Proof.
  revert s. induction n as [|n IH]; intros s H; [exact H|].
  destruct s as [|c s]; [exact H|].
  simpl in H. rewrite has_fence_cons, (IH s H). apply orb_true_r.
Qed.

Lemma has_fence_skipn_app a s :
  has_fence (skipn 3 s) = true -> has_fence (skipn 3 (a ++ s)) = true.
Proof.
  intros H. rewrite skipn_app. apply has_fence_app_r.
  apply (has_fence_skipn (3 - (3 - List.length a))).
  rewrite skipn_skipn.
  replace (3 - (3 - List.length a) + (3 - List.length a))%nat with 3%nat by lia.
  exact H.
Qed.

Lemma fence_at_decompose s cap :
  fence_at s = Some cap ->
  exists tag ws1 ws2 post,
    s = backticks ++ tag ++ ws1 ++ cap ++ ws2 ++ backticks ++ post /\
    (tag = [] \/ tag = lit "json") /\
    forallb is_space ws1 = true /\
    forallb is_space ws2 = true /\
    starts_with_space cap = false /\
    ends_with_space cap = false /\
    has_fence cap = false.
Proof.
  intros H.
  assert (starts_with backticks s = true) as Hs.
  { apply (proj1 (fence_at_succeeds s)). rewrite H. discriminate. }
  assert (exists tag, (tag = [] \/ tag = lit "json") /\
            skipn 3 s = tag ++ skipn (List.length tag) (skipn 3 s) /\
            re_spaces capture_part (skipn (List.length tag) (skipn 3 s))
            = Some cap) as (tag & Htag & Hsplit & Hrest).
  { unfold fence_at, re_lit at 1 in H. fold closing_part in H.
    fold capture_part in H. rewrite Hs in H.
    change (List.length backticks) with 3%nat in H.
    unfold re_opt, re_lit in H.
    destruct (starts_with (lit "json") (skipn 3 s)) eqn:Hj.
    - destruct (re_spaces capture_part
                  (skipn (List.length (lit "json")) (skipn 3 s))) eqn:Hc.
      + exists (lit "json"). split; [right; reflexivity|].
        split; [apply (starts_with_app _ _ Hj)|].
        rewrite Hc. exact H.
      + exists []. split; [left; reflexivity|]. split; [reflexivity | exact H].
    - exists []. split; [left; reflexivity|]. split; [reflexivity | exact H]. }
  destruct (re_spaces_capture_decompose _ _ Hrest)
    as (ws1 & rest & Heq & Hws1 & Hstart & Hcap).
  unfold capture_part in Hcap.
  destruct (re_lazy_capture closing_part rest) as [[cap' u]|] eqn:Hlazy;
    [|discriminate Hcap].
  injection Hcap as ->.
  destruct (lazy_capture_decompose _ _ _ Hlazy)
    as (ws2 & post & Hrest' & Hws2 & Hend & Hfence).
  exists tag, ws1, ws2, post.
  split.
  - rewrite (starts_with_app _ _ Hs) at 1.
    change (List.length backticks) with 3%nat.
    rewrite Hsplit at 1. rewrite Heq, Hrest'. reflexivity.
  - split; [exact Htag|]. split; [exact Hws1|]. split; [exact Hws2|].
    split; [|split; assumption].
    destruct cap as [|c cap]; [reflexivity|].
    rewrite Hrest' in Hstart. exact Hstart.
Qed.

Lemma fence_match_first s : forall cap,
  fence_match s = Some cap ->
  exists pre rest,
    s = pre ++ rest /\ fence_at rest = Some cap /\
    has_fence (pre ++ lit "``") = false.
Proof.
  unfold fence_match. induction s as [|c s IH]; intros cap H; cbn [re_search] in H.
  - exists [], []. split; [reflexivity|].
    destruct (fence_at []); [|discriminate H]. split; [exact H | reflexivity].
  - destruct (fence_at (c :: s)) as [cap'|] eqn:Hat.
    + exists [], (c :: s). split; [reflexivity|]. split; [congruence | reflexivity].
    + destruct (IH cap H) as (pre & rest & -> & Hrest & Hpre).
      exists (c :: pre), rest. split; [reflexivity|]. split; [exact Hrest|].
      rewrite <- app_comm_cons, has_fence_cons, Hpre, orb_false_r.
      destruct (starts_with backticks (c :: pre ++ lit "``")) eqn:Hst;
        [|reflexivity].
      exfalso.
      assert (fence_at rest <> None) as Hne by (rewrite Hrest; discriminate).
      apply fence_at_succeeds in Hne. destruct Hne as [Hr1 Hr2].
      assert (fence_at (c :: pre ++ rest) <> None) as Hne'.
      { apply fence_at_succeeds. split.
        - rewrite (starts_with_app _ _ Hr1).
          change (List.length backticks) with 3%nat.
          assert (c :: pre ++ backticks ++ skipn 3 rest
                  = (c :: pre ++ lit "``") ++ 96%N :: skipn 3 rest) as ->.
          { rewrite <- app_comm_cons, <- !app_assoc. reflexivity. }
          rewrite starts_with_backticks_app; [exact Hst|].
          simpl. rewrite length_app. simpl. lia.
        - rewrite app_comm_cons. apply has_fence_skipn_app. exact Hr2. }
      apply Hne'. exact Hat.
Qed.

(** X8.  A match of the fence pattern starts at the first run of three
    backticks of the text.  The captured interior follows that run, an
    optional [json] and white space, and is followed by white space and
    the next run of three backticks; it has no white space at either end
    and no run of three backticks inside. *)
Theorem fence_match_captures_first_block : forall text captured,
  fence_match text = Some captured ->
  exists pre tag ws1 ws2 post,
    text = pre ++ backticks ++ tag ++ ws1 ++ captured ++ ws2 ++ backticks ++ post /\
    has_fence (pre ++ lit "``") = false /\
    (tag = [] \/ tag = lit "json") /\
    forallb is_space ws1 = true /\
    forallb is_space ws2 = true /\
    starts_with_space captured = false /\
    ends_with_space captured = false /\
    has_fence captured = false.
Proof.
  intros text cap H.
  destruct (fence_match_first _ _ H) as (pre & rest & -> & Hat & Hpre).
  destruct (fence_at_decompose _ _ Hat)
    as (tag & ws1 & ws2 & post & -> & Htag & Hws1 & Hws2 & Hs & He & Hf).
  exists pre, tag, ws1, ws2, post.
  split; [reflexivity|]. split; [exact Hpre|]. split; [exact Htag|].
  split; [exact Hws1|]. split; [exact Hws2|]. split; [exact Hs|].
  split; assumption.
Qed.

Lemma fence_match_captures_first_block_witness :
  exists pre tag ws1 ws2 post,
    two_blocks_text
    = pre ++ backticks ++ tag ++ ws1 ++ (lit "txt" ++ [10%N] ++ lit "hi")
        ++ ws2 ++ backticks ++ post /\
    has_fence (pre ++ lit "``") = false /\
    (tag = [] \/ tag = lit "json") /\
    forallb is_space ws1 = true /\
    forallb is_space ws2 = true /\
    starts_with_space (lit "txt" ++ [10%N] ++ lit "hi") = false /\
    ends_with_space (lit "txt" ++ [10%N] ++ lit "hi") = false /\
    has_fence (lit "txt" ++ [10%N] ++ lit "hi") = false.
Proof.
  apply (fence_match_captures_first_block two_blocks_text).
  reflexivity.
Defined.

(** *** Where the answer of the extractor comes from *)

Lemma substring_contiguous s i j :
  exists a c, s = a ++ substring s i j ++ c.
Proof.
  unfold substring.
  match goal with
  | |- context [firstn ?len (skipn ?from s)] =>
      exists (firstn from s), (skipn len (skipn from s))
  end.
  rewrite !firstn_skipn. reflexivity.
Qed.

(** X9.  What the extractor answers is [null] or the value that
    [JSON.parse] gives for a contiguous part of the text: it never answers
    a value that the text does not spell out. *)
Theorem parseJsonResponse_provenance : forall text v,
  parseJsonResponse text = Normal v ->
  v = JNull \/
  exists a b c, text = a ++ b ++ c /\ JSON.parse b = Normal v.
Proof.
  intros text v H.
  unfold parseJsonResponse, parseJsonResponse_body in H.
  assert (forall r : completion SyntaxError JSON.value,
            try_catch r (fun _ => Normal JNull) = Normal v ->
            v = JNull \/ r = Normal v) as Hcatch.
  { intros [w|e]; simpl; intros E; injection E as <-;
      [right | left]; reflexivity. }
  assert (try_catch (bracket_scan text) (fun _ => Normal JNull) = Normal v ->
          v = JNull \/
          exists a b c, text = a ++ b ++ c /\ JSON.parse b = Normal v) as Hscan.
  { intros E. apply Hcatch in E. destruct E as [E|E]; [left; exact E|].
    rewrite bracket_scan_spec in E.
    destruct (find_first is_open text) as [i|];
      [|injection E as <-; left; reflexivity].
    destruct (find_last is_close text) as [j|];
      [|injection E as <-; left; reflexivity].
    right.
    destruct (substring_contiguous text (Z.of_nat i) (Z.of_nat j + 1))
      as (a & c & Heq).
    exists a, (substring text (Z.of_nat i) (Z.of_nat j + 1)), c.
    split; [exact Heq | exact E]. }
  destruct (fence_match text) as [[|x cap]|] eqn:Hm; cbn [truthy] in H.
  - apply Hscan. exact H.
  - apply Hcatch in H. destruct H as [H|H]; [left; exact H|]. right.
    destruct (fence_match_first _ _ Hm) as (pre & rest & -> & Hat & _).
    destruct (fence_at_decompose _ _ Hat)
      as (tag & ws1 & ws2 & post & Heq & _).
    exists (pre ++ backticks ++ tag ++ ws1), (x :: cap),
           (ws2 ++ backticks ++ post).
    split; [|exact H]. rewrite Heq, <- !app_assoc. reflexivity.
  - apply Hscan. exact H.
Qed.

Lemma parseJsonResponse_provenance_witness :
  JArray [JNumber (dyadic 1 0)] = JNull \/
  exists a b c,
    empty_block_text = a ++ b ++ c /\
    JSON.parse b = Normal (JArray [JNumber (dyadic 1 0)]).
Proof.
  apply (parseJsonResponse_provenance empty_block_text).
  reflexivity.
Defined.

(** *** JSON between prose *)

Lemma has_fence_false_match s : has_fence s = false -> fence_match s = None.
Proof.
  intros H. apply fence_match_two_fences.
  induction s as [|c s IH]; [reflexivity|].
  rewrite has_fence_cons in H. apply orb_false_iff in H. destruct H as [H1 H2].
  cbn [two_fences]. rewrite H1, (IH H2). reflexivity.
Qed.

Lemma find_first_app_none p a s :
  forallb (fun x => negb (p x)) a = true ->
  find_first p (a ++ s) = option_map (Nat.add (List.length a)) (find_first p s).
Proof.
  induction a as [|x a IH]; simpl; intros H.
  - destruct (find_first p s); reflexivity.
  - apply andb_true_iff in H. destruct H as [Hx Ha].
    apply negb_true_iff in Hx. rewrite Hx, (IH Ha).
    destruct (find_first p s); reflexivity.
Qed.

Lemma find_last_app_none p s b :
  forallb (fun x => negb (p x)) b = true ->
  find_last p (s ++ b) = find_last p s.
Proof.
  intros Hb.
  assert (find_last p b = None) as Hnone.
  { induction b as [|x b IH]; [reflexivity|].
    simpl in Hb. apply andb_true_iff in Hb. destruct Hb as [Hx Hb].
    apply negb_true_iff in Hx. simpl. rewrite (IH Hb), Hx. reflexivity. }
  induction s as [|x s IH]; simpl.
  - exact Hnone.
  - rewrite IH. reflexivity.
Qed.

Lemma find_last_snoc p s c :
  p c = true -> find_last p (s ++ [c]) = Some (List.length s).
Proof.
  intros Hc. induction s as [|x s IH]; simpl.
  - rewrite Hc. reflexivity.
  - rewrite IH. reflexivity.
Qed.

Lemma slice_middle (pre body post : jsstring) j :
  S j = (List.length pre + List.length body)%nat ->
  slice_inclusive (pre ++ body ++ post) (List.length pre) j = body.
Proof.
  intros H. unfold slice_inclusive.
  replace (S j - List.length pre)%nat with (List.length body) by lia.
  rewrite skipn_app, skipn_all, Nat.sub_diag. cbn [skipn app].
  rewrite firstn_app, firstn_all, Nat.sub_diag. cbn [firstn].
  apply app_nil_r.
Qed.

(** X10.  Prose around a JSON object or array does not matter: when the
    text has no run of three backticks, nothing before [body] is an
    opening brace or bracket, nothing after it is a closing one, and
    [body] starts with an opening and ends with a closing brace or
    bracket, the extractor answers what [JSON.parse] gives for [body],
    and [null] when that throws. *)
Theorem parseJsonResponse_prose_around_json :
  forall pre o mid c post,
    has_fence (pre ++ (o :: mid ++ [c]) ++ post) = false ->
    forallb (fun x => negb (is_open x)) pre = true ->
    forallb (fun x => negb (is_close x)) post = true ->
    is_open o = true ->
    is_close c = true ->
    parseJsonResponse (pre ++ (o :: mid ++ [c]) ++ post)
    = try_catch (JSON.parse (o :: mid ++ [c])) (fun _ => Normal JNull).
Proof.
  intros pre o mid c post Hfence Hpre Hpost Ho Hc.
  set (body := o :: mid ++ [c]) in *.
  assert (find_first is_open (pre ++ body ++ post) = Some (List.length pre))
    as Hi.
  { rewrite (find_first_app_none _ _ _ Hpre). unfold body. simpl.
    rewrite Ho. simpl. f_equal. lia. }
  assert (find_last is_close (pre ++ body ++ post)
          = Some (List.length pre + List.length mid + 1)%nat) as Hj.
  { rewrite app_assoc, (find_last_app_none _ _ _ Hpost).
    unfold body. rewrite app_comm_cons, app_assoc.
    rewrite (find_last_snoc _ _ _ Hc), length_app. simpl. f_equal. lia. }
  unfold parseJsonResponse, parseJsonResponse_body.
  rewrite (has_fence_false_match _ Hfence), bracket_scan_spec, Hi, Hj.
  rewrite substring_slice.
  - rewrite slice_middle; [reflexivity|].
    unfold body. simpl. rewrite length_app. simpl. lia.
  - lia.
  - rewrite !length_app. unfold body. simpl. rewrite length_app. simpl. lia.
Qed.

Lemma parseJsonResponse_prose_around_json_witness :
  parseJsonResponse
    (lit "Sure: " ++ (cu "["%char :: lit "1, 2" ++ [cu "]"%char]) ++ lit " done.")
  = Normal (JArray [JNumber (dyadic 1 0); JNumber (dyadic 2 0)]).
Proof.
  refine (eq_trans
    (parseJsonResponse_prose_around_json
       (lit "Sure: ") (cu "["%char) (lit "1, 2") (cu "]"%char) (lit " done.")
       _ _ _ _ _) _); reflexivity.
Defined.

(** *** The image part of a request *)

Lemma split_comma_no_comma s : no_comma s = true -> split_comma s = [s].
Proof.
  induction s as [|c r IH]; intros H; [reflexivity|].
  cbn [no_comma forallb] in H. apply andb_true_iff in H. destruct H as [Hc Hr].
  cbn [split_comma]. apply negb_true_iff in Hc. rewrite Hc.
  rewrite (IH Hr). reflexivity.
Qed.

Lemma split_comma_app a b :
  no_comma a = true ->
  split_comma (a ++ cu ","%char :: b) = a :: split_comma b.
Proof.
  induction a as [|c r IH]; intros H.
  - reflexivity.
  - cbn [no_comma forallb] in H. apply andb_true_iff in H.
    destruct H as [Hc Hr]. apply negb_true_iff in Hc.
    cbn [app split_comma]. rewrite Hc, (IH Hr). reflexivity.
Qed.

Lemma split_comma_pieces s :
  Forall (fun piece => no_comma piece = true) (split_comma s) /\
  split_comma s <> [].
Proof.
  induction s as [|c r [IH1 IH2]].
  - split; [repeat constructor | discriminate].
  - cbn [split_comma]. destruct (is_char c ","%char) eqn:Hc.
    + split; [constructor; [reflexivity | exact IH1] | discriminate].
    + destruct (split_comma r) as [|piece pieces]; [contradiction IH2; reflexivity|].
      split; [|discriminate].
      inversion IH1 as [|? ? Hp Hps]; subst. constructor; [|exact Hps].
      cbn [no_comma forallb]. rewrite Hc. exact Hp.
Qed.

(** X21.  From a data URL, made of a header without a comma, a comma and
    base64 data without a comma, [fileToGenerativePart] takes the data,
    whole.  In general it takes what stands between the first and the
    second comma of the result of the reader, so what it takes never has
    a comma; and it takes nothing, [undefined], exactly when the result
    has no comma. *)
Theorem base64EncodedData_spec :
  (forall header data,
     no_comma header = true -> no_comma data = true ->
     base64EncodedData (header ++ cu ","%char :: data) = Some data) /\
  (forall result data,
     base64EncodedData result = Some data -> no_comma data = true) /\
  (forall result,
     base64EncodedData result = None <-> no_comma result = true).
Proof.
  unfold base64EncodedData. split; [|split].
  - intros header data Hh Hd.
    rewrite (split_comma_app _ _ Hh), (split_comma_no_comma _ Hd).
    reflexivity.
  - intros result data H.
    destruct (split_comma_pieces result) as [Hall _].
    apply nth_error_In in H.
    exact (proj1 (Forall_forall _ _) Hall _ H).
  - intros result. split.
    + induction result as [|c r IH]; intros H; [reflexivity|].
      cbn [split_comma] in H. cbn [no_comma forallb].
      destruct (is_char c ","%char) eqn:Hc.
      * destruct (split_comma_pieces r) as [_ Hne].
        destruct (split_comma r); [contradiction Hne; reflexivity|].
        discriminate H.
      * cbn [negb andb]. apply IH.
        destruct (split_comma r) as [|piece pieces]; [reflexivity|].
        exact H.
    + intros H. rewrite (split_comma_no_comma _ H). reflexivity.
Qed.

Lemma base64EncodedData_spec_witness :
  base64EncodedData (lit "data:image/jpeg;base64,/9j/4AAQ") = Some (lit "/9j/4AAQ").
Proof.
  apply (proj1 base64EncodedData_spec (lit "data:image/jpeg;base64") (lit "/9j/4AAQ"));
    reflexivity.
Defined.

(* ================================================================== *)
(** * Properties of the orchestrator *)

Import App.

#[local] Arguments lit : simpl never.
#[local] Arguments handleAnalysis : simpl never.

Lemma runs_pbind {A B : Type} (p : Prog A) (f : A -> Prog B) t b :
  runs (pbind p f) t b <->
  exists a t1 t2, t = t1 ++ t2 /\ runs p t1 a /\ runs (f a) t2 b.
Proof.
  revert t. induction p as [a|X c k IH]; intros t; simpl.
  - split.
    + intros H. exists a, [], t.
      split; [reflexivity|]. split; [split; reflexivity | exact H].
    + intros (a' & t1 & t2 & -> & [-> ->] & H). exact H.
  - split.
    + intros (x & t' & -> & H). apply IH in H.
      destruct H as (a & t1 & t2 & -> & H1 & H2).
      exists a, (Event c x :: t1), t2.
      split; [reflexivity|]. split; [|exact H2].
      exists x, t1. split; [reflexivity | exact H1].
    + intros (a & t1 & t2 & -> & (x & t' & -> & H1) & H2).
      exists x, (t' ++ t2). split; [reflexivity|].
      apply IH. exists a, t', t2.
      split; [reflexivity|]. split; assumption.
Qed.

Lemma runs_pbind_ret {A B : Type} (p : Prog A) (f : A -> Prog B) t a b :
  runs p t a -> runs (f a) [] b -> runs (pbind p f) t b.
Proof.
  intros Hp Hf. apply runs_pbind. exists a, t, [].
  split; [symmetry; apply app_nil_r|]. split; assumption.
Qed.

(** Every program has a run, whatever the answers are. *)
Lemma exec_runs {A : Type} (w : oracle) (p : Prog A) : forall n,
  runs p (fst (exec w n p)) (snd (exec w n p)).
Proof.
  induction p as [a|X c k IH]; intros n; simpl.
  - split; reflexivity.
  - specialize (IH (w X n c) (S n)).
    destruct (exec w (S n) (k (w X n c))) as [t a].
    exists (w X n c), t. split; [reflexivity | exact IH].
Qed.

(** One step of a run: name the answer, or split on what decides the
    rest of the program. *)
Ltac run_step H :=
  cbn in H;
  lazymatch type of H with
  | exists _, _ =>
      let x := fresh "answer" in
      let t := fresh "t" in
      destruct H as (x & t & -> & H)
  | _ = [] /\ _ = _ => destruct H as [-> ->]
  | runs (pbind (match ?a with _ => _ end) _) _ _ => destruct a
  | runs (match ?a with _ => _ end) _ _ => destruct a
  end.

Ltac run_steps H := repeat run_step H.

(** Builds a run from the answers that the goal lists. *)
Ltac play :=
  cbn;
  lazymatch goal with
  | |- exists _, _ => eexists; play
  | |- _ /\ _ => split; [reflexivity | play]
  | |- _ = _ => reflexivity
  | |- _ => idtac
  end.

(** *** The second wave: image backfill *)

Lemma with_image_truthy processed :
  Forall (fun p => truthy (SimilarProduct.imageUrl p) = true)
         (with_image processed).
Proof.
  induction processed as [|[n [u|]] rest IH]; simpl.
  - constructor.
  - destruct (truthy u) eqn:Hu; [constructor|]; assumption.
  - exact IH.
Qed.

(** The calls of the second wave: one image request for each entry
    without an image, in the order of the list, and no other call. *)
Lemma runs_backfill_calls elements : forall t settled,
  runs (Promise_all (map backfill elements)) t settled ->
  calls_of t
  = map (fun p => Issued (generateImages (raw_name p)))
      (filter lacks_image (entries elements)) /\
  answers image_request_of t
  = map raw_name (filter lacks_image (entries elements)) /\
  forallb (fun e => negb (is_downstream e || is_geolocation e)) t = true /\
  first_answer identify_of t = None /\
  first_answer position_of t = None /\
  first_answer details_of t = None /\
  first_answer similar_of t = None /\
  first_answer shops_of t = None /\
  first_answer stores_of t = None /\
  first_answer objectUrl_of t = None.
Proof.
  induction elements as [|p elements IH]; intros t settled H.
  - simpl in H. destruct H as [-> ->]. repeat split.
  - cbn [map Promise_all] in H.
    apply runs_pbind in H. destruct H as (a & t1 & t2 & -> & Hp & H).
    apply runs_pbind in H. destruct H as (l & t3 & t4 & -> & Hrest & H).
    simpl in H. destruct H as [-> ->]. rewrite app_nil_r.
    destruct (IH _ _ Hrest)
      as (IH1 & IH2 & IH3 & IH4 & IH5 & IH6 & IH7 & IH8 & IH9 & IH10).
    unfold backfill in Hp. unfold calls_of in *.
    destruct p as [p|]; cbn [entries filter].
    + destruct (raw_imageUrl p) as [[|c u]|] eqn:Hu.
      * assert (Hl : lacks_image p = true)
          by (unfold lacks_image; rewrite Hu; reflexivity).
        rewrite Hl. run_steps Hp; cbn; rewrite IH1, IH2; repeat split;
          assumption.
      * assert (Hl : lacks_image p = false)
          by (unfold lacks_image; rewrite Hu; reflexivity).
        rewrite Hl. run_steps Hp. cbn. rewrite IH1, IH2. repeat split;
          assumption.
      * assert (Hl : lacks_image p = true)
          by (unfold lacks_image; rewrite Hu; reflexivity).
        rewrite Hl. run_steps Hp; cbn; rewrite IH1, IH2; repeat split;
          assumption.
    + run_steps Hp. cbn. rewrite IH1, IH2. repeat split; assumption.
Qed.

(** When no promise of the second wave rejects, no element is [null], and
    the entries with an image are the expected ones: each entry without an
    image takes what [generateProductImage] returned for its request. *)
Lemma runs_backfill_fulfilled elements : forall t settled processed,
  runs (Promise_all (map backfill elements)) t settled ->
  all_fulfilled settled = Normal processed ->
  elements = map Some (entries elements) /\
  with_image processed
  = expected_similar (entries elements) (answers generated_of t).
Proof.
  induction elements as [|p elements IH]; intros t settled processed H Hall.
  - simpl in H. destruct H as [-> ->]. injection Hall as <-.
    split; reflexivity.
  - cbn [map Promise_all] in H.
    apply runs_pbind in H. destruct H as (a & t1 & t2 & -> & Hp & H).
    apply runs_pbind in H. destruct H as (l & t3 & t4 & -> & Hrest & H).
    simpl in H. destruct H as [-> ->]. rewrite app_nil_r.
    unfold backfill in Hp.
    destruct p as [p|]; [|run_steps Hp; discriminate Hall].
    cbn [entries map expected_similar].
    destruct (raw_imageUrl p) as [[|c u]|]; run_steps Hp;
      cbn [all_fulfilled] in Hall;
      destruct (all_fulfilled l) as [rest|rejected] eqn:Hl; try discriminate Hall;
      injection Hall as <-;
      destruct (IH _ _ _ Hrest Hl) as [IH1 IH2];
      cbn; rewrite <- IH2, <- IH1; split; reflexivity.
Qed.


(** The second wave as a whole. *)
Lemma runs_second_wave elements s0 t r :
  runs ((settled <- await (Promise_all (map backfill elements)) ;;
         match all_fulfilled settled with
         | Normal processedSimilar =>
             setSimilarProducts (Some (with_image processedSimilar))
         | Throw err => throw err
         end)%handler s0)
       t r ->
  exists settled,
    runs (Promise_all (map backfill elements)) t settled /\
    r = match all_fulfilled settled with
        | Normal processed =>
            (Normal tt,
             mkState (step s0) (processingMessage s0) (error s0) (imageUrl s0)
               (productInfo s0) (nearbyShops s0) (onlineStores s0)
               (Some (with_image processed)) (userLocation s0) (currentView s0))
        | Throw err => (Throw err, s0)
        end.
Proof.
  unfold bind, await. intros H.
  apply runs_pbind in H. destruct H as (a & t1 & t2 & -> & H1 & H2).
  apply runs_pbind in H1. destruct H1 as (settled & t3 & t4 & -> & H3 & H4).
  simpl in H4. destruct H4 as [-> ->].
  exists settled.
  destruct (all_fulfilled settled); cbn in H2; destruct H2 as [-> ->];
    rewrite !app_nil_r; (split; [exact H3 | reflexivity]).
Qed.

(** Splits a run of [pbind p f] into a run of [p] and a run of the rest,
    and reads the second wave when [p] is it. *)
Ltac run_wave H settled Hall processed err Hsettled :=
  cbn in H;
  let r := fresh "r" in
  let t1 := fresh "t" in
  let t2 := fresh "t" in
  let H1 := fresh "H" in
  let H2 := fresh "H" in
  apply runs_pbind in H; destruct H as (r & t1 & t2 & -> & H1 & H);
  apply runs_pbind in H1; destruct H1 as (? & ? & ? & -> & H2 & H1);
  apply runs_second_wave in H2; destruct H2 as (settled & Hall & ->);
  destruct (all_fulfilled settled) as [processed|err] eqn:Hsettled;
  run_steps H1; run_steps H.

(** *** The runs of [handleAnalysis] *)

(** Every run of [handleAnalysis] is one of the seven runs of
    [analysis_run], and the handler completes normally. *)
Lemma handleAnalysis_runs userLocation file s t out :
  runs (handleAnalysis userLocation file s) t out ->
  fst out = Normal tt /\ analysis_run userLocation file s t (snd out).
Proof.
  intros H. unfold handleAnalysis in H.
  run_step H. run_step H.
  destruct answer0 as [identified|].
  2: { run_steps H. split; [reflexivity|]. apply run_not_identified. }
  destruct userLocation as [location|].
  - do 4 run_step H.
    destruct answer0 as [details|].
    2: { run_steps H. split; [reflexivity|].
         apply (run_no_details (Some location) file s answer identified []
                  location answer1 answer2 answer3).
         left. split; reflexivity. }
    destruct answer3 as [[elements|]|].
    + run_wave H settled Hall processed err Hsettled;
        (split; [reflexivity|]); cbn [snd]; rewrite ?app_nil_r.
      * apply (run_results_with_similar (Some location) file s answer
                 identified [] location details answer1 answer2 elements _
                 settled processed);
          [left; split; reflexivity | exact Hall | exact Hsettled].
      * apply (run_similar_rejected (Some location) file s answer
                 identified [] location details answer1 answer2 elements _
                 settled err);
          [left; split; reflexivity | exact Hall | exact Hsettled].
    + run_steps H. split; [reflexivity|].
      apply (run_similar_not_array (Some location) file s answer
               identified [] location details answer1 answer2).
      left. split; reflexivity.
    + run_steps H. split; [reflexivity|].
      apply (run_results_without_similar (Some location) file s answer
               identified [] location details answer1 answer2).
      left. split; reflexivity.
  - run_step H. destruct answer0 as [location|].
    2: { run_steps H. split; [reflexivity|].
         apply run_not_located. reflexivity. }
    do 4 run_step H.
    destruct answer0 as [details|].
    2: { run_steps H. split; [reflexivity|].
         apply (run_no_details None file s answer identified
                  [Event getCurrentPosition (Some location)]
                  location answer1 answer2 answer3).
         right. split; reflexivity. }
    destruct answer3 as [[elements|]|].
    + run_wave H settled Hall processed err Hsettled;
        (split; [reflexivity|]); cbn [snd]; rewrite ?app_nil_r.
      * apply (run_results_with_similar None file s answer identified
                 [Event getCurrentPosition (Some location)]
                 location details answer1 answer2 elements _ settled processed);
          [right; split; reflexivity | exact Hall | exact Hsettled].
      * apply (run_similar_rejected None file s answer identified
                 [Event getCurrentPosition (Some location)]
                 location details answer1 answer2 elements _ settled err);
          [right; split; reflexivity | exact Hall | exact Hsettled].
    + run_steps H. split; [reflexivity|].
      apply (run_similar_not_array None file s answer identified
               [Event getCurrentPosition (Some location)]
               location details answer1 answer2).
      right. split; reflexivity.
    + run_steps H. split; [reflexivity|].
      apply (run_results_without_similar None file s answer
               identified [Event getCurrentPosition (Some location)]
               location details answer1 answer2).
      right. split; reflexivity.
Qed.

Ltac play_wave Hwave Hsettled :=
  eapply runs_pbind_ret;
  [ eapply runs_pbind_ret;
    [ unfold bind, await; eapply runs_pbind_ret;
      [ eapply runs_pbind_ret; [exact Hwave | play]
      | cbn; rewrite Hsettled; play ]
    | play ]
  | play ].

(** The other direction: each of the seven runs is a run of
    [handleAnalysis]. *)
Lemma analysis_run_runs userLocation file s t s' :
  analysis_run userLocation file s t s' ->
  runs (handleAnalysis userLocation file s) t (Normal tt, s').
Proof.
  intros H. unfold handleAnalysis.
  destruct H as [objectUrl
                | objectUrl identified Hloc
                | objectUrl identified geo location shops stores similar Hloc
                | objectUrl identified geo location details shops stores Hloc
                | objectUrl identified geo location details shops stores
                    elements wave settled processed Hloc Hwave Hsettled
                | objectUrl identified geo location details shops stores
                    elements wave settled err Hloc Hwave Hsettled
                | objectUrl identified geo location details shops stores Hloc].
  - play.
  - subst userLocation. play.
  - destruct Hloc as [[-> ->]|[-> ->]]; play.
  - destruct Hloc as [[-> ->]|[-> ->]]; play.
  - destruct Hloc as [[-> ->]|[-> ->]]; play; play_wave Hwave Hsettled.
  - destruct Hloc as [[-> ->]|[-> ->]]; play; play_wave Hwave Hsettled.
  - destruct Hloc as [[-> ->]|[-> ->]]; play.
Qed.

(** The runs of [handleAnalysis] depend on the state through the cached
    location alone. *)
Lemma analysis_run_state userLocation file s1 s2 t s' :
  App.userLocation s1 = App.userLocation s2 ->
  analysis_run userLocation file s1 t s' ->
  analysis_run userLocation file s2 t s'.
Proof.
  intros Hs H.
  assert (Hc : forall location,
             cached userLocation s1 location = cached userLocation s2 location)
    by (intros location; unfold cached; rewrite Hs; reflexivity).
  destruct H as [objectUrl
                | objectUrl identified Hloc
                | objectUrl identified geo location shops stores similar Hloc
                | objectUrl identified geo location details shops stores Hloc
                | objectUrl identified geo location details shops stores
                    elements wave settled processed Hloc Hwave Hsettled
                | objectUrl identified geo location details shops stores
                    elements wave settled err Hloc Hwave Hsettled
                | objectUrl identified geo location details shops stores Hloc];
    rewrite ?Hs, ?Hc.
  - apply run_not_identified.
  - apply run_not_located. exact Hloc.
  - apply run_no_details. exact Hloc.
  - apply run_results_without_similar. exact Hloc.
  - eapply run_results_with_similar; eassumption.
  - eapply run_similar_rejected; eassumption.
  - apply run_similar_not_array. exact Hloc.
Qed.

Lemma handleAnalysis_state userLocation file s1 s2 t out :
  App.userLocation s1 = App.userLocation s2 ->
  runs (handleAnalysis userLocation file s1) t out ->
  runs (handleAnalysis userLocation file s2) t out.
Proof.
  intros Hs H. apply handleAnalysis_runs in H. destruct H as [Hc H].
  destruct out as [c st]. cbn in Hc, H. subst c.
  apply analysis_run_runs. apply (analysis_run_state _ _ s1); assumption.
Qed.


(** *** The runs of [handleSimilarProductAnalysis] *)

(** A run starts with the request of the image through the proxy.  When
    that fails, the run ends there; otherwise the rest is a run of
    [handleAnalysis] on the file made of the fetched bytes. *)
Lemma similar_runs userLocation product s t out :
  runs (handleSimilarProductAnalysis userLocation product s) t out ->
  exists fetched t',
    t = Event (fetch (proxyUrl product)) fetched :: t' /\
    match fetch_failure fetched with
    | Some detail =>
        t' = [] /\ out = (Normal tt, fetch_failed product detail s)
    | None =>
        exists response b,
          fetched = Normal response /\ ok response = true /\
          blob response = Normal b /\
          runs (handleAnalysis userLocation (similar_file product b) s) t' out
    end.
Proof.
  intros H.
  assert (Hnormal : forall file s t out,
             runs (handleAnalysis userLocation file s) t out ->
             fst out = Normal tt)
    by (intros file' s' t' out' Hr;
        exact (proj1 (handleAnalysis_runs _ _ _ _ _ Hr))).
  pose proof (handleAnalysis_state userLocation) as Hstate.
  unfold handleSimilarProductAnalysis in H. unfold similar_file.
  revert Hnormal Hstate H. generalize (handleAnalysis userLocation).
  intros analysis Hnormal Hstate H.
  run_step H. exists answer, t0. split; [reflexivity|].
  apply runs_pbind in H. destruct H as (r & t1 & t2 & -> & H1 & H2).
  destruct answer as [[[] status [b|err]]|err]; cbn in H1 |- *.
  - exists (mkResponse true status (Normal b)), b.
    split; [reflexivity|]. split; [reflexivity|]. split; [reflexivity|].
    pose proof (Hnormal _ _ _ _ H1) as Hc.
    destruct r as [c st]. cbn in Hc. subst c.
    cbn in H2. destruct H2 as [-> ->]. rewrite app_nil_r.
    revert H1. apply Hstate. reflexivity.
  - destruct H1 as [-> ->]. cbn in H2. destruct H2 as [-> ->].
    split; reflexivity.
  - destruct H1 as [-> ->]. cbn in H2. destruct H2 as [-> ->].
    split; reflexivity.
  - destruct H1 as [-> ->]. cbn in H2. destruct H2 as [-> ->].
    split; reflexivity.
  - destruct H1 as [-> ->]. cbn in H2. destruct H2 as [-> ->].
    split; reflexivity.
Qed.



Lemma handler_file file s :
  handler (SelectFile file) s = handleAnalysis (App.userLocation s) file s.
Proof. reflexivity. Qed.

Lemma handler_similar product s :
  handler (FindSimilar product) s
  = handleSimilarProductAnalysis (App.userLocation s) product s.
Proof. reflexivity. Qed.

Lemma runs_view view s t out :
  runs (handler (SetView view) s) t out ->
  t = [] /\
  out = (Normal tt,
         mkState (step s) (processingMessage s) (error s) (imageUrl s)
           (productInfo s) (nearbyShops s) (onlineStores s)
           (similarProducts s) (App.userLocation s) view).
Proof. intros H. cbn in H. exact H. Qed.

Lemma runs_start_over s t out :
  runs (handler StartOver s) t out -> t = [] /\ out = (Normal tt, initial).
Proof. intros H. unfold handler, onStartOver in H. cbn in H. exact H. Qed.

(** Splits a run of [handleAnalysis] into the seven runs. *)
Ltac run_cases H :=
  destruct H as [objectUrl
                | objectUrl identified Hloc
                | objectUrl identified geo location shops stores similar Hloc
                | objectUrl identified geo location details shops stores Hloc
                | objectUrl identified geo location details shops stores
                    elements wave settled processed Hloc Hwave Hsettled
                | objectUrl identified geo location details shops stores
                    elements wave settled err Hloc Hwave Hsettled
                | objectUrl identified geo location details shops stores Hloc].

Lemma entries_map_Some raw : entries (map Some raw) = raw.
Proof.
  induction raw as [|p raw IH]; [reflexivity|]. cbn. rewrite IH. reflexivity.
Qed.

(** *** The claims on the pipeline *)

(** C4.  In every run of [handleAnalysis] in which [identifyProduct]
    answers [null], the final step is [ERROR], the error message is the
    one of the failed identification, and the calls of the run are the
    creation of the object URL and the identification: no detail, shop,
    store or similar-product lookup and no geolocation request is
    issued. *)
Theorem identify_null_halts :
  forall userLocation file s t out,
    runs (handleAnalysis userLocation file s) t out ->
    first_answer identify_of t = Some None ->
    step (snd out) = ERROR /\
    error (snd out) = Some (lit "Could not identify the product from the image.") /\
    forallb (fun e => negb (is_downstream e || is_geolocation e)) t = true /\
    exists objectUrl,
      t = [Event (createObjectURL file) objectUrl;
           Event (identifyProduct file) None].
Proof.
  intros loc file s t out H Hid.
  apply handleAnalysis_runs in H. destruct H as [_ H].
  run_cases H; try discriminate Hid.
  split; [reflexivity|]. split; [reflexivity|]. split; [reflexivity|].
  exists objectUrl. reflexivity.
Qed.

Lemma identify_null_halts_witness :
  step (snd (snd (exec identify_fails 0 (handleAnalysis None photo initial))))
  = ERROR.
Proof.
  apply (identify_null_halts None photo initial
           (fst (exec identify_fails 0 (handleAnalysis None photo initial)))).
  - apply exec_runs.
  - reflexivity.
Defined.

(** C5.  In every run of [handleAnalysis] in which [getProductDetails]
    answers [null], the final step is [ERROR] and no product is recorded,
    whatever the shop, store and similar-product lookups answer. *)
Theorem details_null_is_error :
  forall userLocation file s t out,
    runs (handleAnalysis userLocation file s) t out ->
    first_answer details_of t = Some None ->
    step (snd out) = ERROR /\
    error (snd out) = Some (lit "Could not fetch product details.") /\
    productInfo (snd out) = None /\
    nearbyShops (snd out) = None /\
    onlineStores (snd out) = None /\
    similarProducts (snd out) = None.
Proof.
  intros loc file s t out H Hd.
  apply handleAnalysis_runs in H. destruct H as [_ H].
  run_cases H; try discriminate Hd;
    try (destruct Hloc as [[-> ->]|[-> ->]]; discriminate Hd).
  cbn. repeat split.
Qed.

Lemma details_null_is_error_witness :
  let run := exec details_fail 0 (handleAnalysis None photo initial) in
  first_answer shops_of (fst run) = Some (Some []) /\
  first_answer stores_of (fst run) = Some (Some [free_store; ten_store]) /\
  first_answer similar_of (fst run)
  = Some (Some (SimilarArray (map Some sample_raw))) /\
  step (snd (snd run)) = ERROR.
Proof.
  cbv zeta. split; [reflexivity|]. split; [reflexivity|]. split; [reflexivity|].
  apply (details_null_is_error None photo initial
           (fst (exec details_fail 0 (handleAnalysis None photo initial)))).
  - apply exec_runs.
  - reflexivity.
Defined.

(** C6.  In every run of [handleAnalysis] that ends in [RESULTS] and in
    which [findSimilarProducts] answers a list of entries, the image
    requests of the run are one request for each entry without an image,
    with the name of that entry and in the order of the list, so that
    each of these entries has its own request and answer.  The similar
    products of the final state are the entries of the list, in order,
    with their image: an entry with an image keeps it, an entry without
    one takes the image that [generateProductImage] returned for its
    request, and is dropped when that was [null].  No entry of the final
    list has an empty image. *)
Theorem similar_products_backfilled :
  forall userLocation file s t out raw,
    runs (handleAnalysis userLocation file s) t out ->
    step (snd out) = RESULTS ->
    first_answer similar_of t = Some (Some (SimilarArray (map Some raw))) ->
    answers image_request_of t = map raw_name (filter lacks_image raw) /\
    List.length (answers generated_of t)
    = List.length (filter lacks_image raw) /\
    similarProducts (snd out)
      = Some (expected_similar raw (answers generated_of t)) /\
    Forall (fun p => SimilarProduct.imageUrl p <> [])
           (expected_similar raw (answers generated_of t)).
Proof.
  intros loc file s t out raw H Hstep Hsim.
  apply handleAnalysis_runs in H. destruct H as [_ H].
  run_cases H; try discriminate Hstep.
  - destruct Hloc as [[-> ->]|[-> ->]]; discriminate Hsim.
  - assert (elements = map Some raw) as ->
      by (destruct Hloc as [[-> ->]|[-> ->]]; cbn in Hsim; congruence).
    destruct (runs_backfill_calls _ _ _ Hwave) as (_ & Hreq & _).
    destruct (runs_backfill_fulfilled _ _ _ _ Hwave Hsettled) as [_ Himg].
    rewrite entries_map_Some in Hreq, Himg.
    assert (answers image_request_of
              ([Event (createObjectURL file) objectUrl;
                Event (identifyProduct file) (Some identified)] ++
               geo ++
               lookup_events identified location (Some details) shops stores
                 (Some (SimilarArray (map Some raw))) ++ wave)
            = answers image_request_of wave) as Hr
      by (destruct Hloc as [[-> ->]|[-> ->]]; reflexivity).
    assert (answers generated_of
              ([Event (createObjectURL file) objectUrl;
                Event (identifyProduct file) (Some identified)] ++
               geo ++
               lookup_events identified location (Some details) shops stores
                 (Some (SimilarArray (map Some raw))) ++ wave)
            = answers generated_of wave) as Hg
      by (destruct Hloc as [[-> ->]|[-> ->]]; reflexivity).
    rewrite Hr, Hg, Hreq. cbn [snd similarProducts]. rewrite Himg.
    split; [reflexivity|]. split; [|split; [reflexivity|]].
    + assert (Hlen : List.length (answers generated_of wave)
                     = List.length (answers image_request_of wave)).
      { clear. induction wave as [|[X c x] wave IH]; [reflexivity|].
        destruct c; cbn; rewrite ?IH; reflexivity. }
      rewrite Hlen, Hreq, length_map. reflexivity.
    + rewrite <- Himg.
      eapply Forall_impl; [|apply with_image_truthy].
      intros p Hp Hnil. cbv beta in Hp. rewrite Hnil in Hp. discriminate Hp.
Qed.

Lemma similar_products_backfilled_witness :
  let run := exec all_succeed 0 (handleAnalysis None photo initial) in
  answers image_request_of (fst run)
  = [lit "AirPods Max"; lit "Sennheiser Momentum 4"; lit "JBL Tour One"] /\
  similarProducts (snd (snd run))
  = Some [ SimilarProduct.mk (lit "Bose QC45") (lit "https://img.example/bose.jpg");
           SimilarProduct.mk (lit "AirPods Max") (lit "data:image/jpeg;base64,AAAA") ].
Proof.
  cbv zeta.
  destruct (similar_products_backfilled None photo initial
              (fst (exec all_succeed 0 (handleAnalysis None photo initial)))
              (snd (exec all_succeed 0 (handleAnalysis None photo initial)))
              sample_raw (exec_runs all_succeed _ 0) eq_refl eq_refl)
    as (Hreq & _ & Hfinal & _).
  split.
  - exact (eq_trans Hreq eq_refl).
  - exact (eq_trans Hfinal eq_refl).
Defined.

(** *** Resets *)




(* ================================================================== *)
(** * The runs of the handlers *)



(** X14.  When a run of [handleAnalysis] ends in [RESULTS], the state
    shows what the calls answered: the image is the object URL, the
    product joins the identification and the details, the shops and the
    stores are the answers of their lookups as they are, [null] included,
    the similar products are [null] exactly when their lookup answered
    [null], and the view is [DETAILS]. *)
Theorem handleAnalysis_results_state userLocation file s t out :
  runs (handleAnalysis userLocation file s) t out ->
  step (snd out) = RESULTS ->
  exists identified details,
    first_answer identify_of t = Some (Some identified) /\
    first_answer details_of t = Some (Some details) /\
    productInfo (snd out) = Some (product_of identified details) /\
    imageUrl (snd out) = first_answer objectUrl_of t /\
    Some (nearbyShops (snd out)) = first_answer shops_of t /\
    Some (onlineStores (snd out)) = first_answer stores_of t /\
    (similarProducts (snd out) = None <->
     first_answer similar_of t = Some None) /\
    currentView (snd out) = DETAILS.
Proof.
  intros H Hr. apply handleAnalysis_runs in H. destruct H as [_ H].
  run_cases H; try discriminate Hr.
  - exists identified, details.
    destruct Hloc as [[-> ->]|[-> ->]]; cbn;
      repeat (split; try reflexivity).
  - exists identified, details.
    destruct Hloc as [[-> ->]|[-> ->]]; cbn;
      (repeat (split; try reflexivity)); discriminate.
Qed.

Lemma handleAnalysis_results_state_witness :
  exists identified details,
    first_answer identify_of
      (fst (exec all_succeed 0 (handleAnalysis None photo initial)))
    = Some (Some identified) /\
    first_answer details_of
      (fst (exec all_succeed 0 (handleAnalysis None photo initial)))
    = Some (Some details) /\
    productInfo (snd (snd (exec all_succeed 0 (handleAnalysis None photo initial))))
    = Some (product_of identified details).
Proof.
  destruct (handleAnalysis_results_state None photo initial
              (fst (exec all_succeed 0 (handleAnalysis None photo initial)))
              (snd (exec all_succeed 0 (handleAnalysis None photo initial)))
              (exec_runs all_succeed _ 0) eq_refl)
    as (identified & details & H1 & H2 & H3 & _).
  exists identified, details. split; [exact H1|]. split; [exact H2 | exact H3].
Defined.

(** X15.  The geolocation request of [handleAnalysis], when no location
    is cached.  If the request is refused, the run ends there in [ERROR]
    with the message of the refusal, no lookup is issued, and the cached
    location stays as it was.  If it answers a location, that location is
    cached, also when the run ends in [ERROR] later. *)
Theorem handleAnalysis_geolocation file s t out :
  runs (handleAnalysis None file s) t out ->
  (first_answer position_of t = Some None ->
   step (snd out) = ERROR /\
   error (snd out)
   = Some (lit "Geolocation permission denied or unavailable.") /\
   forallb (fun e => negb (is_downstream e)) t = true /\
   userLocation (snd out) = userLocation s) /\
  (forall location,
     first_answer position_of t = Some (Some location) ->
     userLocation (snd out) = Some location).
Proof.
  intros H. apply handleAnalysis_runs in H. destruct H as [_ H].
  run_cases H.
  - split; [|intros location']; cbn; discriminate.
  - split; [|intros location']; cbn; [|discriminate].
    intros _. repeat split.
  - destruct Hloc as [[Hl _]|[_ ->]]; [discriminate Hl|].
    split; [|intros location']; cbn; [discriminate|].
    intros [= ->]. reflexivity.
  - destruct Hloc as [[Hl _]|[_ ->]]; [discriminate Hl|].
    split; [|intros location']; cbn; [discriminate|].
    intros [= ->]. reflexivity.
  - destruct Hloc as [[Hl _]|[_ ->]]; [discriminate Hl|].
    split; [|intros location']; cbn; [discriminate|].
    intros [= ->]. reflexivity.
  - destruct Hloc as [[Hl _]|[_ ->]]; [discriminate Hl|].
    split; [|intros location']; cbn; [discriminate|].
    intros [= ->]. reflexivity.
  - destruct Hloc as [[Hl _]|[_ ->]]; [discriminate Hl|].
    split; [|intros location']; cbn; [discriminate|].
    intros [= ->]. reflexivity.
Qed.

Lemma handleAnalysis_geolocation_witness :
  (step (snd (snd (exec geolocation_refused 0
                     (handleAnalysis None photo showing_results))))
   = ERROR /\
   userLocation (snd (snd (exec geolocation_refused 0
                             (handleAnalysis None photo showing_results))))
   = Some here) /\
  userLocation (snd (snd (exec all_succeed 0
                            (handleAnalysis None photo initial))))
  = Some here.
Proof.
  split.
  - destruct (proj1 (handleAnalysis_geolocation photo showing_results
                       (fst (exec geolocation_refused 0
                               (handleAnalysis None photo showing_results)))
                       (snd (exec geolocation_refused 0
                               (handleAnalysis None photo showing_results)))
                       (exec_runs geolocation_refused _ 0)) eq_refl)
      as (Hstep & _ & _ & Hloc).
    split; [exact Hstep | exact Hloc].
  - apply (proj2 (handleAnalysis_geolocation photo initial
                    (fst (exec all_succeed 0 (handleAnalysis None photo initial)))
                    (snd (exec all_succeed 0 (handleAnalysis None photo initial)))
                    (exec_runs all_succeed _ 0)) here).
    reflexivity.
Defined.

(** X16.  The calls of a run of [handleAnalysis], in order: the object
    URL, the identification, the geolocation request when no location is
    cached, the four lookups with the identified name, the identified type
    and the location, and then one image request for each entry of the
    similar products without an image, in the order of the list.  The
    run stops after the identification or the geolocation request when
    that one fails, and issues no image request when the details are
    [null]. *)
Theorem handleAnalysis_calls userLocation file s t out :
  runs (handleAnalysis userLocation file s) t out ->
  calls_of t = expected_calls userLocation file t.
Proof.
  intros H. apply handleAnalysis_runs in H. destruct H as [_ H].
  run_cases H.
  - reflexivity.
  - subst userLocation. reflexivity.
  - destruct Hloc as [[-> ->]|[-> ->]]; reflexivity.
  - destruct Hloc as [[-> ->]|[-> ->]]; reflexivity.
  - apply runs_backfill_calls in Hwave. destruct Hwave as [Hcalls _].
    unfold calls_of in *.
    destruct Hloc as [[-> ->]|[-> ->]]; cbn; rewrite Hcalls; reflexivity.
  - apply runs_backfill_calls in Hwave. destruct Hwave as [Hcalls _].
    unfold calls_of in *.
    destruct Hloc as [[-> ->]|[-> ->]]; cbn; rewrite Hcalls; reflexivity.
  - destruct Hloc as [[-> ->]|[-> ->]]; reflexivity.
Qed.

Lemma handleAnalysis_calls_witness :
  calls_of (fst (exec all_succeed 0 (handleAnalysis None photo initial)))
  = [ Issued (createObjectURL photo); Issued (identifyProduct photo);
      Issued getCurrentPosition;
      Issued (getProductDetails (identified_name headphones));
      Issued (findNearbyShops (identified_name headphones)
                (identified_type headphones) here);
      Issued (findOnlineStores (identified_name headphones));
      Issued (findSimilarProducts (identified_name headphones));
      Issued (generateImages (lit "AirPods Max"));
      Issued (generateImages (lit "Sennheiser Momentum 4"));
      Issued (generateImages (lit "JBL Tour One")) ].
Proof.
  refine (eq_trans
            (handleAnalysis_calls None photo initial
               (fst (exec all_succeed 0 (handleAnalysis None photo initial)))
               (snd (exec all_succeed 0 (handleAnalysis None photo initial)))
               (exec_runs all_succeed _ 0)) _).
  reflexivity.
Defined.

(** X17.  When the image of a similar product cannot be fetched, because
    the request throws, the response is not [ok], or reading the body
    throws, [handleSimilarProductAnalysis] issues no other call and does
    not throw; the step is [ERROR], the error is the fixed prefix followed
    by the message of the failure, and the image, product, shops, stores,
    similar products, cached location and view are those of before. *)
Theorem similar_fetch_failure userLocation product s t out :
  runs (handleSimilarProductAnalysis userLocation product s) t out ->
  forall fetched detail,
    first_answer fetch_of t = Some fetched ->
    fetch_failure fetched = Some detail ->
    t = [Event (fetch (proxyUrl product)) fetched] /\
    out = (Normal tt, fetch_failed product detail s).
Proof.
  intros H fetched detail Hf Hd.
  apply similar_runs in H. destruct H as (fetched' & t' & -> & H).
  cbn in Hf. injection Hf as ->.
  rewrite Hd in H. destruct H as [-> ->]. split; reflexivity.
Qed.

Lemma similar_fetch_failure_witness :
  exists t out,
    runs (handleSimilarProductAnalysis (Some here)
            (SimilarProduct.mk (lit "Bose QC45")
               (lit "https://img.example/bose.jpg"))
            showing_results) t out /\
    out = (Normal tt,
           fetch_failed
             (SimilarProduct.mk (lit "Bose QC45")
                (lit "https://img.example/bose.jpg"))
             (lit "Failed to fetch") showing_results).
Proof.
  eexists. eexists. split; [apply (exec_runs details_fail _ 0)|].
  apply (similar_fetch_failure (Some here)
           (SimilarProduct.mk (lit "Bose QC45")
              (lit "https://img.example/bose.jpg"))
           showing_results _ _ (exec_runs details_fail _ 0)
           (Throw (mkError (lit "Failed to fetch"))) (lit "Failed to fetch")
           eq_refl eq_refl).
Defined.



(** X19.  The file that [handleSimilarProductAnalysis] hands to the
    analysis is named after the product, with every white space character
    replaced by one underscore and [.jpg] appended: the name has no white
    space and four characters more than the name of the product. *)
Theorem similar_file_name product b :
  forallb (fun c => negb (is_space c)) (file_name (similar_file product b))
  = true /\
  List.length (file_name (similar_file product b))
  = (List.length (SimilarProduct.name product) + 4)%nat.
Proof.
  unfold similar_file. cbn [file_name]. split.
  - rewrite forallb_app. apply andb_true_iff. split; [|reflexivity].
    unfold replace_spaces.
    induction (SimilarProduct.name product) as [|c rest IH];
      [reflexivity|].
    cbn [map forallb]. rewrite IH, andb_true_r.
    destruct (is_space c) eqn:Hc; [reflexivity|].
    rewrite Hc. reflexivity.
  - rewrite length_app. unfold replace_spaces. rewrite length_map.
    reflexivity.
Qed.

(** *** What holds between two actions *)

(** Closes the parts of [at_rest] that hold by the shape of the state. *)
Ltac rest_tac :=
  unfold at_rest; cbn;
  repeat (split || intro);
  try congruence; try contradiction; try exact I; try assumption.

Lemma analysis_run_at_rest file s t s' :
  analysis_run (App.userLocation s) file s t s' -> at_rest s'.
Proof.
  intros H.
  assert (Hc : forall geo location,
             located (App.userLocation s) geo location ->
             cached (App.userLocation s) s location <> None).
  { intros geo location Hloc. unfold cached.
    destruct Hloc as [[Hl _]|[Hl _]]; rewrite Hl; discriminate. }
  run_cases H; try (pose proof (Hc _ _ Hloc) as Hcached);
    unfold similar_failed; rest_tac.
  apply with_image_truthy.
Qed.

(** X20.  Whenever no handler is running, the component is not in the
    [PROCESSING] step.  In [UPLOAD] the state is the one of the first
    render.  In [RESULTS] the product and the image are not [null], as
    [renderContent] asserts, no error is recorded and a location is
    cached.  In [ERROR] an error message is recorded.  And every similar
    product on record has an image URL that is not empty. *)
Theorem reachable_at_rest s :
  reachable s -> at_rest s.
Proof.
  intros H. induction H as [|s a t out Hs IH Ho Hr].
  - rest_tac.
  - destruct Ho as [file Hstep
                   | product products Hstep Hview Hsim Hin
                   | view Hstep
                   | Hstep
                   | Hstep].
    + rewrite handler_file in Hr. apply handleAnalysis_runs in Hr.
      destruct Hr as [_ Hr]. exact (analysis_run_at_rest _ _ _ _ Hr).
    + rewrite handler_similar in Hr. apply similar_runs in Hr.
      destruct Hr as (fetched & t' & -> & Hr).
      destruct (fetch_failure fetched) as [detail|].
      * destruct Hr as [-> ->]. destruct IH as (_ & _ & _ & _ & IH).
        rest_tac.
      * destruct Hr as (response & b & _ & _ & _ & Hr).
        apply handleAnalysis_runs in Hr.
        destruct Hr as [_ Hr]. exact (analysis_run_at_rest _ _ _ _ Hr).
    + apply runs_view in Hr. destruct Hr as [-> ->].
      destruct IH as (_ & _ & IH3 & _ & IH5).
      destruct (IH3 Hstep) as (I1 & I2 & I3 & I4).
      rest_tac.
    + apply runs_start_over in Hr. destruct Hr as [-> ->]. rest_tac.
    + apply runs_start_over in Hr. destruct Hr as [-> ->]. rest_tac.
Qed.

Lemma reachable_at_rest_witness :
  at_rest (snd (snd (exec all_succeed 0 (handler (SelectFile photo) initial)))).
Proof.
  apply reachable_at_rest.
  apply (reachable_action initial (SelectFile photo)
           (fst (exec all_succeed 0 (handler (SelectFile photo) initial)))
           (snd (exec all_succeed 0 (handler (SelectFile photo) initial)))).
  - apply reachable_initial.
  - apply offers_file. reflexivity.
  - apply exec_runs.
Defined.
